(** * Playback synchronisation and optimistic commands of the Swing DJ Companion

    A shallow embedding of the playback core of [src/renderer.js]: the remote
    state poller, the interpolation clock, the command dispatcher
    ([playTrack], [togglePlayPause]) and the device resolver.

    The renderer is single-threaded and event driven.  An [async] function
    runs without interruption up to its next [await]; what remains of it is
    kept here as a suspended [Task] that a later event resumes.  Module level
    [let] variables are the fields of [State]; the parts of the page that the
    core writes are the fields of [Dom]; timers live in a table keyed by the
    ids that [setInterval] and [setTimeout] hand out. *)

From stdpp Require Import gmap strings list pretty.
From Stdlib Require Import ZArith Ascii.

Local Open Scope string_scope.
Local Open Scope Z_scope.

(** ** Strings as the code uses them *)

Module JsString.

(** [s.includes(sub)] *)
Fixpoint includes (sub s : string) : bool :=
  String.prefix sub s ||
  match s with
  | EmptyString => false
  | String _ rest => includes sub rest
  end.

Definition lower_ascii (c : ascii) : ascii :=
  let n := nat_of_ascii c in
  if ((65 <=? n)%nat && (n <=? 90)%nat)%bool then ascii_of_nat (n + 32) else c.

(** [s.toLowerCase()], on the letters A to Z; other bytes are kept. *)
Fixpoint toLowerCase (s : string) : string :=
  match s with
  | EmptyString => EmptyString
  | String c rest => String (lower_ascii c) (toLowerCase rest)
  end.

(** A string is falsy exactly when it is empty. *)
Definition truthy (s : string) : bool :=
  match s with EmptyString => false | _ => true end.

(** [a || b] on strings *)
Definition or_else (a b : string) : string := if truthy a then a else b.

(** [o || b] where [o] may be [null] or [undefined] *)
Definition opt_or_else (o : option string) (b : string) : string :=
  match o with Some a => or_else a b | None => b end.

(** truthiness of a value that is a string, [null] or [undefined] *)
Definition opt_truthy (o : option string) : bool :=
  match o with Some a => truthy a | None => false end.

End JsString.
Import JsString.

(** [esc]: the four replacements are applied one after the other; since no
    replacement text contains a character replaced later other than inside
    an entity already produced from [&], this is a map over characters. *)
Definition esc_char (c : ascii) : string :=
  if Ascii.eqb c "&" then "&amp;"
  else if Ascii.eqb c "<" then "&lt;"
  else if Ascii.eqb c ">" then "&gt;"
  else if Ascii.eqb c (ascii_of_nat 34) then "&quot;"
  else String c EmptyString.

Fixpoint esc (str : string) : string :=
  match str with
  | EmptyString => EmptyString
  | String c rest => esc_char c ++ esc rest
  end.

(** [isTransientError] *)
Definition isTransientError (msg : string) : bool :=
  if negb (truthy msg) then false
  else
    let lowerMsg := toLowerCase msg in
    includes "not valid json" lowerMsg ||
    includes "restriction violated" lowerMsg ||
    includes "failed to parse" lowerMsg ||
    (includes "unexpected" lowerMsg && includes "json" lowerMsg) ||
    includes "empty response" lowerMsg.

(** ** What the remote service and the page look like to the core *)

(** One saved library track ([djTracks] mirrors the library store). *)
Record LibTrack := { lib_id : string; bpm : option Z }.

Record Artist := { artist_name : string }.

(** [state.item] of the player endpoint.  A local file has no id. *)
Record Item := {
  item_id : option string;
  item_name : string;
  artists : option (list Artist);
  duration_ms : option Z
}.

(** An entry of the device list.  The service may withhold a device's id. *)
Record Device := { device_id : option string; is_active : bool }.

(** A parsed JSON body, as the fields the core reads from it; a field that is
    absent reads as [None] (or [false] for [is_playing]). *)
Record Body := {
  error_message : option string;        (* data.error?.message *)
  devices : option (list Device);       (* d?.devices *)
  item : option Item;                   (* state.item *)
  is_playing : bool;                    (* state.is_playing *)
  progress_ms : option Z                (* state.progress_ms *)
}.

(** What [res.json()] settles to: a parse failure, or the parsed value, which
    may be [null]. *)
Inductive JsonResult :=
| JsonThrows (message : string)
| JsonValue (data : option Body).

(** What [fetch(...)] followed by [res.json()] settles to. *)
Inductive HttpReply :=
| NetworkError (message : string)
| Response (status : Z) (json : JsonResult).

(** What the session provider [getValidToken()] settles to. *)
Inductive TokenReply :=
| Token (token : option string)
| TokenThrows (message : string).

(** The arguments of one [spotifyFetch(path, opts)] call.  [uris] stands for
    the body [JSON.stringify({ uris })]. *)
Record Request := {
  path : string;
  method : option string;
  uris : option (list string)
}.

(** How an awaited promise settles: a value, or a thrown [Error]. *)
Inductive Outcome :=
| Fulfilled (data : option Body)
| Rejected (message : string).

(** Effects that leave the renderer, oldest last. *)
Inductive Effect :=
| Call (req : Request)             (* spotifyFetch invoked *)
| Http (req : Request)             (* fetch() performed with a bearer token *)
| SdkTogglePlay                    (* spotifyPlayer.togglePlay() *)
| ConsoleWarn (text : string)
| ConsoleError (text : string).

(** *** The page *)

Record Button := { textContent : string; disabled : bool }.

(** [#nowPlaying]: the idle hint written by [renderBarLoggedIn], or the name
    and artist lines written by [updateBarNowPlaying]. *)
Inductive NowPlaying :=
| NowPlayingIdle
| NowPlayingTrack (name artist : string).

Record Card := {
  dataset_id : string;
  playing : bool;                       (* classList contains 'playing' *)
  play_btn : option string              (* text of .play-btn, if present *)
}.

Record Status := { status_text : string; status_className : string }.

(** The progress line ([#progressFill], [#progressCurrent],
    [#progressRemaining], created together): as first rendered, or showing the
    pair last handed to [updateProgressEl]. *)
Inductive Progress :=
| ProgressBlank
| ProgressAt (posMs durMs : Z).

Record Dom := {
  nowPlaying : option NowPlaying;
  barCenter : option bool;              (* Some true: shown *)
  barBpm : option string;
  playPauseBtn : option Button;
  progress : option Progress;
  cards : list Card;
  status : Status
}.

(** *** Timers *)

Inductive Timer :=
| ProgressInterval                      (* the 250 ms interpolation clock *)
| PollInterval                          (* the 2.5 s poller *)
| PollTimeout                           (* setTimeout(pollPlaybackState, 100) *)
| StatusTimeout (msg : string).         (* setStatus's 3.5 s clear *)

#[global] Instance Timer_eq_dec : EqDecision Timer.
Proof. solve_decision. Defined.

(** ** Renderer state: the module-level variables, the page, the timers *)

Record State := {
  spotifyPlayer : bool;                 (* non-null? *)
  sdkDeviceId : option string;
  progressTimer : option nat;
  pollInterval : option nat;
  djTracks : list LibTrack;
  pollSyncPos : Z;
  pollSyncAt : Z;
  pollDuration : Z;
  lastTrackId : option string;
  lastPaused : bool;
  playbackCommandPending : bool;
  lastPlaybackCommandTime : Z;
  playTrackPending : bool;
  lastPlayTrackTime : Z;
  dom : Dom;
  timers : gmap nat Timer;
  nextTimer : nat;
  log : list Effect
}.

(** What is left of an [async] function at an [await]. *)
Inductive Kont :=
| KPoll                                           (* pollPlaybackState, line 142 *)
| KPlayTrackDevices (trackId : string)            (* playTrack, line 214, via getDevices *)
| KPlayTrackCommand                               (* playTrack, line 225 *)
| KToggle (now : Z) (prevPaused ppBtn : bool).    (* togglePlayPause, lines 259/261 *)

(** Where a [spotifyFetch] call is waiting. *)
Inductive FetchStage :=
| AwaitToken (req : Request)            (* line 104 *)
| AwaitHttp.                            (* lines 106 and 115 *)

Inductive Task :=
| TFetch (stage : FetchStage) (k : Kont)
| TPlayTrackDevice (trackId : string) (deviceId : option string).
                                        (* playTrack, line 214, id known at once *)

(** The renderer: its state and the suspended [async] calls. *)
Record Sys := { st : State; tasks : list Task }.

(** ** Assignments *)

(** Writing one part of the page. *)
Definition set_nowPlaying (v : option NowPlaying) (d : Dom) : Dom :=
  {| nowPlaying := v; barCenter := barCenter d; barBpm := barBpm d;
     playPauseBtn := playPauseBtn d; progress := progress d;
     cards := cards d; status := status d |}.

Definition set_barCenter (v : option bool) (d : Dom) : Dom :=
  {| nowPlaying := nowPlaying d; barCenter := v; barBpm := barBpm d;
     playPauseBtn := playPauseBtn d; progress := progress d;
     cards := cards d; status := status d |}.

Definition set_barBpm (v : option string) (d : Dom) : Dom :=
  {| nowPlaying := nowPlaying d; barCenter := barCenter d; barBpm := v;
     playPauseBtn := playPauseBtn d; progress := progress d;
     cards := cards d; status := status d |}.

Definition set_playPauseBtn (v : option Button) (d : Dom) : Dom :=
  {| nowPlaying := nowPlaying d; barCenter := barCenter d;
     barBpm := barBpm d; playPauseBtn := v; progress := progress d;
     cards := cards d; status := status d |}.

Definition set_progress (v : option Progress) (d : Dom) : Dom :=
  {| nowPlaying := nowPlaying d; barCenter := barCenter d;
     barBpm := barBpm d; playPauseBtn := playPauseBtn d; progress := v;
     cards := cards d; status := status d |}.

Definition set_cards (v : list Card) (d : Dom) : Dom :=
  {| nowPlaying := nowPlaying d; barCenter := barCenter d;
     barBpm := barBpm d; playPauseBtn := playPauseBtn d;
     progress := progress d; cards := v; status := status d |}.

Definition set_status (v : Status) (d : Dom) : Dom :=
  {| nowPlaying := nowPlaying d; barCenter := barCenter d;
     barBpm := barBpm d; playPauseBtn := playPauseBtn d;
     progress := progress d; cards := cards d; status := v |}.

(** Assigning one variable. *)
Definition set_spotifyPlayer (v : bool) (s : State) : State :=
  {| spotifyPlayer := v; sdkDeviceId := sdkDeviceId s;
     progressTimer := progressTimer s; pollInterval := pollInterval s;
     djTracks := djTracks s; pollSyncPos := pollSyncPos s;
     pollSyncAt := pollSyncAt s; pollDuration := pollDuration s;
     lastTrackId := lastTrackId s; lastPaused := lastPaused s;
     playbackCommandPending := playbackCommandPending s;
     lastPlaybackCommandTime := lastPlaybackCommandTime s;
     playTrackPending := playTrackPending s;
     lastPlayTrackTime := lastPlayTrackTime s; dom := dom s;
     timers := timers s; nextTimer := nextTimer s; log := log s |}.

Definition set_sdkDeviceId (v : option string) (s : State) : State :=
  {| spotifyPlayer := spotifyPlayer s; sdkDeviceId := v;
     progressTimer := progressTimer s; pollInterval := pollInterval s;
     djTracks := djTracks s; pollSyncPos := pollSyncPos s;
     pollSyncAt := pollSyncAt s; pollDuration := pollDuration s;
     lastTrackId := lastTrackId s; lastPaused := lastPaused s;
     playbackCommandPending := playbackCommandPending s;
     lastPlaybackCommandTime := lastPlaybackCommandTime s;
     playTrackPending := playTrackPending s;
     lastPlayTrackTime := lastPlayTrackTime s; dom := dom s;
     timers := timers s; nextTimer := nextTimer s; log := log s |}.

Definition set_progressTimer (v : option nat) (s : State) : State :=
  {| spotifyPlayer := spotifyPlayer s; sdkDeviceId := sdkDeviceId s;
     progressTimer := v; pollInterval := pollInterval s;
     djTracks := djTracks s; pollSyncPos := pollSyncPos s;
     pollSyncAt := pollSyncAt s; pollDuration := pollDuration s;
     lastTrackId := lastTrackId s; lastPaused := lastPaused s;
     playbackCommandPending := playbackCommandPending s;
     lastPlaybackCommandTime := lastPlaybackCommandTime s;
     playTrackPending := playTrackPending s;
     lastPlayTrackTime := lastPlayTrackTime s; dom := dom s;
     timers := timers s; nextTimer := nextTimer s; log := log s |}.

Definition set_pollInterval (v : option nat) (s : State) : State :=
  {| spotifyPlayer := spotifyPlayer s; sdkDeviceId := sdkDeviceId s;
     progressTimer := progressTimer s; pollInterval := v;
     djTracks := djTracks s; pollSyncPos := pollSyncPos s;
     pollSyncAt := pollSyncAt s; pollDuration := pollDuration s;
     lastTrackId := lastTrackId s; lastPaused := lastPaused s;
     playbackCommandPending := playbackCommandPending s;
     lastPlaybackCommandTime := lastPlaybackCommandTime s;
     playTrackPending := playTrackPending s;
     lastPlayTrackTime := lastPlayTrackTime s; dom := dom s;
     timers := timers s; nextTimer := nextTimer s; log := log s |}.

Definition set_pollSyncPos (v : Z) (s : State) : State :=
  {| spotifyPlayer := spotifyPlayer s; sdkDeviceId := sdkDeviceId s;
     progressTimer := progressTimer s; pollInterval := pollInterval s;
     djTracks := djTracks s; pollSyncPos := v; pollSyncAt := pollSyncAt s;
     pollDuration := pollDuration s; lastTrackId := lastTrackId s;
     lastPaused := lastPaused s;
     playbackCommandPending := playbackCommandPending s;
     lastPlaybackCommandTime := lastPlaybackCommandTime s;
     playTrackPending := playTrackPending s;
     lastPlayTrackTime := lastPlayTrackTime s; dom := dom s;
     timers := timers s; nextTimer := nextTimer s; log := log s |}.

Definition set_pollSyncAt (v : Z) (s : State) : State :=
  {| spotifyPlayer := spotifyPlayer s; sdkDeviceId := sdkDeviceId s;
     progressTimer := progressTimer s; pollInterval := pollInterval s;
     djTracks := djTracks s; pollSyncPos := pollSyncPos s; pollSyncAt := v;
     pollDuration := pollDuration s; lastTrackId := lastTrackId s;
     lastPaused := lastPaused s;
     playbackCommandPending := playbackCommandPending s;
     lastPlaybackCommandTime := lastPlaybackCommandTime s;
     playTrackPending := playTrackPending s;
     lastPlayTrackTime := lastPlayTrackTime s; dom := dom s;
     timers := timers s; nextTimer := nextTimer s; log := log s |}.

Definition set_pollDuration (v : Z) (s : State) : State :=
  {| spotifyPlayer := spotifyPlayer s; sdkDeviceId := sdkDeviceId s;
     progressTimer := progressTimer s; pollInterval := pollInterval s;
     djTracks := djTracks s; pollSyncPos := pollSyncPos s;
     pollSyncAt := pollSyncAt s; pollDuration := v;
     lastTrackId := lastTrackId s; lastPaused := lastPaused s;
     playbackCommandPending := playbackCommandPending s;
     lastPlaybackCommandTime := lastPlaybackCommandTime s;
     playTrackPending := playTrackPending s;
     lastPlayTrackTime := lastPlayTrackTime s; dom := dom s;
     timers := timers s; nextTimer := nextTimer s; log := log s |}.

Definition set_lastTrackId (v : option string) (s : State) : State :=
  {| spotifyPlayer := spotifyPlayer s; sdkDeviceId := sdkDeviceId s;
     progressTimer := progressTimer s; pollInterval := pollInterval s;
     djTracks := djTracks s; pollSyncPos := pollSyncPos s;
     pollSyncAt := pollSyncAt s; pollDuration := pollDuration s;
     lastTrackId := v; lastPaused := lastPaused s;
     playbackCommandPending := playbackCommandPending s;
     lastPlaybackCommandTime := lastPlaybackCommandTime s;
     playTrackPending := playTrackPending s;
     lastPlayTrackTime := lastPlayTrackTime s; dom := dom s;
     timers := timers s; nextTimer := nextTimer s; log := log s |}.

Definition set_lastPaused (v : bool) (s : State) : State :=
  {| spotifyPlayer := spotifyPlayer s; sdkDeviceId := sdkDeviceId s;
     progressTimer := progressTimer s; pollInterval := pollInterval s;
     djTracks := djTracks s; pollSyncPos := pollSyncPos s;
     pollSyncAt := pollSyncAt s; pollDuration := pollDuration s;
     lastTrackId := lastTrackId s; lastPaused := v;
     playbackCommandPending := playbackCommandPending s;
     lastPlaybackCommandTime := lastPlaybackCommandTime s;
     playTrackPending := playTrackPending s;
     lastPlayTrackTime := lastPlayTrackTime s; dom := dom s;
     timers := timers s; nextTimer := nextTimer s; log := log s |}.

Definition set_playbackCommandPending (v : bool) (s : State) : State :=
  {| spotifyPlayer := spotifyPlayer s; sdkDeviceId := sdkDeviceId s;
     progressTimer := progressTimer s; pollInterval := pollInterval s;
     djTracks := djTracks s; pollSyncPos := pollSyncPos s;
     pollSyncAt := pollSyncAt s; pollDuration := pollDuration s;
     lastTrackId := lastTrackId s; lastPaused := lastPaused s;
     playbackCommandPending := v;
     lastPlaybackCommandTime := lastPlaybackCommandTime s;
     playTrackPending := playTrackPending s;
     lastPlayTrackTime := lastPlayTrackTime s; dom := dom s;
     timers := timers s; nextTimer := nextTimer s; log := log s |}.

Definition set_lastPlaybackCommandTime (v : Z) (s : State) : State :=
  {| spotifyPlayer := spotifyPlayer s; sdkDeviceId := sdkDeviceId s;
     progressTimer := progressTimer s; pollInterval := pollInterval s;
     djTracks := djTracks s; pollSyncPos := pollSyncPos s;
     pollSyncAt := pollSyncAt s; pollDuration := pollDuration s;
     lastTrackId := lastTrackId s; lastPaused := lastPaused s;
     playbackCommandPending := playbackCommandPending s;
     lastPlaybackCommandTime := v; playTrackPending := playTrackPending s;
     lastPlayTrackTime := lastPlayTrackTime s; dom := dom s;
     timers := timers s; nextTimer := nextTimer s; log := log s |}.

Definition set_playTrackPending (v : bool) (s : State) : State :=
  {| spotifyPlayer := spotifyPlayer s; sdkDeviceId := sdkDeviceId s;
     progressTimer := progressTimer s; pollInterval := pollInterval s;
     djTracks := djTracks s; pollSyncPos := pollSyncPos s;
     pollSyncAt := pollSyncAt s; pollDuration := pollDuration s;
     lastTrackId := lastTrackId s; lastPaused := lastPaused s;
     playbackCommandPending := playbackCommandPending s;
     lastPlaybackCommandTime := lastPlaybackCommandTime s;
     playTrackPending := v; lastPlayTrackTime := lastPlayTrackTime s;
     dom := dom s; timers := timers s; nextTimer := nextTimer s;
     log := log s |}.

Definition set_lastPlayTrackTime (v : Z) (s : State) : State :=
  {| spotifyPlayer := spotifyPlayer s; sdkDeviceId := sdkDeviceId s;
     progressTimer := progressTimer s; pollInterval := pollInterval s;
     djTracks := djTracks s; pollSyncPos := pollSyncPos s;
     pollSyncAt := pollSyncAt s; pollDuration := pollDuration s;
     lastTrackId := lastTrackId s; lastPaused := lastPaused s;
     playbackCommandPending := playbackCommandPending s;
     lastPlaybackCommandTime := lastPlaybackCommandTime s;
     playTrackPending := playTrackPending s; lastPlayTrackTime := v;
     dom := dom s; timers := timers s; nextTimer := nextTimer s;
     log := log s |}.

Definition set_dom (v : Dom) (s : State) : State :=
  {| spotifyPlayer := spotifyPlayer s; sdkDeviceId := sdkDeviceId s;
     progressTimer := progressTimer s; pollInterval := pollInterval s;
     djTracks := djTracks s; pollSyncPos := pollSyncPos s;
     pollSyncAt := pollSyncAt s; pollDuration := pollDuration s;
     lastTrackId := lastTrackId s; lastPaused := lastPaused s;
     playbackCommandPending := playbackCommandPending s;
     lastPlaybackCommandTime := lastPlaybackCommandTime s;
     playTrackPending := playTrackPending s;
     lastPlayTrackTime := lastPlayTrackTime s; dom := v; timers := timers s;
     nextTimer := nextTimer s; log := log s |}.

Definition set_timers (v : gmap nat Timer) (s : State) : State :=
  {| spotifyPlayer := spotifyPlayer s; sdkDeviceId := sdkDeviceId s;
     progressTimer := progressTimer s; pollInterval := pollInterval s;
     djTracks := djTracks s; pollSyncPos := pollSyncPos s;
     pollSyncAt := pollSyncAt s; pollDuration := pollDuration s;
     lastTrackId := lastTrackId s; lastPaused := lastPaused s;
     playbackCommandPending := playbackCommandPending s;
     lastPlaybackCommandTime := lastPlaybackCommandTime s;
     playTrackPending := playTrackPending s;
     lastPlayTrackTime := lastPlayTrackTime s; dom := dom s; timers := v;
     nextTimer := nextTimer s; log := log s |}.

Definition set_nextTimer (v : nat) (s : State) : State :=
  {| spotifyPlayer := spotifyPlayer s; sdkDeviceId := sdkDeviceId s;
     progressTimer := progressTimer s; pollInterval := pollInterval s;
     djTracks := djTracks s; pollSyncPos := pollSyncPos s;
     pollSyncAt := pollSyncAt s; pollDuration := pollDuration s;
     lastTrackId := lastTrackId s; lastPaused := lastPaused s;
     playbackCommandPending := playbackCommandPending s;
     lastPlaybackCommandTime := lastPlaybackCommandTime s;
     playTrackPending := playTrackPending s;
     lastPlayTrackTime := lastPlayTrackTime s; dom := dom s;
     timers := timers s; nextTimer := v; log := log s |}.

Definition set_log (v : list Effect) (s : State) : State :=
  {| spotifyPlayer := spotifyPlayer s; sdkDeviceId := sdkDeviceId s;
     progressTimer := progressTimer s; pollInterval := pollInterval s;
     djTracks := djTracks s; pollSyncPos := pollSyncPos s;
     pollSyncAt := pollSyncAt s; pollDuration := pollDuration s;
     lastTrackId := lastTrackId s; lastPaused := lastPaused s;
     playbackCommandPending := playbackCommandPending s;
     lastPlaybackCommandTime := lastPlaybackCommandTime s;
     playTrackPending := playTrackPending s;
     lastPlayTrackTime := lastPlayTrackTime s; dom := dom s;
     timers := timers s; nextTimer := nextTimer s; log := v |}.

(** ** Helpers of the renderer *)

Definition glyph_play : string := "▶".
Definition glyph_pause : string := "⏸".

(** The text both [togglePlayPause] and its rollback write:
    [lastPaused ? '▶' : '⏸']. *)
Definition affordance (paused : bool) : string :=
  if paused then glyph_play else glyph_pause.

Definition emit (e : Effect) (s : State) : State :=
  set_log (log s ++ [e]) s.

(** [clearInterval(t)]: cancels the timer with that id, if there is one; the
    variable that held the id keeps it. *)
Definition clearInterval (t : option nat) (s : State) : State :=
  match t with
  | Some i => set_timers (delete i (timers s)) s
  | None => s
  end.

(** [setInterval] and [setTimeout]: a fresh id for the new timer. *)
Definition startTimer (k : Timer) (s : State) : nat * State :=
  let i := nextTimer s in
  (i, set_nextTimer (S i) (set_timers (<[i := k]> (timers s)) s)).

(** [setStatus(msg, type)] *)
Definition setStatus (msg type : string) (s : State) : State :=
  let s := set_dom (set_status {| status_text := msg;
                                  status_className := "status " ++ type |}
                               (dom s)) s in
  if truthy msg && negb (String.eqb type "error")
  then (startTimer (StatusTimeout msg) s).2
  else s.

(** [setStatusError(msg, forceShow)] *)
Definition setStatusError (msg : string) (forceShow : bool) (s : State) : State :=
  if isTransientError msg && negb forceShow
  then emit (ConsoleWarn ("Transient error (logged only): " ++ msg)) s
  else setStatus msg "error" s.

(** [updateProgressEl(posMs, durMs)] *)
Definition updateProgressEl (posMs durMs : Z) (s : State) : State :=
  match progress (dom s) with
  | None => s
  | Some _ => set_dom (set_progress (Some (ProgressAt posMs durMs)) (dom s)) s
  end.

(** [n || 0] on a number that may be absent *)
Definition num_or_0 (n : option Z) : Z := default 0 n.

(** [track.artists?.map(a => a.name).join(', ') || ''] *)
Fixpoint join_names (l : list Artist) : string :=
  match l with
  | [] => ""
  | [a] => artist_name a
  | a :: rest => artist_name a ++ ", " ++ join_names rest
  end.

Definition artists_text (track : Item) : string :=
  match artists track with
  | Some l => join_names l
  | None => ""
  end.

(** [bpm ? `${bpm} BPM` : ''] *)
Definition bpm_text (b : option Z) : string :=
  match b with
  | Some n => if n =? 0 then "" else pretty n ++ " BPM"
  | None => ""
  end.

(** [updateBarNowPlaying(track, isPlaying, posMs, durMs, bpm)] *)
Definition updateBarNowPlaying (track : Item) (isPlaying : bool)
    (posMs durMs : Z) (b : option Z) (s : State) : State :=
  match nowPlaying (dom s) with
  | None => s
  | Some _ =>
    let d := dom s in
    let d := set_nowPlaying
               (Some (NowPlayingTrack (esc (item_name track))
                                      (esc (artists_text track)))) d in
    let d := set_barCenter ((λ _, true) <$> barCenter d) d in
    let s := updateProgressEl posMs durMs (set_dom d s) in
    let d := dom s in
    let d := set_barBpm ((λ _, bpm_text b) <$> barBpm d) d in
    let d := set_playPauseBtn
               ((λ _, {| textContent := if isPlaying then glyph_pause else glyph_play;
                         disabled := false |}) <$> playPauseBtn d) d in
    set_dom d s
  end.

(** [x === track.id] for a string [x] *)
Definition same_id (x : string) (track_id : option string) : bool :=
  match track_id with
  | Some i => String.eqb x i
  | None => false
  end.

(** The card loop of [pollPlaybackState] (lines 162-166). *)
Definition highlight_card (track_id : option string) (isPlaying : bool)
    (card : Card) : Card :=
  let this := same_id (dataset_id card) track_id in
  {| dataset_id := dataset_id card;
     playing := this;
     play_btn := (λ _, if isPlaying && this then glyph_pause else glyph_play)
                   <$> play_btn card |}.

(** [djTracks.find(t => t.id === track.id)?.bpm ?? null] *)
Definition lookup_bpm (lib : list LibTrack) (track_id : option string) : option Z :=
  match find (λ t, same_id (lib_id t) track_id) lib with
  | Some t => bpm t
  | None => None
  end.

(** ** [spotifyFetch] *)

(** The call itself: it runs up to [await getValidToken()], and the caller's
    continuation [k] waits for it. *)
Definition spotifyFetch_call (req : Request) (s : State) : State :=
  emit (Call req) s.

Definition spotifyFetch (req : Request) (k : Kont) (s : State) : State * list Task :=
  (spotifyFetch_call req s, [TFetch (AwaitToken req) k]).

(** Line 105: with a token the request goes out, without one the call
    throws. *)
Definition spotifyFetch_token (req : Request) (r : TokenReply) (s : State)
    : State * option Outcome :=
  match r with
  | TokenThrows m => (s, Some (Rejected m))
  | Token t =>
    if opt_truthy t then (emit (Http req) s, None)
    else (s, Some (Rejected "Not authenticated"))
  end.

(** [res.ok] *)
Definition res_ok (status : Z) : bool := (200 <=? status) && (status <=? 299).

(** Lines 106-117. *)
Definition spotifyFetch_http (r : HttpReply) : Outcome :=
  match r with
  | NetworkError m => Rejected m
  | Response status json =>
    if (status =? 204) || (status =? 202) then Fulfilled None
    else
      match json with
      | JsonThrows m => Rejected m
      | JsonValue data =>
        if negb (res_ok status) then
          match data with
          | Some b => Rejected (opt_or_else (error_message b)
                                            ("Spotify error " ++ pretty status))
          | None => Rejected "Cannot read properties of null (reading 'error')"
          end
        else Fulfilled data
      end
  end.

(** ** The interpolation clock and the poller *)

(** The callback of the 250 ms interval (lines 177-184). *)
Definition progressTick (now : Z) (s : State) : State :=
  let pos := pollSyncPos s + (now - pollSyncAt s) in
  if pos <=? pollDuration s
  then updateProgressEl pos (pollDuration s) s
  else clearInterval (progressTimer s) s.

Definition player_req : Request :=
  {| path := "/v1/me/player"; method := None; uris := None |}.

(** [pollPlaybackState()] up to its [await]. *)
Definition pollPlaybackState (s : State) : State * list Task :=
  spotifyFetch player_req KPoll s.

(** [pollPlaybackState] from line 143 on, and its [catch]. *)
Definition pollPlaybackState_settle (now : Z) (o : Outcome) (s : State) : State :=
  match o with
  | Rejected m =>
    if negb (includes "Not authenticated" m)
    then emit (ConsoleWarn ("Poll error: " ++ m)) s
    else s
  | Fulfilled state =>
    match state ≫= item with
    | None => clearInterval (progressTimer s) s
    | Some track =>
      let isPlaying := from_option is_playing false state in
      let posMs := num_or_0 (state ≫= progress_ms) in
      let durMs := num_or_0 (duration_ms track) in
      let s := set_pollSyncPos posMs s in
      let s := set_pollSyncAt now s in
      let s := set_pollDuration durMs s in
      let s := set_lastTrackId (item_id track) s in
      let s := set_lastPaused (negb isPlaying) s in
      let s := set_dom (set_cards (highlight_card (item_id track) isPlaying
                                     <$> cards (dom s)) (dom s)) s in
      let b := lookup_bpm (djTracks s) (item_id track) in
      let s := updateBarNowPlaying track isPlaying posMs durMs b s in
      let s := clearInterval (progressTimer s) s in
      if isPlaying then
        let '(i, s) := startTimer ProgressInterval s in
        set_progressTimer (Some i) s
      else s
    end
  end.

(** [stopPolling()] *)
Definition stopPolling (s : State) : State :=
  let s := clearInterval (pollInterval s) s in
  let s := clearInterval (progressTimer s) s in
  set_progressTimer None (set_pollInterval None s).

(** [startPolling()] *)
Definition startPolling (s : State) : State * list Task :=
  let s := stopPolling s in
  let '(s, ts) := pollPlaybackState s in
  let '(i, s) := startTimer PollInterval s in
  (set_pollInterval (Some i) s, ts).

(** ** The device resolver *)

Definition devices_req : Request :=
  {| path := "/v1/me/player/devices"; method := None; uris := None |}.

(** [getDevices()] after its [await]: [d?.devices || []] *)
Definition getDevices_result (d : option Body) : list Device :=
  default [] (d ≫= devices).

(** Lines 199-200 and 202:
    [devices.find(d => d.is_active) || devices[0]], then its id, or [null]. *)
Definition pickDevice (l : list Device) : option string :=
  match (match find is_active l with
         | Some d => Some d
         | None => head l
         end) with
  | Some active => device_id active
  | None => None
  end.

(** [getPlaybackDeviceId()] once [getDevices()] has settled: the [try] body
    on success, the [catch] on failure. *)
Definition getPlaybackDeviceId_settle (o : Outcome) (s : State)
    : State * option string :=
  match o with
  | Fulfilled d => (s, pickDevice (getDevices_result d))
  | Rejected m => (emit (ConsoleError ("getDevices failed " ++ m)) s, None)
  end.

(** What [spotifyFetch] settles to, given what the session provider and the
    service answer. *)
Definition spotifyFetch_outcome (req : Request) (tok : TokenReply)
    (http : HttpReply) (s : State) : State * Outcome :=
  match spotifyFetch_token req tok s with
  | (s, Some o) => (s, o)
  | (s, None) => (s, spotifyFetch_http http)
  end.

(** [getPlaybackDeviceId()] from call to result, given those answers. *)
Definition getPlaybackDeviceId (tok : TokenReply) (http : HttpReply)
    (s : State) : State * option string :=
  if opt_truthy (sdkDeviceId s) then (s, sdkDeviceId s)
  else
    let s := spotifyFetch_call devices_req s in
    let '(s, o) := spotifyFetch_outcome devices_req tok http s in
    getPlaybackDeviceId_settle o s.

(** ** The command dispatcher *)

(** [playTrack] from line 215 on, with the resolved device id. *)
Definition playTrack_device (trackId : string) (deviceId : option string)
    (s : State) : State * list Task :=
  if negb (opt_truthy deviceId) then
    let s := setStatus "No active Spotify device found. Open the Spotify app first."
                       "error" s in
    (set_playTrackPending false s, [])
  else
    let s := (startTimer PollTimeout s).2 in
    spotifyFetch {| path := "/v1/me/player/play?device_id=" ++ default "" deviceId;
                    method := Some "PUT";
                    uris := Some ["spotify:track:" ++ trackId] |}
                 KPlayTrackCommand s.

(** [playTrack(trackId)] up to [await getPlaybackDeviceId()]. *)
Definition playTrack (now : Z) (trackId : string) (s : State) : State * list Task :=
  if playTrackPending s then (s, [])
  else if now - lastPlayTrackTime s <? 500 then (s, [])
  else
    let s := set_playTrackPending true s in
    let s := set_lastPlayTrackTime now s in
    if opt_truthy (sdkDeviceId s)
    then (s, [TPlayTrackDevice trackId (sdkDeviceId s)])
    else spotifyFetch devices_req (KPlayTrackDevices trackId) s.

(** The [catch] and [finally] of [playTrack]. *)
Definition playTrack_settle (o : Outcome) (s : State) : State :=
  let s := match o with
           | Fulfilled _ => s
           | Rejected m => setStatusError (or_else m "Playback failed") false s
           end in
  set_playTrackPending false s.

(** [if (ppBtn) ppBtn.textContent = lastPaused ? '▶' : '⏸'] *)
Definition paint_ppBtn (ppBtn : bool) (s : State) : State :=
  if ppBtn then
    set_dom (set_playPauseBtn
               ((λ b, {| textContent := affordance (lastPaused s);
                         disabled := disabled b |}) <$> playPauseBtn (dom s))
               (dom s)) s
  else s.

Definition play_req : Request :=
  {| path := "/v1/me/player/play"; method := Some "PUT"; uris := None |}.

Definition pause_req : Request :=
  {| path := "/v1/me/player/pause"; method := Some "PUT"; uris := None |}.

(** Lines 242-252: the flag, the captured values and the optimistic update.
    The result also carries [prevPaused] and whether [ppBtn] was found. *)
Definition togglePlayPause_optimistic (s : State) : State * bool * bool :=
  let s := set_playbackCommandPending true s in
  let ppBtn := bool_decide (is_Some (playPauseBtn (dom s))) in
  let prevPaused := lastPaused s in
  let s := set_lastPaused (negb (lastPaused s)) s in
  let s := paint_ppBtn ppBtn s in
  let s := if lastPaused s then clearInterval (progressTimer s) s else s in
  (s, prevPaused, ppBtn).

(** [togglePlayPause()] up to its [await], or to its end when there is
    none. *)
Definition togglePlayPause (now : Z) (s : State) : State * list Task :=
  if playbackCommandPending s then (s, [])
  else if now - lastPlaybackCommandTime s <? 500 then (s, [])
  else
    let '(s, prevPaused, ppBtn) := togglePlayPause_optimistic s in
    let shouldPlay := prevPaused in
    if spotifyPlayer s && opt_truthy (sdkDeviceId s) then
      let s := emit SdkTogglePlay s in
      let s := set_lastPlaybackCommandTime now s in
      (set_playbackCommandPending false s, [])
    else
      spotifyFetch (if shouldPlay then play_req else pause_req)
                   (KToggle now prevPaused ppBtn) s.

(** [togglePlayPause] after its [await]: line 264, or the [catch]; then the
    [finally]. *)
Definition togglePlayPause_settle (now : Z) (prevPaused ppBtn : bool)
    (o : Outcome) (s : State) : State :=
  let s := match o with
           | Fulfilled _ => set_lastPlaybackCommandTime now s
           | Rejected m =>
             let s := set_lastPaused prevPaused s in
             let s := paint_ppBtn ppBtn s in
             setStatusError (or_else m "Playback failed") false s
           end in
  set_playbackCommandPending false s.

(** ** The event loop *)

(** The in-process player's [player_state_changed] payload. *)
Record SdkState := { current_track_id : option string; paused : bool }.

(** What resumes a suspended task. *)
Inductive Reply :=
| RToken (r : TokenReply)
| RHttp (r : HttpReply)
| RNext.                                (* an awaited value that was ready *)

Inductive Event :=
| TogglePlayPause (now : Z)
| PlayTrack (now : Z) (trackId : string)
| ClickCard (now : Z) (trackId : string)          (* lines 580-584 *)
| PollPlaybackState
| StartPolling
| StopPolling
| TimerFires (i : nat) (now : Z)
| SdkSetup                                        (* lines 280-285 *)
| SdkReady (device : string)
| SdkNotReady
| SdkStateChanged (state : option SdkState)
| SdkToggleSettled (ok : bool)                    (* togglePlay()'s promise *)
| Resume (i : nat) (now : Z) (r : Reply).

(** The continuation of an awaited [spotifyFetch], run with its outcome. *)
Definition settle (k : Kont) (now : Z) (o : Outcome) (s : State)
    : State * list Task :=
  match k with
  | KPoll => (pollPlaybackState_settle now o s, [])
  | KPlayTrackDevices trackId =>
    let '(s, deviceId) := getPlaybackDeviceId_settle o s in
    playTrack_device trackId deviceId s
  | KPlayTrackCommand => (playTrack_settle o s, [])
  | KToggle now0 prevPaused ppBtn =>
    (togglePlayPause_settle now0 prevPaused ppBtn o s, [])
  end.

(** One suspended task takes its reply.  [None]: the reply is not the one
    this task waits for. *)
Definition resume (t : Task) (now : Z) (r : Reply) (s : State)
    : option (State * list Task) :=
  match t, r with
  | TFetch (AwaitToken req) k, RToken tok =>
    match spotifyFetch_token req tok s with
    | (s, Some o) => Some (settle k now o s)
    | (s, None) => Some (s, [TFetch AwaitHttp k])
    end
  | TFetch AwaitHttp k, RHttp http => Some (settle k now (spotifyFetch_http http) s)
  | TPlayTrackDevice trackId deviceId, RNext =>
    Some (playTrack_device trackId deviceId s)
  | _, _ => None
  end.

(** A timer fires. *)
Definition timerFires (i : nat) (now : Z) (s : State) : State * list Task :=
  match timers s !! i with
  | None => (s, [])
  | Some ProgressInterval => (progressTick now s, [])
  | Some PollInterval => pollPlaybackState s
  | Some PollTimeout => pollPlaybackState (set_timers (delete i (timers s)) s)
  | Some (StatusTimeout msg) =>
    let s := set_timers (delete i (timers s)) s in
    if String.eqb (status_text (status (dom s))) msg
    then (set_dom (set_status {| status_text := "";
                                 status_className := status_className (status (dom s)) |}
                              (dom s)) s, [])
    else (s, [])
  end.

(** The [player_state_changed] listener (line 290). *)
Definition sdkStateChanged (state : option SdkState) (s : State) : State :=
  match state with
  | None => s
  | Some x =>
    let tid := if opt_truthy (current_track_id x) then current_track_id x else None in
    set_lastPaused (paused x) (set_lastTrackId tid s)
  end.

(** A handler run on the current state: new state, newly suspended tasks. *)
Definition handler (e : Event) (s : State) : State * list Task :=
  match e with
  | TogglePlayPause now => togglePlayPause now s
  | PlayTrack now trackId => playTrack now trackId s
  | ClickCard now trackId =>
    let isThisPlaying := same_id trackId (lastTrackId s) && negb (lastPaused s) in
    if isThisPlaying then togglePlayPause now s else playTrack now trackId s
  | PollPlaybackState => pollPlaybackState s
  | StartPolling => startPolling s
  | StopPolling => (stopPolling s, [])
  | TimerFires i now => timerFires i now s
  | SdkSetup => (set_spotifyPlayer true s, [])
  | SdkReady device => (setStatus "In-app player ready" "ok"
                          (set_sdkDeviceId (Some device) s), [])
  | SdkNotReady => (set_sdkDeviceId None s, [])
  | SdkStateChanged state => (sdkStateChanged state s, [])
  | SdkToggleSettled _ => (s, [])
  | Resume _ _ _ => (s, [])
  end.

(** One turn of the event loop. *)
Definition step (e : Event) (y : Sys) : Sys :=
  match e with
  | Resume i now r =>
    match tasks y !! i with
    | None => y
    | Some t =>
      match resume t now r (st y) with
      | None => y
      | Some (s, new) => {| st := s; tasks := delete i (tasks y) ++ new |}
      end
    end
  | _ =>
    let '(s, new) := handler e (st y) in
    {| st := s; tasks := tasks y ++ new |}
  end.

(** A run of the event loop, first event first. *)
Definition run (es : list Event) (y : Sys) : Sys := foldl (flip step) y es.

(** ** Start of the renderer *)

(** The variables as initialised at lines 3-23, over a given page and
    library mirror. *)
Definition boot (d : Dom) (lib : list LibTrack) : Sys :=
  {| st := {| spotifyPlayer := false; sdkDeviceId := None;
              progressTimer := None; pollInterval := None;
              djTracks := lib;
              pollSyncPos := 0; pollSyncAt := 0; pollDuration := 0;
              lastTrackId := None; lastPaused := true;
              playbackCommandPending := false; lastPlaybackCommandTime := 0;
              playTrackPending := false; lastPlayTrackTime := 0;
              dom := d; timers := ∅; nextTimer := 1; log := [] |};
     tasks := [] |}.

(** The page after [renderBarLoggedIn], with the given track cards. *)
Definition page_logged_in (cs : list Card) : Dom :=
  {| nowPlaying := Some NowPlayingIdle;
     barCenter := Some false;
     barBpm := Some "";
     playPauseBtn := Some {| textContent := glyph_play; disabled := true |};
     progress := Some ProgressBlank;
     cards := cs;
     status := {| status_text := ""; status_className := "status" |} |}.

(** The page after [renderBarLoggedOut]: no playback bar. *)
Definition page_logged_out (cs : list Card) : Dom :=
  {| nowPlaying := None; barCenter := None; barBpm := None;
     playPauseBtn := None; progress := None;
     cards := cs;
     status := {| status_text := ""; status_className := "status" |} |}.

(** ** Observations used by the properties *)

(** The interpolation clock is not running: no live timer is the 250 ms
    interval. *)
Definition clock_stopped (s : State) : Prop :=
  map_Forall (λ _ k, k ≠ ProgressInterval) (timers s).

(** Only the timer whose id [progressTimer] holds can be the clock. *)
Definition clock_inv (s : State) : Prop :=
  ∀ i, timers s !! i = Some ProgressInterval → progressTimer s = Some i.

Definition is_toggle_task (t : Task) : bool :=
  match t with
  | TFetch _ (KToggle _ _ _) => true
  | _ => false
  end.

(** The [togglePlayPause] calls suspended at their [await]. *)
Definition toggles_in_flight (y : Sys) : list Task :=
  filter (λ t, is_toggle_task t = true) (tasks y).

(** A play or pause command of [togglePlayPause] (lines 259 and 261). *)
Definition is_toggle_command (e : Effect) : bool :=
  match e with
  | Call req => String.eqb (path req) (path play_req)
                || String.eqb (path req) (path pause_req)
  | _ => false
  end.

Definition toggle_commands (l : list Effect) : nat :=
  length (filter (λ e, is_toggle_command e = true) l).

(** The flag guards exactly the one suspended call. *)
Definition mutex_inv (y : Sys) : Prop :=
  length (toggles_in_flight y) = if playbackCommandPending (st y) then 1%nat else 0%nat.

(** [playbackCommandPending] stays set at every point of a run. *)
Fixpoint pending_throughout (es : list Event) (y : Sys) : Prop :=
  playbackCommandPending (st y) = true ∧
  match es with
  | [] => True
  | e :: rest => pending_throughout rest (step e y)
  end.

(** What [setStatus(msg, 'error')] shows. *)
Definition shows_error (msg : string) (s : State) : Prop :=
  status (dom s) = {| status_text := msg; status_className := "status error" |}.

(** ** Frames: what a piece of code leaves alone *)

(** [document.getElementById('playPauseBtn')] finds the button. *)
Definition has_ppBtn (s : State) : bool :=
  bool_decide (is_Some (playPauseBtn (dom s))).

Definition keeps_toggle (s s' : State) : Prop :=
  playbackCommandPending s' = playbackCommandPending s ∧
  lastPlaybackCommandTime s' = lastPlaybackCommandTime s.

Definition keeps_playTrack (s s' : State) : Prop :=
  playTrackPending s' = playTrackPending s ∧
  lastPlayTrackTime s' = lastPlayTrackTime s.

Definition keeps_btn (s s' : State) : Prop := has_ppBtn s' = has_ppBtn s.

(** The clock is not started, and [progressTimer] is not reassigned. *)
Definition quiet (s s' : State) : Prop :=
  progressTimer s' = progressTimer s ∧
  ∀ i, timers s' !! i = Some ProgressInterval →
       timers s !! i = Some ProgressInterval.

(** No play or pause command of [togglePlayPause] is issued. *)
Definition keeps_commands (s s' : State) : Prop :=
  toggle_commands (log s') = toggle_commands (log s).

Definition benign (s s' : State) : Prop :=
  keeps_commands s s' ∧ keeps_toggle s s' ∧ keeps_playTrack s s' ∧
  keeps_btn s s' ∧ quiet s s'.

(** No [togglePlayPause] call among newly suspended tasks. *)
Definition toggle_free (new : list Task) : Prop :=
  filter (λ t, is_toggle_task t = true) new = [].

(** The handlers that reassign [progressTimer]. *)
Definition restarts_polling (e : Event) : bool :=
  match e with StartPolling | StopPolling => true | _ => false end.

(** The one suspended [togglePlayPause] call is the one that continues with
    [k]. *)
Definition in_flight (k : Kont) (y : Sys) : Prop :=
  ∃ stage, toggles_in_flight y = [TFetch stage k].

(** The outcome with which a waiting [spotifyFetch] settles on reply [r], if
    it settles on it at all. *)
Definition settles (stage : FetchStage) (r : Reply) (s : State) : option Outcome :=
  match stage, r with
  | AwaitToken req, RToken tok => (spotifyFetch_token req tok s).2
  | AwaitHttp, RHttp http => Some (spotifyFetch_http http)
  | _, _ => None
  end.

(** A page with the playback bar and no track cards, right after start. *)
Definition fresh : Sys := boot (page_logged_in []) [].

Definition some_token : Reply := RToken (Token (Some "BQD-token")).

(** A body that carries only an error message. *)
Definition error_body (m : string) : Body :=
  {| error_message := Some m; devices := None; item := None;
     is_playing := false; progress_ms := None |}.

(** A player snapshot. *)
Definition snapshot (tid : string) (playing_now : bool) (pos dur : Z) : Body :=
  {| error_message := None; devices := None;
     item := Some {| item_id := Some tid; item_name := "Sing, Sing, Sing";
                     artists := Some [ {| artist_name := "Benny Goodman" |} ];
                     duration_ms := Some dur |};
     is_playing := playing_now; progress_ms := Some pos |}.

(** The same for a suspended task. *)
Definition task_settles (t : Task) (r : Reply) (s : State) : option Outcome :=
  match t with
  | TFetch stage _ => settles stage r s
  | TPlayTrackDevice _ _ => None
  end.

(** The message [togglePlayPause] and [playTrack] hand to [setStatusError]:
    [err.message || 'Playback failed']. *)
Definition failure_text (m : string) : string := or_else m "Playback failed".

(** The run used against C2: a remote play command that the service refuses
    with a message [isTransientError] matches. *)
Definition refused_play : list Event :=
  [ TogglePlayPause 1000;
    Resume 0 1001 some_token;
    Resume 0 1200 (RHttp (Response 403 (JsonValue (Some
      (error_body "Player command failed: Restriction violated"))))) ].

(** A run in which the in-app player reports a pause that the page has not
    painted yet, before a remote play command fails. *)
Definition stale_button : list Event :=
  [ SdkSetup;
    PollPlaybackState;
    Resume 0 10 some_token;
    Resume 0 20 (RHttp (Response 200 (JsonValue (Some (snapshot "abc" true 5000 200000)))));
    SdkStateChanged (Some {| current_track_id := Some "abc"; paused := true |}) ].

Definition stale_button_failure : list Event :=
  [ TogglePlayPause 5000;
    Resume 0 5001 some_token;
    Resume 0 5200 (RHttp (Response 502 (JsonValue (Some (error_body "Bad gateway"))))) ].

(** A run that leaves the clock running: one poll that finds a track
    playing. *)
Definition playing_poll (pos dur : Z) (sampledAt : Z) : list Event :=
  [ PollPlaybackState;
    Resume 0 (sampledAt - 10) some_token;
    Resume 0 sampledAt
      (RHttp (Response 200 (JsonValue (Some (snapshot "abc" true pos dur))))) ].

(** The run used against C4: [playTrack("X")] at time 1000 on a page with an
    in-app session; the play command is answered (204) at time 1450. *)
Definition slow_playTrack : list Event :=
  [ SdkSetup; SdkReady "device-1";
    PlayTrack 1000 "X";
    Resume 0 1000 RNext;
    Resume 0 1001 some_token;
    Resume 0 1450 (RHttp (Response 204 (JsonThrows "Unexpected end of JSON input"))) ].

(** The same with a prompt answer, at time 1030. *)
Definition prompt_playTrack : list Event :=
  [ SdkSetup; SdkReady "device-1";
    PlayTrack 1000 "X";
    Resume 0 1000 RNext;
    Resume 0 1001 some_token;
    Resume 0 1030 (RHttp (Response 204 (JsonThrows "Unexpected end of JSON input"))) ].

(** A body that carries only a device list. *)
Definition devices_body (l : list Device) : Body :=
  {| error_message := None; devices := Some l; item := None;
     is_playing := false; progress_ms := None |}.

Definition no_device_text : string :=
  "No active Spotify device found. Open the Spotify app first.".

(** ** Formatting helpers (lines 27-42) *)

(** [Number.MAX_SAFE_INTEGER]: up to it every integer is a double, and the
    divisions and [Math.floor] of lines 29 and 35 give the integer quotient;
    beyond it the code rounds, and prints a minute count of 1e21 or more in
    exponent form.  The helpers below are the code's on safe integers. *)
Definition MAX_SAFE_INTEGER : Z := 9007199254740991.

Definition safe_integer (n : Z) : Prop :=
  - MAX_SAFE_INTEGER <= n <= MAX_SAFE_INTEGER.

(** [s.padStart(n, fill)] for a one-character [fill] *)
Definition padStart (n : nat) (fill : ascii) (s : string) : string :=
  Nat.iter (n - String.length s) (String fill) s.

(** [fmtDuration(secs)], on integers: [Math.floor(secs / 60)] rounds down and
    [secs % 60] keeps the sign of [secs]. *)
Definition fmtDuration (secs : Z) : string :=
  if secs =? 0 then "--:--"
  else
    let m := secs / 60 in
    let s := padStart 2 "0" (pretty (Z.rem secs 60)) in
    pretty m ++ ":" ++ s.

(** [fmtMs(ms)] *)
Definition fmtMs (ms : Z) : string := fmtDuration (ms / 1000).

(** [fmtMsRemaining(posMs, durMs)] *)
Definition fmtMsRemaining (posMs durMs : Z) : string :=
  if durMs =? 0 then ""
  else
    let rem := Z.max 0 (durMs - posMs) in
    "-" ++ fmtMs rem.

(** What [updateProgressEl] writes into [#progressCurrent] and
    [#progressRemaining] (lines 369-370). *)
Definition progressCurrent (p : Progress) : string :=
  match p with
  | ProgressBlank => "0:00"
  | ProgressAt posMs durMs => fmtMs posMs
  end.

Definition progressRemaining (p : Progress) : string :=
  match p with
  | ProgressBlank => ""
  | ProgressAt posMs durMs =>
    if durMs =? 0 then "" else fmtMsRemaining posMs durMs
  end.

(** Two decimal digits, for stating what the seconds field looks like. *)
Definition two_digits (n : Z) : string :=
  pretty (n / 10) ++ pretty (n mod 10).

(** The characters [esc] replaces. *)
Definition is_html_special (c : ascii) : bool :=
  Ascii.eqb c "&" || Ascii.eqb c "<" || Ascii.eqb c ">"
  || Ascii.eqb c (ascii_of_nat 34).

Fixpoint string_forall (P : ascii → bool) (s : string) : bool :=
  match s with
  | EmptyString => true
  | String c rest => P c && string_forall P rest
  end.

(** The [spotifyFetch] calls and HTTP requests among the effects. *)
Definition is_request (e : Effect) : bool :=
  match e with
  | Call _ | Http _ => true
  | _ => false
  end.

Definition requests (l : list Effect) : list Effect :=
  filter (λ e, is_request e = true) l.

(** A token reply that carries no usable token. *)
Definition no_token (tok : TokenReply) : bool :=
  match tok with
  | Token t => negb (opt_truthy t)
  | TokenThrows _ => false
  end.

(** ** The guard of [playTrack] *)

Definition is_playTrack_task (t : Task) : bool :=
  match t with
  | TFetch _ (KPlayTrackDevices _) => true
  | TFetch _ KPlayTrackCommand => true
  | TPlayTrackDevice _ _ => true
  | _ => false
  end.

(** The [playTrack] calls suspended at one of their [await]s. *)
Definition playTracks_in_flight (y : Sys) : list Task :=
  filter (λ t, is_playTrack_task t = true) (tasks y).

(** [playTrackPending] is set exactly while one [playTrack] call is
    suspended. *)
Definition playTrack_inv (y : Sys) : Prop :=
  length (playTracks_in_flight y) = if playTrackPending (st y) then 1%nat else 0%nat.

Definition playTrack_free (new : list Task) : Prop :=
  filter (λ t, is_playTrack_task t = true) new = [].

(** The play command of [playTrack] (lines 225-228). *)
Definition playTrack_req (deviceId trackId : string) : Request :=
  {| path := "/v1/me/player/play?device_id=" ++ deviceId;
     method := Some "PUT";
     uris := Some ["spotify:track:" ++ trackId] |}.

(** ** [getValidToken] (lines 92-101) *)

(** The variables [accessToken] and [tokenExpiry]. *)
Record TokenCache := {
  accessToken : option string;
  tokenExpiry : option Z
}.

(** What [window.api.refreshToken()] resolves to, as the fields
    [getValidToken] reads. *)
Record RefreshResult := {
  result_accessToken : option string;
  result_tokenExpiry : option Z
}.

(** A number that may be absent is truthy when it is there and not 0. *)
Definition num_truthy (n : option Z) : bool :=
  match n with
  | Some x => negb (x =? 0)
  | None => false
  end.

(** The test of line 93:
    [accessToken && tokenExpiry && tokenExpiry - Date.now() > 3 * 60 * 1000] *)
Definition token_fresh (now : Z) (c : TokenCache) : bool :=
  opt_truthy (accessToken c) && num_truthy (tokenExpiry c)
  && (3 * 60 * 1000 <? default 0 (tokenExpiry c) - now).

(** Lines 95-100, with the result of the refresh. *)
Definition getValidToken_refreshed (result : RefreshResult) (c : TokenCache)
    : TokenCache * option string :=
  if opt_truthy (result_accessToken result)
  then ({| accessToken := result_accessToken result;
           tokenExpiry := result_tokenExpiry result |},
        result_accessToken result)
  else (c, None).

(** [getValidToken()] from call to result: the cache afterwards, the token
    or [null], and whether [refreshToken] was asked.  [result] is what the
    refresh resolves to if it is asked. *)
Definition getValidToken (now : Z) (result : RefreshResult) (c : TokenCache)
    : TokenCache * option string * bool :=
  if token_fresh now c then (c, accessToken c, false)
  else
    let '(c', t) := getValidToken_refreshed result c in
    (c', t, true).

(** ** The poller's interval *)

(** Only the timer whose id [pollInterval] holds can be the poller. *)
Definition poller_inv (s : State) : Prop :=
  ∀ i, timers s !! i = Some PollInterval → pollInterval s = Some i.

(** No poller is started, and [pollInterval] is not reassigned. *)
Definition poller_quiet (s s' : State) : Prop :=
  pollInterval s' = pollInterval s ∧
  ∀ i, timers s' !! i = Some PollInterval → timers s !! i = Some PollInterval.

(** ** Requests that leave the renderer *)

(** The paths of the play and pause commands of [togglePlayPause]. *)
Definition is_toggle_path (req : Request) : bool :=
  String.eqb (path req) (path play_req) || String.eqb (path req) (path pause_req).

(** A play or pause request for which [fetch] was performed (line 106). *)
Definition is_toggle_request (e : Effect) : bool :=
  match e with
  | Http req => is_toggle_path req
  | _ => false
  end.

(** The play and pause requests that have left the renderer, oldest
    first. *)
Definition toggle_requests (l : list Effect) : list Effect :=
  filter (λ e, is_toggle_request e = true) l.

(** No play or pause request leaves the renderer. *)
Definition keeps_requests (s s' : State) : Prop :=
  toggle_requests (log s') = toggle_requests (log s).

(** A suspended call that will send a play or pause request once it has its
    token. *)
Definition sends_toggle (t : Task) : bool :=
  match t with
  | TFetch (AwaitToken req) _ => is_toggle_path req
  | _ => false
  end.

(** Only a [togglePlayPause] call waits to send a play or pause request. *)
Definition requests_inv (y : Sys) : Prop :=
  ∀ t, t ∈ tasks y → sends_toggle t = true → is_toggle_task t = true.

(** A reply of the session provider that carries a token [spotifyFetch]
    accepts (line 105). *)
Definition token_usable (tok : TokenReply) : bool :=
  match tok with
  | Token t => opt_truthy t
  | TokenThrows _ => false
  end.

(** How far the one suspended [togglePlayPause] call has got: it waits for
    its token and has sent nothing, or it waits for the answer to the one
    request it has sent.  [sent0] are the play and pause requests sent before
    the call. *)
Definition toggle_progress (k : Kont) (req : Request) (sent0 : list Effect)
    (y : Sys) : Prop :=
  (toggles_in_flight y = [TFetch (AwaitToken req) k] ∧
   toggle_requests (log (st y)) = sent0) ∨
  (toggles_in_flight y = [TFetch AwaitHttp k] ∧
   toggle_requests (log (st y)) = (sent0 ++ [Http req])%list).

(** The play and pause requests sent once a [togglePlayPause] call that sent
    [req] has settled from [stage]. *)
Definition sent_after (stage : FetchStage) (req : Request)
    (sent0 : list Effect) : list Effect :=
  match stage with
  | AwaitToken _ => sent0
  | AwaitHttp => (sent0 ++ [Http req])%list
  end.

(** The run used against C1: a second click 10 ms after the first, while the
    session provider has no token to give. *)
Definition double_click_no_token : list Event :=
  [ TogglePlayPause 1000;
    TogglePlayPause 1010;
    Resume 0 1011 (RToken (Token None)) ].

(** A run that leaves the button behind the paused belief: the poll paints a
    paused track, then the in-app player reports that it plays, which
    [player_state_changed] records without repainting; the in-app session
    then goes away. *)
Definition stale_pause_button : list Event :=
  [ SdkSetup; SdkReady "device-1";
    PollPlaybackState;
    Resume 0 10 some_token;
    Resume 0 20 (RHttp (Response 200 (JsonValue (Some (snapshot "abc" false 5000 200000)))));
    SdkStateChanged (Some {| current_track_id := Some "abc"; paused := false |});
    SdkNotReady ].

(** A remote pause command that the service answers with a server error. *)
Definition failed_pause : list Event :=
  [ TogglePlayPause 5000;
    Resume 0 5001 some_token;
    Resume 0 5200 (RHttp (Response 502 (JsonValue (Some (error_body "Bad gateway"))))) ].

(** ** What the formatting helpers show *)

(** The seconds field, [String(secs % 60).padStart(2, '0')], for a
    remainder that keeps the sign of the position: two digits, or the signed
    number when it is negative. *)
Definition seconds_field (r : Z) : string :=
  if r <? 0 then pretty r else two_digits r.
(** * Properties *)

(** ** Lists of suspended tasks *)

Section ListFacts.
Context {A : Type} (P : A → Prop) `{!∀ x, Decision (P x)}.

Lemma delete_take_drop (l : list A) (i : nat) :
  delete i l = (take i l ++ drop (S i) l)%list.
Proof.
  revert i. induction l as [|x l IH]; intros [|i]; simpl; try done.
  by rewrite IH.
Qed.

Lemma filter_split_at (l : list A) (i : nat) (x : A) :
  l !! i = Some x →
  filter P l = (filter P (take i l) ++ (if decide (P x) then [x] else [])
                  ++ filter P (drop (S i) l))%list.
Proof.
  intros Hi. rewrite <- (take_drop_middle l i x Hi) at 1.
  rewrite filter_app, filter_cons. by destruct (decide (P x)).
Qed.

Lemma filter_delete_split (l : list A) (i : nat) :
  filter P (delete i l) = (filter P (take i l) ++ filter P (drop (S i) l))%list.
Proof. by rewrite delete_take_drop, filter_app. Qed.

(** Removing an element that fails [P] does not change the filter. *)
Lemma filter_delete_other (l : list A) (i : nat) (x : A) :
  l !! i = Some x → ¬ P x → filter P (delete i l) = filter P l.
Proof.
  intros Hi Hx. rewrite filter_delete_split, (filter_split_at l i x Hi).
  by destruct (decide (P x)).
Qed.

(** Removing the only element that passes [P] empties the filter. *)
Lemma filter_delete_only (l : list A) (i : nat) (x z : A) :
  l !! i = Some x → P x → filter P l = [z] →
  x = z ∧ filter P (delete i l) = [].
Proof.
  intros Hi Hx Hl. rewrite filter_delete_split.
  rewrite (filter_split_at l i x Hi) in Hl.
  destruct (decide (P x)); [|done].
  destruct (filter P (take i l)) as [|a [|]]; simpl in Hl.
  - destruct (filter P (drop (S i) l)); by simplify_eq.
  - destruct (filter P (drop (S i) l)); simplify_eq.
  - simplify_eq.
Qed.
End ListFacts.

(** ** Frame lemmas *)

Lemma quiet_refl s : quiet s s.
Proof. by split. Qed.

Lemma quiet_trans s1 s2 s3 : quiet s1 s2 → quiet s2 s3 → quiet s1 s3.
Proof. intros [? ?] [? ?]. split; [congruence | eauto]. Qed.

Lemma benign_refl s : benign s s.
Proof. repeat split; done. Qed.

Lemma benign_trans s1 s2 s3 : benign s1 s2 → benign s2 s3 → benign s1 s3.
Proof.
  unfold benign, keeps_commands, keeps_toggle, keeps_playTrack, keeps_btn.
  intros (?&[? ?]&[? ?]&?&?) (?&[? ?]&[? ?]&?&?).
  split_and!; try congruence. by eapply quiet_trans.
Qed.

(** A state that differs only in fields no frame looks at. *)
Lemma benign_fields s s' :
  log s' = log s →
  playbackCommandPending s' = playbackCommandPending s →
  lastPlaybackCommandTime s' = lastPlaybackCommandTime s →
  playTrackPending s' = playTrackPending s →
  lastPlayTrackTime s' = lastPlayTrackTime s →
  has_ppBtn s' = has_ppBtn s →
  progressTimer s' = progressTimer s →
  timers s' = timers s →
  benign s s'.
Proof.
  intros Hl. intros.
  unfold benign, keeps_commands, keeps_toggle, keeps_playTrack, keeps_btn, quiet.
  split_and!; try done; [by rewrite Hl|]. intros i. congruence.
Qed.

Lemma toggle_commands_snoc l e :
  toggle_commands (l ++ [e]) =
  (toggle_commands l + if is_toggle_command e then 1 else 0)%nat.
Proof.
  unfold toggle_commands. rewrite filter_app, length_app, filter_cons.
  by destruct (is_toggle_command e).
Qed.

Lemma benign_emit e s : is_toggle_command e = false → benign s (emit e s).
Proof.
  intros He. repeat split; try done. unfold keeps_commands. simpl.
  rewrite toggle_commands_snoc, He. lia.
Qed.

Lemma benign_clearInterval t s : benign s (clearInterval t s).
Proof.
  destruct t as [i|]; [|apply benign_refl].
  repeat split; try done. simpl. intros j Hj.
  by apply lookup_delete_Some in Hj as [_ ?].
Qed.

Lemma benign_startTimer k s :
  k ≠ ProgressInterval → benign s (startTimer k s).2.
Proof.
  intros Hk. repeat split; try done. simpl. intros j Hj.
  apply lookup_insert_Some in Hj as [[_ ?]|[_ ?]]; [congruence|done].
Qed.

Lemma benign_setStatus msg type s : benign s (setStatus msg type s).
Proof.
  unfold setStatus. case_match.
  - eapply benign_trans; [|by apply benign_startTimer]. by apply benign_fields.
  - by apply benign_fields.
Qed.

Lemma benign_setStatusError msg force s : benign s (setStatusError msg force s).
Proof.
  unfold setStatusError. case_match; [by apply benign_emit|apply benign_setStatus].
Qed.

Lemma benign_updateProgressEl p d s : benign s (updateProgressEl p d s).
Proof.
  unfold updateProgressEl. case_match; [|apply benign_refl]. by apply benign_fields.
Qed.

Lemma has_ppBtn_fmap (f : Button → Button) (o : option Button) :
  bool_decide (is_Some (f <$> o)) = bool_decide (is_Some o).
Proof. apply bool_decide_ext. by rewrite fmap_is_Some. Qed.

Lemma benign_paint_ppBtn b s : benign s (paint_ppBtn b s).
Proof.
  unfold paint_ppBtn. destruct b; [|apply benign_refl].
  apply benign_fields; try done. apply has_ppBtn_fmap.
Qed.

Lemma benign_updateBarNowPlaying track isPlaying p d b s :
  benign s (updateBarNowPlaying track isPlaying p d b s).
Proof.
  unfold updateBarNowPlaying. case_match; [|apply benign_refl].
  unfold updateProgressEl. simpl.
  destruct (progress (dom s));
    (apply benign_fields; try done; unfold has_ppBtn; simpl;
     apply has_ppBtn_fmap).
Qed.

Lemma benign_spotifyFetch_call req s :
  is_toggle_command (Call req) = false → benign s (spotifyFetch_call req s).
Proof. apply benign_emit. Qed.

(** *** The poller and the clock *)

Lemma benign_progressTick now s : benign s (progressTick now s).
Proof.
  unfold progressTick. case_match;
    [apply benign_updateProgressEl | apply benign_clearInterval].
Qed.

Lemma benign_pollPlaybackState s : benign s (pollPlaybackState s).1.
Proof. by apply benign_emit. Qed.

Lemma pollPlaybackState_tasks s :
  (pollPlaybackState s).2 = [TFetch (AwaitToken player_req) KPoll].
Proof. done. Qed.

(** What the poll writes before it touches the clock (lines 155-172). *)
Lemma benign_poll_snapshot track isPlaying posMs durMs now s :
  benign s
    (updateBarNowPlaying track isPlaying posMs durMs
       (lookup_bpm (djTracks s) (item_id track))
       (set_dom (set_cards (highlight_card (item_id track) isPlaying
                              <$> cards (dom s)) (dom s))
          (set_lastPaused (negb isPlaying)
             (set_lastTrackId (item_id track)
                (set_pollDuration durMs
                   (set_pollSyncAt now (set_pollSyncPos posMs s))))))).
Proof.
  eapply benign_trans; [|apply benign_updateBarNowPlaying].
  by apply benign_fields.
Qed.

Lemma benign_commands s s' :
  benign s s' →
  keeps_commands s s' ∧ keeps_toggle s s' ∧ keeps_playTrack s s' ∧ keeps_btn s s'.
Proof. by intros (?&?&?&?&_). Qed.

Lemma pollPlaybackState_settle_frame now o s :
  let s' := pollPlaybackState_settle now o s in
  keeps_commands s s' ∧ keeps_toggle s s' ∧ keeps_playTrack s s' ∧ keeps_btn s s'.
Proof.
  unfold pollPlaybackState_settle.
  destruct o as [state|m];
    [|apply benign_commands; case_match; [by apply benign_emit|apply benign_refl]].
  destruct (state ≫= item) as [track|];
    [|apply benign_commands, benign_clearInterval].
  set (isPlaying := from_option is_playing false state).
  set (posMs := num_or_0 (state ≫= progress_ms)).
  set (durMs := num_or_0 (duration_ms track)).
  pose proof (benign_poll_snapshot track isPlaying posMs durMs now s) as Hb.
  cbv zeta.
  match goal with |- context [clearInterval ?t ?x] =>
    pose proof (benign_clearInterval t x) as Hc end.
  pose proof (benign_trans _ _ _ Hb Hc) as (?&[? ?]&[? ?]&?&_).
  destruct isPlaying; simpl; by repeat split.
Qed.

(** A poll that does not start the clock is quiet. *)
Lemma pollPlaybackState_settle_quiet now o s :
  (∀ state track, o = Fulfilled state → state ≫= item = Some track →
                  from_option is_playing false state = false) →
  quiet s (pollPlaybackState_settle now o s).
Proof.
  intros Hnp. unfold pollPlaybackState_settle.
  destruct o as [state|m];
    [|case_match; [by apply benign_emit|apply benign_refl]].
  destruct (state ≫= item) as [track|] eqn:Hi; [|apply benign_clearInterval].
  rewrite (Hnp state track eq_refl Hi). cbv zeta.
  pose proof (benign_poll_snapshot track false (num_or_0 (state ≫= progress_ms))
                (num_or_0 (duration_ms track)) now s) as Hb.
  match goal with |- context [clearInterval ?t ?x] =>
    pose proof (benign_clearInterval t x) as Hc end.
  apply (benign_trans _ _ _ Hb Hc).
Qed.

Lemma clock_inv_quiet s s' : quiet s s' → clock_inv s → clock_inv s'.
Proof. intros [Ht Hq] Hinv i Hi. rewrite Ht. by apply Hinv, Hq. Qed.

Lemma clock_inv_benign s s' : benign s s' → clock_inv s → clock_inv s'.
Proof. intros (_&_&_&_&?). by apply clock_inv_quiet. Qed.

Lemma clock_stopped_quiet s s' : quiet s s' → clock_stopped s → clock_stopped s'.
Proof.
  intros [_ Hq] Hs i k Hi ->. by apply (Hs i ProgressInterval); [apply Hq|].
Qed.

(** Clearing [progressTimer] stops the clock, as it is the only timer that
    can be the clock. *)
Lemma clock_stopped_clear s :
  clock_inv s → clock_stopped (clearInterval (progressTimer s) s).
Proof.
  intros Hinv i k Hi ->. unfold clearInterval in Hi.
  destruct (progressTimer s) as [j|] eqn:Hj; simpl in Hi.
  - apply lookup_delete_Some in Hi as [Hne Hi].
    apply Hinv in Hi. congruence.
  - apply Hinv in Hi. congruence.
Qed.

(** Starting the clock right after clearing it keeps the invariant. *)
Lemma clock_inv_restart s :
  let '(i, s1) := startTimer ProgressInterval (clearInterval (progressTimer s) s) in
  clock_inv s → clock_inv (set_progressTimer (Some i) s1).
Proof.
  simpl. intros Hinv i Hi. simpl in *.
  apply lookup_insert_Some in Hi as [[-> _]|[Hne Hi]].
  - by destruct (progressTimer s).
  - exfalso. pose proof (clock_stopped_clear s Hinv i ProgressInterval) as Hs.
    apply Hs; [|done].
    destruct (progressTimer s); simpl in *; done.
Qed.

Lemma clock_inv_pollPlaybackState_settle now o s :
  clock_inv s → clock_inv (pollPlaybackState_settle now o s).
Proof.
  intros Hinv. unfold pollPlaybackState_settle.
  destruct o as [state|m];
    [|case_match; [by eapply clock_inv_benign, Hinv; apply benign_emit|done]].
  destruct (state ≫= item) as [track|];
    [|by eapply clock_inv_benign, Hinv; apply benign_clearInterval].
  set (isPlaying := from_option is_playing false state).
  set (posMs := num_or_0 (state ≫= progress_ms)).
  set (durMs := num_or_0 (duration_ms track)).
  pose proof (benign_poll_snapshot track isPlaying posMs durMs now s) as Hb.
  apply clock_inv_benign in Hb; [|done]. cbv zeta.
  match type of Hb with clock_inv ?x => set (s1 := x) in * end.
  destruct isPlaying.
  - apply (clock_inv_restart s1 Hb).
  - by eapply clock_inv_benign, Hb; apply benign_clearInterval.
Qed.

Lemma stopPolling_frame s :
  keeps_commands s (stopPolling s) ∧ keeps_toggle s (stopPolling s) ∧
  keeps_playTrack s (stopPolling s) ∧ keeps_btn s (stopPolling s).
Proof.
  unfold stopPolling.
  pose proof (benign_clearInterval (pollInterval s) s) as H1.
  pose proof (benign_clearInterval
                (progressTimer (clearInterval (pollInterval s) s))
                (clearInterval (pollInterval s) s)) as H2.
  pose proof (benign_trans _ _ _ H1 H2) as (?&[? ?]&[? ?]&?&_).
  by repeat split.
Qed.

(** [stopPolling] leaves no clock behind. *)
Lemma clock_stopped_stopPolling s : clock_inv s → clock_stopped (stopPolling s).
Proof.
  intros Hinv. unfold stopPolling.
  pose proof (benign_clearInterval (pollInterval s) s) as H1.
  apply clock_inv_benign in H1; [|done].
  apply clock_stopped_clear in H1. exact H1.
Qed.

Lemma clock_inv_stopped s : clock_stopped s → clock_inv s.
Proof. intros Hs i Hi. by destruct (Hs i ProgressInterval Hi). Qed.

Lemma clock_inv_stopPolling s : clock_inv s → clock_inv (stopPolling s).
Proof. intros. by apply clock_inv_stopped, clock_stopped_stopPolling. Qed.

Lemma startPolling_eq s :
  startPolling s =
  (set_pollInterval (Some (nextTimer (stopPolling s)))
     (startTimer PollInterval (pollPlaybackState (stopPolling s)).1).2,
   [TFetch (AwaitToken player_req) KPoll]).
Proof. done. Qed.

Lemma startPolling_frame s :
  let s' := (startPolling s).1 in
  keeps_commands s s' ∧ keeps_toggle s s' ∧ keeps_playTrack s s' ∧ keeps_btn s s'.
Proof.
  rewrite startPolling_eq. cbn [fst].
  destruct (stopPolling_frame s) as (Hc&[? ?]&[? ?]&?).
  repeat split; try done.
  unfold keeps_commands in *.
  transitivity (toggle_commands (log (stopPolling s) ++ [Call player_req])%list);
    [done|by rewrite toggle_commands_snoc, Hc, Nat.add_0_r].
Qed.

Lemma clock_stopped_startPolling s :
  clock_inv s → clock_stopped (startPolling s).1.
Proof.
  intros Hinv. rewrite startPolling_eq. cbn [fst].
  pose proof (clock_stopped_stopPolling s Hinv) as Hs.
  intros i k Hi ->. simpl in Hi.
  apply lookup_insert_Some in Hi as [[_ ?]|[_ Hi]]; [done|].
  by apply (Hs i ProgressInterval).
Qed.

(** *** The dispatcher *)

Lemma playTrack_device_frame trackId deviceId s :
  let s' := (playTrack_device trackId deviceId s).1 in
  keeps_commands s s' ∧ keeps_toggle s s' ∧ keeps_btn s s' ∧ quiet s s' ∧
  lastPlayTrackTime s' = lastPlayTrackTime s.
Proof.
  unfold playTrack_device, spotifyFetch. case_match; cbn [fst].
  - pose proof (benign_setStatus
      "No active Spotify device found. Open the Spotify app first." "error" s)
      as (?&[? ?]&[? ?]&?&[? ?]).
    by repeat split.
  - match goal with |- context [spotifyFetch_call ?r (startTimer ?k s).2] =>
      pose proof (benign_trans _ _ _ (benign_startTimer k s ltac:(done))
                    (benign_spotifyFetch_call r _ eq_refl)) as (?&?&[? ?]&?&?) end.
    by split_and!.
Qed.

Lemma playTrack_device_tasks trackId deviceId s :
  filter (λ t, is_toggle_task t = true) (playTrack_device trackId deviceId s).2 = [].
Proof. unfold playTrack_device. by case_match. Qed.

Lemma playTrack_frame now trackId s :
  let s' := (playTrack now trackId s).1 in
  keeps_commands s s' ∧ keeps_toggle s s' ∧ keeps_btn s s' ∧ quiet s s'.
Proof.
  unfold playTrack, spotifyFetch. repeat case_match; cbn [fst];
    try by repeat split.
  match goal with |- context [spotifyFetch_call ?r ?x] =>
    pose proof (benign_spotifyFetch_call r x eq_refl) as (?&[? ?]&_&?&?) end.
  by split_and!.
Qed.

Lemma playTrack_tasks now trackId s :
  filter (λ t, is_toggle_task t = true) (playTrack now trackId s).2 = [].
Proof. unfold playTrack. by repeat case_match. Qed.

Lemma playTrack_settle_frame o s :
  let s' := playTrack_settle o s in
  keeps_commands s s' ∧ keeps_toggle s s' ∧ keeps_btn s s' ∧ quiet s s' ∧
  lastPlayTrackTime s' = lastPlayTrackTime s ∧ playTrackPending s' = false.
Proof.
  unfold playTrack_settle. destruct o as [d|m].
  - by repeat split.
  - pose proof (benign_setStatusError (or_else m "Playback failed") false s)
      as (?&[? ?]&[? ?]&?&[? ?]).
    by repeat split.
Qed.

Lemma togglePlayPause_optimistic_frame s :
  let s' := (togglePlayPause_optimistic s).1.1 in
  keeps_commands s s' ∧ keeps_playTrack s s' ∧ keeps_btn s s' ∧ quiet s s' ∧
  playbackCommandPending s' = true ∧
  lastPlaybackCommandTime s' = lastPlaybackCommandTime s ∧
  lastPaused s' = negb (lastPaused s) ∧
  (togglePlayPause_optimistic s).1.2 = lastPaused s ∧
  (togglePlayPause_optimistic s).2 = has_ppBtn s.
Proof.
  unfold togglePlayPause_optimistic. cbn [fst snd].
  match goal with |- context [paint_ppBtn ?b ?x] =>
    pose proof (benign_paint_ppBtn b x) as Hp;
    assert (lastPaused (paint_ppBtn b x) = negb (lastPaused s)) as Hl
      by (unfold paint_ppBtn; by case_match);
    set (s1 := paint_ppBtn b x) in * end.
  assert (benign s1 (if lastPaused s1 then clearInterval (progressTimer s1) s1 else s1))
    as Hc by (case_match; [apply benign_clearInterval|apply benign_refl]).
  assert (lastPaused (if lastPaused s1 then clearInterval (progressTimer s1) s1 else s1)
          = lastPaused s1) as Hl'
    by (case_match; [by destruct (progressTimer s1)|done]).
  destruct (benign_trans _ _ _ Hp Hc) as (?&[? ?]&[? ?]&?&?).
  split_and!; try done; congruence.
Qed.

Lemma togglePlayPause_settle_frame now prevPaused ppBtn o s :
  let s' := togglePlayPause_settle now prevPaused ppBtn o s in
  keeps_commands s s' ∧ keeps_playTrack s s' ∧ keeps_btn s s' ∧ quiet s s' ∧
  playbackCommandPending s' = false.
Proof.
  unfold togglePlayPause_settle. destruct o as [d|m].
  - repeat split; try done.
  - match goal with |- context [setStatusError ?a ?b (paint_ppBtn ?c ?x)] =>
      pose proof (benign_trans _ _ _ (benign_paint_ppBtn c x)
                    (benign_setStatusError a b _)) as (?&[? ?]&[? ?]&?&[? ?]) end.
    by repeat split.
Qed.

Lemma togglePlayPause_optimistic_sdk s :
  let s' := (togglePlayPause_optimistic s).1.1 in
  spotifyPlayer s' = spotifyPlayer s ∧ sdkDeviceId s' = sdkDeviceId s.
Proof.
  unfold togglePlayPause_optimistic, paint_ppBtn, clearInterval. cbn [fst].
  destruct (bool_decide _); simpl; destruct (lastPaused s); simpl;
    try destruct (progressTimer s); done.
Qed.

(** [togglePlayPause] when a guard rejects the call. *)
Lemma togglePlayPause_rejected now s :
  playbackCommandPending s = true ∨ now - lastPlaybackCommandTime s < 500 →
  togglePlayPause now s = (s, []).
Proof.
  intros [H|H]; unfold togglePlayPause; [by rewrite H|].
  destruct (playbackCommandPending s); [done|].
  by rewrite (proj2 (Z.ltb_lt _ _) H).
Qed.

(** [togglePlayPause] past the guards, with the in-app session. *)
Lemma togglePlayPause_sdk now s :
  playbackCommandPending s = false → 500 <= now - lastPlaybackCommandTime s →
  spotifyPlayer s && opt_truthy (sdkDeviceId s) = true →
  togglePlayPause now s =
  (set_playbackCommandPending false
     (set_lastPlaybackCommandTime now
        (emit SdkTogglePlay (togglePlayPause_optimistic s).1.1)), []).
Proof.
  intros Hp Ht Hs. unfold togglePlayPause. rewrite Hp.
  rewrite (proj2 (Z.ltb_ge _ _) Ht).
  destruct (togglePlayPause_optimistic_sdk s) as [H1 H2].
  destruct (togglePlayPause_optimistic s) as [[s1 prev] btn].
  cbn [fst] in *. by rewrite H1, H2, Hs.
Qed.

(** [togglePlayPause] past the guards, through the remote API. *)
Lemma togglePlayPause_remote now s :
  playbackCommandPending s = false → 500 <= now - lastPlaybackCommandTime s →
  spotifyPlayer s && opt_truthy (sdkDeviceId s) = false →
  togglePlayPause now s =
  (spotifyFetch_call (if lastPaused s then play_req else pause_req)
     (togglePlayPause_optimistic s).1.1,
   [TFetch (AwaitToken (if lastPaused s then play_req else pause_req))
           (KToggle now (lastPaused s) (has_ppBtn s))]).
Proof.
  intros Hp Ht Hs. unfold togglePlayPause. rewrite Hp.
  rewrite (proj2 (Z.ltb_ge _ _) Ht).
  destruct (togglePlayPause_optimistic_sdk s) as [H1 H2].
  destruct (togglePlayPause_optimistic_frame s) as (_&_&_&_&_&_&_&H3&H4).
  destruct (togglePlayPause_optimistic s) as [[s1 prev] btn].
  cbn [fst snd] in *. by rewrite H1, H2, Hs, H3, H4.
Qed.

(** *** Timers and the in-app player's events *)


Lemma timerFires_frame i now s :
  benign s (timerFires i now s).1 ∧ toggle_free (timerFires i now s).2.
Proof.
  unfold timerFires. destruct (timers s !! i) as [[| | |msg]|]; cbn [fst snd].
  - split; [apply benign_progressTick|done].
  - split; [apply benign_pollPlaybackState|done].
  - split; [|done].
    eapply benign_trans; [apply (benign_clearInterval (Some i))|].
    apply benign_pollPlaybackState.
  - pose proof (benign_clearInterval (Some i) s) as Hc.
    case_match; (split; [|done]); [|done].
    eapply benign_trans; [exact Hc|]. by apply benign_fields.
  - split; [apply benign_refl|done].
Qed.

Lemma benign_sdkStateChanged state s : benign s (sdkStateChanged state s).
Proof. destruct state; [by apply benign_fields|apply benign_refl]. Qed.

(** *** Handlers *)

(** Every handler either is a [togglePlayPause] call, or issues no play or
    pause command, leaves the toggle guard alone and suspends no toggle. *)
Lemma handler_cases e s :
  (∃ now, handler e s = togglePlayPause now s) ∨
  (keeps_commands s (handler e s).1 ∧ keeps_toggle s (handler e s).1 ∧
   toggle_free (handler e s).2).
Proof.
  destruct e as [now|now tid|now tid| | | |i now| |dev| |state|ok|i now r];
    cbn [handler].
  - left. by exists now.
  - right. destruct (playTrack_frame now tid s) as (?&?&_).
    split_and!; [done..|apply playTrack_tasks].
  - case_match; [left; by exists now|right].
    destruct (playTrack_frame now tid s) as (?&?&_).
    split_and!; [done..|apply playTrack_tasks].
  - right. destruct (benign_pollPlaybackState s) as (?&?&_). by split_and!.
  - right. destruct (startPolling_frame s) as (?&?&_). by split_and!.
  - right. destruct (stopPolling_frame s) as (?&?&_). by split_and!.
  - right. destruct (timerFires_frame i now s) as [(?&?&_) ?]. by split_and!.
  - right. by repeat split.
  - right. cbn [fst snd].
    match goal with |- context [setStatus ?a ?b ?x] =>
      destruct (benign_setStatus a b x) as (?&[? ?]&_) end.
    by repeat split.
  - right. by repeat split.
  - right. destruct (benign_sdkStateChanged state s) as (?&?&_). by split_and!.
  - right. by repeat split.
  - right. by repeat split.
Qed.

Lemma handler_keeps_btn e s : keeps_btn s (handler e s).1.
Proof.
  assert (∀ now, keeps_btn s (togglePlayPause now s).1) as Ht.
  { intros now. unfold togglePlayPause, spotifyFetch.
    destruct (togglePlayPause_optimistic_frame s) as (_&_&?&_).
    destruct (togglePlayPause_optimistic s) as [[s1 prev] btn].
    by repeat case_match. }
  destruct e as [now|now tid|now tid| | | |i now| |dev| |state|ok|i now r];
    cbn [handler].
  - done.
  - apply playTrack_frame.
  - case_match; [done|apply playTrack_frame].
  - apply benign_pollPlaybackState.
  - apply startPolling_frame.
  - apply stopPolling_frame.
  - apply timerFires_frame.
  - done.
  - cbn [fst].
    match goal with |- context [setStatus ?a ?b ?x] =>
      by destruct (benign_setStatus a b x) as (_&_&_&?&_) end.
  - done.
  - apply benign_sdkStateChanged.
  - done.
  - done.
Qed.

Lemma togglePlayPause_quiet now s : quiet s (togglePlayPause now s).1.
Proof.
  unfold togglePlayPause, spotifyFetch.
  destruct (togglePlayPause_optimistic_frame s) as (_&_&_&?&_).
  destruct (togglePlayPause_optimistic s) as [[s1 prev] btn].
  repeat case_match; cbn [fst] in *; by try apply quiet_refl.
Qed.

Lemma handler_quiet e s :
  restarts_polling e = false → quiet s (handler e s).1.
Proof.
  destruct e as [now|now tid|now tid| | | |i now| |dev| |state|ok|i now r];
    cbn [handler]; intros ?.
  - apply togglePlayPause_quiet.
  - apply playTrack_frame.
  - case_match; [apply togglePlayPause_quiet|apply playTrack_frame].
  - apply benign_pollPlaybackState.
  - done.
  - done.
  - apply timerFires_frame.
  - by split.
  - cbn [fst].
    match goal with |- context [setStatus ?a ?b ?x] =>
      by destruct (benign_setStatus a b x) as (_&_&_&_&?) end.
  - by split.
  - apply benign_sdkStateChanged.
  - by split.
  - by split.
Qed.

Lemma handler_clock_inv e s : clock_inv s → clock_inv (handler e s).1.
Proof.
  intros Hinv. destruct (restarts_polling e) eqn:He.
  - destruct e; try done; cbn [handler fst].
    + by apply clock_inv_stopped, clock_stopped_startPolling.
    + by apply clock_inv_stopPolling.
  - eapply clock_inv_quiet; [by apply handler_quiet|done].
Qed.

(** *** Resuming a task *)

Lemma spotifyFetch_token_cases req tok s :
  (∃ o, spotifyFetch_token req tok s = (s, Some o)) ∨
  (spotifyFetch_token req tok s = (emit (Http req) s, None)).
Proof.
  unfold spotifyFetch_token. destruct tok as [t|m]; [|eauto].
  case_match; eauto.
Qed.

(** A task's reply either moves its [spotifyFetch] on to the HTTP stage, or
    runs its continuation. *)
Lemma resume_cases t now r s s' new :
  resume t now r s = Some (s', new) →
  (∃ req k, t = TFetch (AwaitToken req) k ∧ s' = emit (Http req) s ∧
            new = [TFetch AwaitHttp k]) ∨
  (∃ k o, (∃ stage, t = TFetch stage k ∧ settles stage r s = Some o) ∧
          (s', new) = settle k now o s) ∨
  (∃ trackId deviceId, t = TPlayTrackDevice trackId deviceId ∧
                       (s', new) = playTrack_device trackId deviceId s).
Proof.
  intros H. destruct t as [[req|] k|tid dev]; destruct r as [tok|http|];
    simpl in H; try done.
  - destruct (spotifyFetch_token_cases req tok s) as [[o Ho]|Ho];
      rewrite Ho in H; simplify_eq.
    + right; left. exists k, o. split; [|done].
      exists (AwaitToken req). split; [done|]. simpl. by rewrite Ho.
    + left. by exists req, k.
  - simplify_eq. right; left. eexists k, _. split; [|done]. by exists AwaitHttp.
  - simplify_eq. right; right. by exists tid, dev.
Qed.

Lemma settle_frame k now o s :
  match k with
  | KToggle n p b =>
    (settle k now o s) = (togglePlayPause_settle n p b o s, [])
  | _ => keeps_commands s (settle k now o s).1 ∧
         keeps_toggle s (settle k now o s).1 ∧
         toggle_free (settle k now o s).2
  end.
Proof.
  destruct k as [|tid| |n p b]; cbn [settle]; [| | |done].
  - destruct (pollPlaybackState_settle_frame now o s) as (?&?&_). by split_and!.
  - destruct o as [d|m]; cbn [getPlaybackDeviceId_settle].
    + destruct (playTrack_device_frame tid (pickDevice (getDevices_result d)) s)
        as (?&?&_).
      split_and!; [done..|apply playTrack_device_tasks].
    + match goal with |- context [playTrack_device tid None ?x] =>
        destruct (playTrack_device_frame tid None x) as (Hc&[? ?]&_);
        pose proof (playTrack_device_tasks tid None x) end.
      split_and!; try done. unfold keeps_commands in *. rewrite Hc. simpl.
      by rewrite toggle_commands_snoc, Nat.add_0_r.
  - destruct (playTrack_settle_frame o s) as (?&?&_). by split_and!.
Qed.

Lemma settle_keeps_btn k now o s : keeps_btn s (settle k now o s).1.
Proof.
  destruct k as [|tid| |n p b]; cbn [settle fst].
  - apply pollPlaybackState_settle_frame.
  - destruct o as [d|m]; cbn [getPlaybackDeviceId_settle].
    + apply playTrack_device_frame.
    + match goal with |- context [playTrack_device tid None ?x] =>
        by destruct (playTrack_device_frame tid None x) as (_&_&?&_) end.
  - apply playTrack_settle_frame.
  - apply togglePlayPause_settle_frame.
Qed.

Lemma settle_clock_inv k now o s : clock_inv s → clock_inv (settle k now o s).1.
Proof.
  intros Hinv. destruct k as [|tid| |n p b]; cbn [settle fst].
  - by apply clock_inv_pollPlaybackState_settle.
  - destruct o as [d|m]; cbn [getPlaybackDeviceId_settle].
    + eapply clock_inv_quiet; [apply playTrack_device_frame|done].
    + match goal with |- context [playTrack_device tid None ?x] =>
        destruct (playTrack_device_frame tid None x) as (_&_&_&?&_) end.
      eapply clock_inv_quiet; [done|]. by eapply clock_inv_benign, Hinv; apply benign_emit.
  - eapply clock_inv_quiet; [apply playTrack_settle_frame|done].
  - eapply clock_inv_quiet; [apply togglePlayPause_settle_frame|done].
Qed.

(** ** One turn of the event loop *)

Lemma step_handler e y :
  (∀ i now r, e ≠ Resume i now r) →
  step e y = {| st := (handler e (st y)).1;
                tasks := tasks y ++ (handler e (st y)).2 |}.
Proof.
  intros He. destruct e; try (exfalso; by eapply He);
    unfold step; by destruct (handler _ _).
Qed.

(** A [Resume] that is not enabled changes nothing; an enabled one replaces
    the task by what its continuation suspends. *)
Lemma step_resume i now r y :
  step (Resume i now r) y = y ∨
  ∃ t s' new, tasks y !! i = Some t ∧ resume t now r (st y) = Some (s', new) ∧
              step (Resume i now r) y = {| st := s'; tasks := delete i (tasks y) ++ new |}.
Proof.
  unfold step. destruct (tasks y !! i) as [t|]; [|by left].
  destruct (resume t now r (st y)) as [[s' new]|] eqn:Hr; [|by left].
  right. by exists t, s', new.
Qed.

Lemma toggles_in_flight_app y s' new :
  toggles_in_flight {| st := s'; tasks := tasks y ++ new |} =
  (toggles_in_flight y ++ filter (λ t, is_toggle_task t = true) new)%list.
Proof. unfold toggles_in_flight. simpl. apply filter_app. Qed.

Lemma step_keeps_btn e y : keeps_btn (st y) (st (step e y)).
Proof.
  destruct e as [now|now tid|now tid| | | |i now| |dev| |state|ok|i now r];
    try (rewrite step_handler by done; apply handler_keeps_btn).
  destruct (step_resume i now r y) as [->|(t&s'&new&Ht&Hr&->)]; [done|].
  apply resume_cases in Hr as [(req&k&->&->&->)|[(k&o&_&Hs)|(tid&dev&->&Hs)]];
    cbn [st].
  - done.
  - pose proof (settle_keeps_btn k now o (st y)) as H. by rewrite <- Hs in H.
  - destruct (playTrack_device_frame tid dev (st y)) as (_&_&H&_).
    by rewrite <- Hs in H.
Qed.

Lemma step_clock_inv e y : clock_inv (st y) → clock_inv (st (step e y)).
Proof.
  intros Hinv.
  destruct e as [now|now tid|now tid| | | |i now| |dev| |state|ok|i now r];
    try (rewrite step_handler by done; by apply handler_clock_inv).
  destruct (step_resume i now r y) as [->|(t&s'&new&Ht&Hr&->)]; [done|].
  apply resume_cases in Hr as [(req&k&->&->&->)|[(k&o&_&Hs)|(tid&dev&->&Hs)]];
    cbn [st].
  - done.
  - pose proof (settle_clock_inv k now o (st y) Hinv) as H. by rewrite <- Hs in H.
  - destruct (playTrack_device_frame tid dev (st y)) as (_&_&_&H&_).
    rewrite <- Hs in H. by eapply clock_inv_quiet.
Qed.

Lemma run_cons e es y : run (e :: es) y = run es (step e y).
Proof. done. Qed.

Lemma run_snoc es e y : run (es ++ [e]) y = step e (run es y).
Proof. unfold run. by rewrite foldl_app. Qed.

Lemma run_clock_inv es y : clock_inv (st y) → clock_inv (st (run es y)).
Proof.
  revert y. induction es as [|e es IH]; intros y Hinv; [done|].
  rewrite run_cons. by apply IH, step_clock_inv.
Qed.

Lemma boot_clock_inv d lib : clock_inv (st (boot d lib)).
Proof. intros i Hi. simpl in Hi. by rewrite lookup_empty in Hi. Qed.

Lemma run_keeps_btn es y : has_ppBtn (st (run es y)) = has_ppBtn (st y).
Proof.
  revert y. induction es as [|e es IH]; intros y; [done|].
  rewrite run_cons, IH. apply step_keeps_btn.
Qed.

(** *** The toggle guard *)

(** What a turn does to the suspended [togglePlayPause] calls and to the
    guard, when the guard is set on entry. *)
Lemma step_while_pending e y k :
  in_flight k y → playbackCommandPending (st y) = true →
  (in_flight k (step e y) ∧ keeps_commands (st y) (st (step e y)) ∧
   keeps_toggle (st y) (st (step e y))) ∨
  (toggles_in_flight (step e y) = [] ∧
   ∃ i t now r n p b o, e = Resume i now r ∧ tasks y !! i = Some t ∧
     is_toggle_task t = true ∧ k = KToggle n p b ∧
     st (step e y) = togglePlayPause_settle n p b o (st y)).
Proof.
  intros [stage Hk] Hp.
  assert ((∀ i now r, e ≠ Resume i now r) →
    in_flight k (step e y) ∧ keeps_commands (st y) (st (step e y)) ∧
    keeps_toggle (st y) (st (step e y))) as Hh.
  { intros He. rewrite step_handler by done.
    destruct (handler_cases e (st y)) as [[now ->]|(?&?&Hf)].
    - rewrite togglePlayPause_rejected by auto. cbn [fst snd].
      split_and!; try done. exists stage. by rewrite toggles_in_flight_app, Hk.
    - split_and!; try done. exists stage.
      rewrite toggles_in_flight_app, Hk. unfold toggle_free in Hf. by rewrite Hf. }
  destruct e as [now|now tid|now tid| | | |i now| |dev| |state|ok|i now r];
    try (left; by apply Hh).
  clear Hh.
  destruct (step_resume i now r y) as [->|(t&s'&new&Ht&Hr&->)].
  { left. split_and!; try done. by exists stage. }
  unfold in_flight, toggles_in_flight in *. cbn [st tasks].
  rewrite filter_app.
  destruct (is_toggle_task t) eqn:Htt.
  - destruct (filter_delete_only _ _ _ _ _ Ht Htt Hk) as [-> Hd]. rewrite Hd.
    apply resume_cases in Hr as [(req&k'&?&->&->)|[(k'&o&(stage'&?&_)&Hs)|(?&?&?&_)]];
      simplify_eq.
    + left. destruct k'; try done. split_and!; [by eexists| |done].
      unfold keeps_commands. simpl. by rewrite toggle_commands_snoc, Nat.add_0_r.
    + destruct k' as [|?| |n p b]; try done.
      pose proof (settle_frame (KToggle n p b) now o (st y)) as Hsf.
      cbn beta iota in Hsf. rewrite Hsf in Hs. simplify_eq.
      right. split; [done|]. by exists i, (TFetch stage' (KToggle n p b)), now, r, n, p, b, o.
  - rewrite (filter_delete_other _ _ _ _ Ht) by (by rewrite Htt). rewrite Hk.
    left.
    apply resume_cases in Hr as [(req&k'&->&->&->)|[(k'&o&(stage'&->&_)&Hs)|(tid&dev&->&Hs)]].
    + destruct k'; try done;
        (split_and!; [by eexists| |done]);
        unfold keeps_commands; simpl; by rewrite toggle_commands_snoc, Nat.add_0_r.
    + pose proof (settle_frame k' now o (st y)) as Hsf.
      destruct k'; try done; rewrite <- Hs in Hsf; destruct Hsf as (?&?&Hf);
        unfold toggle_free in Hf; cbn [fst snd] in *; rewrite Hf;
        (split_and!; [by eexists|done..]).
    + destruct (playTrack_device_frame tid dev (st y)) as (?&?&_).
      pose proof (playTrack_device_tasks tid dev (st y)) as Hf.
      rewrite <- Hs in *. cbn [fst snd] in *. rewrite Hf.
      split_and!; [by eexists|done..].
Qed.

Lemma resume_other_frame t now r s s' new :
  resume t now r s = Some (s', new) → is_toggle_task t = false →
  keeps_commands s s' ∧ keeps_toggle s s' ∧ toggle_free new.
Proof.
  intros Hr Htt.
  apply resume_cases in Hr as [(req&k&->&->&->)|[(k&o&(stage&->&_)&Hs)|(tid&dev&->&Hs)]].
  - destruct k; try done; (split_and!; [|done..]);
      unfold keeps_commands; simpl; by rewrite toggle_commands_snoc, Nat.add_0_r.
  - pose proof (settle_frame k now o s) as Hsf.
    destruct k; try done; by rewrite <- Hs in Hsf.
  - destruct (playTrack_device_frame tid dev s) as (?&?&_).
    pose proof (playTrack_device_tasks tid dev s) as Hf.
    rewrite <- Hs in *. by split_and!.
Qed.

Lemma togglePlayPause_cases now s :
  togglePlayPause now s = (s, []) ∨
  (playbackCommandPending s = false ∧ 500 <= now - lastPlaybackCommandTime s ∧
   ((spotifyPlayer s && opt_truthy (sdkDeviceId s) = true ∧
     togglePlayPause now s =
     (set_playbackCommandPending false
        (set_lastPlaybackCommandTime now
           (emit SdkTogglePlay (togglePlayPause_optimistic s).1.1)), [])) ∨
    (spotifyPlayer s && opt_truthy (sdkDeviceId s) = false ∧
     togglePlayPause now s =
     (spotifyFetch_call (if lastPaused s then play_req else pause_req)
        (togglePlayPause_optimistic s).1.1,
      [TFetch (AwaitToken (if lastPaused s then play_req else pause_req))
              (KToggle now (lastPaused s) (has_ppBtn s))])))).
Proof.
  destruct (playbackCommandPending s) eqn:Hp;
    [left; apply togglePlayPause_rejected; by left|].
  destruct (decide (now - lastPlaybackCommandTime s < 500)) as [Ht|Ht];
    [left; apply togglePlayPause_rejected; by right|].
  right. split; [done|]. split; [lia|].
  destruct (spotifyPlayer s && opt_truthy (sdkDeviceId s)) eqn:Hs.
  - left. split; [done|]. apply togglePlayPause_sdk; [done|lia|done].
  - right. split; [done|]. apply togglePlayPause_remote; [done|lia|done].
Qed.

Lemma toggle_command_play_pause (b : bool) :
  is_toggle_command (Call (if b then play_req else pause_req)) = true.
Proof. by destruct b. Qed.

(** The remote path of [togglePlayPause] sets the guard and issues exactly
    one command. *)
Lemma togglePlayPause_remote_state s :
  let s' := spotifyFetch_call (if lastPaused s then play_req else pause_req)
              (togglePlayPause_optimistic s).1.1 in
  playbackCommandPending s' = true ∧
  lastPlaybackCommandTime s' = lastPlaybackCommandTime s ∧
  toggle_commands (log s') = S (toggle_commands (log s)) ∧
  lastPaused s' = negb (lastPaused s).
Proof.
  destruct (togglePlayPause_optimistic_frame s) as (Hc&_&_&_&?&?&?&_).
  cbn zeta. split_and!; try done.
  unfold spotifyFetch_call, emit. cbn [log set_log].
  rewrite toggle_commands_snoc, toggle_command_play_pause, Hc. lia.
Qed.

Lemma toggles_in_flight_nil_not_toggle y i t :
  toggles_in_flight y = [] → tasks y !! i = Some t → is_toggle_task t = false.
Proof.
  intros Hn Ht. destruct (is_toggle_task t) eqn:Htt; [|done].
  assert (t ∈ toggles_in_flight y) as Hin.
  { apply list_elem_of_filter. split; [done|]. by eapply list_elem_of_lookup_2. }
  rewrite Hn in Hin. by apply not_elem_of_nil in Hin.
Qed.

(** What a turn does when no [togglePlayPause] call is suspended and the
    guard is clear. *)
Lemma step_while_idle e y :
  toggles_in_flight y = [] → playbackCommandPending (st y) = false →
  (toggles_in_flight (step e y) = [] ∧
   playbackCommandPending (st (step e y)) = false) ∨
  (∃ now, in_flight (KToggle now (lastPaused (st y)) (has_ppBtn (st y))) (step e y) ∧
          playbackCommandPending (st (step e y)) = true).
Proof.
  intros Hn Hp.
  assert ((∀ i now r, e ≠ Resume i now r) →
    (toggles_in_flight (step e y) = [] ∧
     playbackCommandPending (st (step e y)) = false) ∨
    (∃ now, in_flight (KToggle now (lastPaused (st y)) (has_ppBtn (st y))) (step e y) ∧
            playbackCommandPending (st (step e y)) = true)) as Hh.
  { intros He. rewrite step_handler by done.
    destruct (handler_cases e (st y)) as [[now ->]|(?&[Hq ?]&Hf)].
    - destruct (togglePlayPause_cases now (st y))
        as [->|(_&_&[[_ ->]|[_ ->]])]; cbn [fst snd st].
      + left. by rewrite toggles_in_flight_app, Hn.
      + left. by rewrite toggles_in_flight_app, Hn.
      + right. exists now.
        destruct (togglePlayPause_remote_state (st y)) as (?&_).
        split; [|done]. eexists. by rewrite toggles_in_flight_app, Hn.
    - left. rewrite toggles_in_flight_app, Hn. unfold toggle_free in Hf.
      rewrite Hf. cbn [st]. split; [done|congruence]. }
  destruct e as [now|now tid|now tid| | | |i now| |dev| |state|ok|i now r];
    try (by apply Hh).
  clear Hh. left.
  destruct (step_resume i now r y) as [->|(t&s'&new&Ht&Hr&->)]; [done|].
  pose proof (toggles_in_flight_nil_not_toggle y i t Hn Ht) as Htt.
  destruct (resume_other_frame _ _ _ _ _ _ Hr Htt) as (_&[Hq _]&Hf).
  unfold toggles_in_flight in *. cbn [st tasks]. rewrite filter_app.
  rewrite (filter_delete_other _ _ _ _ Ht) by (by rewrite Htt).
  unfold toggle_free in Hf. rewrite Hn, Hf. split; [done|congruence].
Qed.

Lemma togglePlayPause_settle_pending n p b o s :
  playbackCommandPending (togglePlayPause_settle n p b o s) = false.
Proof. apply togglePlayPause_settle_frame. Qed.

(** The guard is set exactly while one [togglePlayPause] call is
    suspended. *)
Lemma mutex_inv_step e y : mutex_inv y → mutex_inv (step e y).
Proof.
  unfold mutex_inv. intros Hm.
  destruct (playbackCommandPending (st y)) eqn:Hp.
  - destruct (toggles_in_flight y) as [|x [|]] eqn:Hx; try done.
    assert (∃ stage k, x = TFetch stage k) as (stage&k&->).
    { assert (x ∈ toggles_in_flight y) as Hin by (rewrite Hx; apply list_elem_of_here).
      apply list_elem_of_filter in Hin as [Hin _].
      destruct x as [stage k|]; [by eauto|done]. }
    destruct (step_while_pending e y k) as [([stage' ->]&_&[-> _])|(->&H)];
      [by exists stage|done| |].
    + by rewrite Hp.
    + destruct H as (i&t&now&r&n&p&b&o&_&_&_&_&->).
      by rewrite togglePlayPause_settle_pending.
  - destruct (toggles_in_flight y) eqn:Hx; [|done].
    destruct (step_while_idle e y Hx Hp) as [[-> ->]|(now&[stage ->]&->)]; done.
Qed.

Lemma mutex_inv_run es y : mutex_inv y → mutex_inv (run es y).
Proof.
  revert y. induction es as [|e es IH]; intros y Hm; [done|].
  rewrite run_cons. by apply IH, mutex_inv_step.
Qed.

Lemma mutex_inv_boot d lib : mutex_inv (boot d lib).
Proof. done. Qed.

(** While the guard stays set, the suspended call stays the same one, no
    command is issued and the throttle timestamp does not move. *)
Lemma run_while_pending es y k :
  in_flight k y → pending_throughout es y →
  in_flight k (run es y) ∧ keeps_commands (st y) (st (run es y)) ∧
  keeps_toggle (st y) (st (run es y)).
Proof.
  revert y. induction es as [|e es IH]; intros y Hk [Hp Hes]; [by repeat split|].
  rewrite run_cons.
  assert (playbackCommandPending (st (step e y)) = true) as Hp'
    by (by destruct es, Hes).
  destruct (step_while_pending e y k Hk Hp) as [(Hk'&Hc&[? ?])|(_&H)].
  - destruct (IH _ Hk' Hes) as (?&Hc'&[? ?]).
    unfold keeps_commands, keeps_toggle in *. split_and!; [done|..]; congruence.
  - destruct H as (i&t&now&r&n&p&b&o&_&_&_&_&Hst).
    rewrite Hst, togglePlayPause_settle_pending in Hp'. done.
Qed.

(** ** Requests that leave the renderer *)

Lemma toggle_requests_snoc l e :
  toggle_requests (l ++ [e]) =
  (toggle_requests l ++ if is_toggle_request e then [e] else [])%list.
Proof.
  unfold toggle_requests. rewrite filter_app, filter_cons.
  by destruct (is_toggle_request e).
Qed.

Lemma keeps_requests_refl s : keeps_requests s s.
Proof. done. Qed.

Lemma keeps_requests_trans s1 s2 s3 :
  keeps_requests s1 s2 → keeps_requests s2 s3 → keeps_requests s1 s3.
Proof. unfold keeps_requests. congruence. Qed.

Lemma keeps_requests_log s s' : log s' = log s → keeps_requests s s'.
Proof. unfold keeps_requests. by intros ->. Qed.

(** Only [fetch] sends: any other effect leaves the requests as they are. *)
Lemma keeps_requests_emit e s :
  is_toggle_request e = false → keeps_requests s (emit e s).
Proof.
  intros He. unfold keeps_requests. simpl.
  by rewrite toggle_requests_snoc, He, app_nil_r.
Qed.

Lemma keeps_requests_emit_on e s s' :
  keeps_requests s s' → is_toggle_request e = false →
  keeps_requests s (emit e s').
Proof.
  intros Hk He. eapply keeps_requests_trans; [done|by apply keeps_requests_emit].
Qed.

Lemma log_clearInterval t s : log (clearInterval t s) = log s.
Proof. by destruct t. Qed.

Lemma log_setStatus msg type s : log (setStatus msg type s) = log s.
Proof. unfold setStatus. by case_match. Qed.

Lemma log_updateProgressEl p d s : log (updateProgressEl p d s) = log s.
Proof. unfold updateProgressEl. by case_match. Qed.

Lemma log_paint_ppBtn b s : log (paint_ppBtn b s) = log s.
Proof. unfold paint_ppBtn. by destruct b. Qed.

Lemma log_updateBarNowPlaying track isPlaying p d b s :
  log (updateBarNowPlaying track isPlaying p d b s) = log s.
Proof.
  unfold updateBarNowPlaying, updateProgressEl. case_match; [|done].
  simpl. by destruct (progress (dom s)).
Qed.

Lemma log_progressTick now s : log (progressTick now s) = log s.
Proof.
  unfold progressTick. case_match;
    [apply log_updateProgressEl|apply log_clearInterval].
Qed.

Lemma log_stopPolling s : log (stopPolling s) = log s.
Proof.
  unfold stopPolling.
  change (log (set_progressTimer None (set_pollInterval None ?x))) with (log x).
  by rewrite !log_clearInterval.
Qed.

Lemma log_togglePlayPause_optimistic s :
  log (togglePlayPause_optimistic s).1.1 = log s.
Proof.
  unfold togglePlayPause_optimistic. cbn [fst].
  case_match; rewrite ?log_clearInterval, log_paint_ppBtn; done.
Qed.

Lemma keeps_requests_setStatusError msg force s :
  keeps_requests s (setStatusError msg force s).
Proof.
  unfold setStatusError. case_match; [by apply keeps_requests_emit|].
  apply keeps_requests_log, log_setStatus.
Qed.

Lemma keeps_requests_pollPlaybackState_settle now o s :
  keeps_requests s (pollPlaybackState_settle now o s).
Proof.
  unfold pollPlaybackState_settle. destruct o as [state|m];
    [|case_match; [by apply keeps_requests_emit|done]].
  destruct (state ≫= item) as [track|];
    [|apply keeps_requests_log, log_clearInterval].
  apply keeps_requests_log. cbv zeta.
  destruct (from_option is_playing false state);
    cbn [startTimer set_progressTimer set_nextTimer set_timers log];
    by rewrite log_clearInterval, log_updateBarNowPlaying.
Qed.

Lemma keeps_requests_playTrack_device trackId deviceId s :
  keeps_requests s (playTrack_device trackId deviceId s).1.
Proof.
  unfold playTrack_device, spotifyFetch. case_match; cbn [fst].
  - apply keeps_requests_log.
    change (log (set_playTrackPending false ?x)) with (log x).
    apply log_setStatus.
  - apply keeps_requests_trans with (startTimer PollTimeout s).2;
      [by apply keeps_requests_log|by apply keeps_requests_emit].
Qed.

Lemma keeps_requests_playTrack now trackId s :
  keeps_requests s (playTrack now trackId s).1.
Proof.
  unfold playTrack, spotifyFetch. repeat case_match; cbn [fst]; try done.
  by apply keeps_requests_emit_on.
Qed.

Lemma keeps_requests_playTrack_settle o s :
  keeps_requests s (playTrack_settle o s).
Proof.
  unfold playTrack_settle. destruct o as [d|m]; [done|].
  apply (keeps_requests_setStatusError (or_else m "Playback failed") false s).
Qed.

Lemma keeps_requests_togglePlayPause now s :
  keeps_requests s (togglePlayPause now s).1.
Proof.
  destruct (togglePlayPause_cases now s) as [->|(_&_&[[_ ->]|[_ ->]])];
    cbn [fst]; [done|..].
  - eapply keeps_requests_trans;
      [apply keeps_requests_log, log_togglePlayPause_optimistic|].
    by apply (keeps_requests_emit SdkTogglePlay).
  - eapply keeps_requests_trans;
      [apply keeps_requests_log, log_togglePlayPause_optimistic|].
    by apply keeps_requests_emit.
Qed.

Lemma keeps_requests_togglePlayPause_settle now prev ppBtn o s :
  keeps_requests s (togglePlayPause_settle now prev ppBtn o s).
Proof.
  unfold togglePlayPause_settle. destruct o as [d|m]; [done|].
  eapply keeps_requests_trans; [|apply
    (keeps_requests_setStatusError (or_else m "Playback failed") false)].
  apply keeps_requests_log. by rewrite log_paint_ppBtn.
Qed.

Lemma keeps_requests_timerFires i now s :
  keeps_requests s (timerFires i now s).1.
Proof.
  unfold timerFires, pollPlaybackState, spotifyFetch.
  destruct (timers s !! i) as [[| | |msg]|]; cbn [fst]; try done.
  - apply keeps_requests_log, log_progressTick.
  - by apply keeps_requests_emit.
  - by apply (keeps_requests_emit_on (Call player_req)).
  - by case_match.
Qed.

(** No handler sends a request by itself: [fetch] is reached only when a
    suspended [spotifyFetch] takes its token. *)
Lemma handler_keeps_requests e s : keeps_requests s (handler e s).1.
Proof.
  destruct e as [now|now tid|now tid| | | |i now| |dev| |state|ok|i now r];
    cbn [handler fst].
  - apply keeps_requests_togglePlayPause.
  - apply keeps_requests_playTrack.
  - case_match; [apply keeps_requests_togglePlayPause|apply keeps_requests_playTrack].
  - by apply keeps_requests_emit.
  - rewrite startPolling_eq. cbn [fst].
    apply keeps_requests_trans with (stopPolling s);
      [apply keeps_requests_log, log_stopPolling|].
    by apply (keeps_requests_emit (Call player_req)).
  - apply keeps_requests_log, log_stopPolling.
  - apply keeps_requests_timerFires.
  - done.
  - apply keeps_requests_log. by rewrite log_setStatus.
  - done.
  - by destruct state.
  - done.
  - done.
Qed.

Lemma settle_keeps_requests k now o s : keeps_requests s (settle k now o s).1.
Proof.
  destruct k as [|tid| |n p b]; cbn [settle fst].
  - apply keeps_requests_pollPlaybackState_settle.
  - destruct o as [d|m]; cbn [getPlaybackDeviceId_settle].
    + apply keeps_requests_playTrack_device.
    + eapply keeps_requests_trans; [|apply keeps_requests_playTrack_device].
      by apply keeps_requests_emit.
  - apply keeps_requests_playTrack_settle.
  - apply keeps_requests_togglePlayPause_settle.
Qed.

(** *** Who waits to send a play or pause request *)

Lemma playTrack_device_sends trackId deviceId s t :
  t ∈ (playTrack_device trackId deviceId s).2 → sends_toggle t = false.
Proof.
  unfold playTrack_device, spotifyFetch. case_match; cbn [snd].
  - by intros ?%elem_of_nil.
  - by intros ->%list_elem_of_singleton.
Qed.

Lemma togglePlayPause_sends now s t :
  t ∈ (togglePlayPause now s).2 → is_toggle_task t = true.
Proof.
  destruct (togglePlayPause_cases now s) as [->|(_&_&[[_ ->]|[_ ->]])];
    cbn [snd]; try by intros ?%elem_of_nil.
  by intros ->%list_elem_of_singleton.
Qed.

Lemma playTrack_sends now trackId s t :
  t ∈ (playTrack now trackId s).2 → sends_toggle t = false.
Proof.
  unfold playTrack, spotifyFetch. repeat case_match; cbn [snd];
    try (by intros ?%elem_of_nil); by intros ->%list_elem_of_singleton.
Qed.

Lemma handler_sends e s t :
  t ∈ (handler e s).2 → sends_toggle t = true → is_toggle_task t = true.
Proof.
  assert (∀ l : list Task, (∀ t, t ∈ l → sends_toggle t = false) →
            t ∈ l → sends_toggle t = true → is_toggle_task t = true) as Hno.
  { intros l Hl Hin Hs. rewrite (Hl t Hin) in Hs. done. }
  destruct e as [now|now tid|now tid| | | |i now| |dev| |state|ok|i now r];
    cbn [handler snd]; try (by intros ?%elem_of_nil).
  - intros. by eapply togglePlayPause_sends.
  - apply Hno. intros ?. apply playTrack_sends.
  - case_match; [intros; by eapply togglePlayPause_sends|].
    apply Hno. intros ?. apply playTrack_sends.
  - apply Hno. by intros ? ->%list_elem_of_singleton.
  - rewrite startPolling_eq. cbn [snd]. apply Hno.
    by intros ? ->%list_elem_of_singleton.
  - apply Hno. intros t'. unfold timerFires, pollPlaybackState, spotifyFetch.
    destruct (timers s !! i) as [[| | |msg]|]; cbn [snd];
      try (by intros ?%elem_of_nil); try (by intros ->%list_elem_of_singleton).
    case_match; by intros ?%elem_of_nil.
Qed.

Lemma settle_sends k now o s t :
  t ∈ (settle k now o s).2 → sends_toggle t = false.
Proof.
  destruct k as [|tid| |n p b]; cbn [settle snd]; try by intros ?%elem_of_nil.
  destruct o as [d|m]; cbn [getPlaybackDeviceId_settle];
    apply playTrack_device_sends.
Qed.

Lemma requests_inv_step e y : requests_inv y → requests_inv (step e y).
Proof.
  intros Hinv.
  assert ((∀ i now r, e ≠ Resume i now r) → requests_inv (step e y)) as Hh.
  { intros He. rewrite step_handler by done. intros t Hin. cbn [tasks] in Hin.
    apply elem_of_app in Hin as [Hin|Hin]; [by apply Hinv|].
    by apply (handler_sends e (st y)). }
  destruct e as [now|now tid|now tid| | | |i now| |dev| |state|ok|i now r];
    try (by apply Hh).
  clear Hh.
  destruct (step_resume i now r y) as [->|(t&s'&new&Ht&Hr&->)]; [done|].
  intros t' Hin Hs. cbn [tasks] in Hin.
  apply elem_of_app in Hin as [Hin|Hin].
  { apply Hinv; [|done]. by eapply list_elem_of_delete_inv. }
  apply resume_cases in Hr as [(req&k&->&->&->)|[(k&o&_&Hst)|(tid&dev&->&Hst)]].
  - apply list_elem_of_singleton in Hin as ->. done.
  - assert (new = (settle k now o (st y)).2) as -> by by rewrite <- Hst.
    by rewrite (settle_sends _ _ _ _ _ Hin) in Hs.
  - assert (new = (playTrack_device tid dev (st y)).2) as -> by by rewrite <- Hst.
    by rewrite (playTrack_device_sends _ _ _ _ Hin) in Hs.
Qed.

Lemma requests_inv_run es y : requests_inv y → requests_inv (run es y).
Proof.
  revert y. induction es as [|e es IH]; intros y Hinv; [done|].
  rewrite run_cons. by apply IH, requests_inv_step.
Qed.

Lemma requests_inv_boot d lib : requests_inv (boot d lib).
Proof. by intros t ?%elem_of_nil. Qed.

(** *** The request of a suspended [togglePlayPause] call *)

(** What a turn does to the one suspended [togglePlayPause] call while the
    guard is set: the call stays where it is and no play or pause request
    is sent; or it takes its token and sends its request; or it settles. *)
Lemma step_toggle_progress e y n p b req sent0 :
  requests_inv y → is_toggle_path req = true →
  toggle_progress (KToggle n p b) req sent0 y →
  playbackCommandPending (st y) = true →
  toggle_progress (KToggle n p b) req sent0 (step e y) ∨
  (toggles_in_flight (step e y) = [] ∧
   ∃ i now r stage o,
     e = Resume i now r ∧ tasks y !! i = Some (TFetch stage (KToggle n p b)) ∧
     settles stage r (st y) = Some o ∧
     st (step e y) = togglePlayPause_settle n p b o (st y) ∧
     toggle_requests (log (st (step e y))) = sent_after stage req sent0).
Proof.
  intros Hinv Hreq Hprog Hp.
  assert (∃ stage, toggles_in_flight y = [TFetch stage (KToggle n p b)])
    as [stage Hk] by (destruct Hprog as [[? _]|[? _]]; eauto).
  assert (∀ y', toggles_in_flight y' = toggles_in_flight y →
                keeps_requests (st y) (st y') →
                toggle_progress (KToggle n p b) req sent0 y') as Hkeep.
  { intros y' Ht Hr. unfold toggle_progress, keeps_requests in *.
    by rewrite Ht, Hr. }
  assert ((∀ i now r, e ≠ Resume i now r) →
          toggle_progress (KToggle n p b) req sent0 (step e y)) as Hh.
  { intros He. rewrite step_handler by done. apply Hkeep.
    - rewrite toggles_in_flight_app.
      destruct (handler_cases e (st y)) as [[now ->]|(_&_&Hf)].
      + rewrite togglePlayPause_rejected by auto. by rewrite app_nil_r.
      + unfold toggle_free in Hf. by rewrite Hf, app_nil_r.
    - apply handler_keeps_requests. }
  destruct e as [now|now tid|now tid| | | |i now| |dev| |state|ok|i now r];
    try (left; by apply Hh).
  clear Hh.
  destruct (step_resume i now r y) as [->|(t&s'&new&Ht&Hr&Hstep)]; [by left|].
  destruct (is_toggle_task t) eqn:Htt.
  - destruct (filter_delete_only _ _ _ _ _ Ht Htt Hk) as [-> Hd].
    apply resume_cases in Hr
      as [(req'&k'&Heq&->&->)|[(k'&o&(stage'&Heq&Hset)&Hs)|(?&?&?&_)]]; [| |done].
    + injection Heq as -> <-.
      destruct Hprog as [[Hk1 Hr1]|[Hk1 _]]; rewrite Hk in Hk1; [|done].
      injection Hk1 as ->.
      left. right. rewrite Hstep. split.
      * unfold toggles_in_flight in *. cbn [tasks]. by rewrite filter_app, Hd.
      * cbn [st emit log set_log]. rewrite toggle_requests_snoc.
        cbn [is_toggle_request]. by rewrite Hreq, Hr1.
    + injection Heq as -> <-. right. rewrite Hstep.
      cbn [settle] in Hs. injection Hs as -> ->. split.
      { unfold toggles_in_flight in *. cbn [tasks]. by rewrite filter_app, Hd. }
      exists i, now, r, stage', o. split_and!; try done.
      cbn [st].
      pose proof (keeps_requests_togglePlayPause_settle n p b o (st y)) as Hq.
      unfold keeps_requests in Hq. rewrite Hq.
      destruct Hprog as [[Hk1 Hr1]|[Hk1 Hr1]]; rewrite Hk in Hk1;
        injection Hk1 as ->; done.
  - left. apply Hkeep; rewrite Hstep.
    + unfold toggles_in_flight. cbn [tasks]. rewrite filter_app.
      rewrite (filter_delete_other _ _ _ _ Ht) by (by rewrite Htt).
      destruct (resume_other_frame _ _ _ _ _ _ Hr Htt) as (_&_&Hf).
      unfold toggle_free in Hf. by rewrite Hf, app_nil_r.
    + cbn [st].
      apply resume_cases in Hr
        as [(req'&k'&->&->&->)|[(k'&o&_&Hs)|(tid&dev&->&Hs)]].
      * apply keeps_requests_emit. cbn [is_toggle_request].
        destruct (is_toggle_path req') eqn:Hq; [|done].
        assert (is_toggle_task (TFetch (AwaitToken req') k') = true) as Hc
          by (apply Hinv; [by eapply list_elem_of_lookup_2|done]).
        congruence.
      * replace s' with (settle k' now o (st y)).1 by (by rewrite <- Hs).
        apply settle_keeps_requests.
      * replace s' with (playTrack_device tid dev (st y)).1 by (by rewrite <- Hs).
        apply keeps_requests_playTrack_device.
Qed.

(** While the guard stays set, the suspended call has sent nothing or its
    one request. *)
Lemma run_toggle_progress es y n p b req sent0 :
  requests_inv y → is_toggle_path req = true →
  toggle_progress (KToggle n p b) req sent0 y →
  pending_throughout es y →
  toggle_progress (KToggle n p b) req sent0 (run es y) ∧
  requests_inv (run es y).
Proof.
  intros Hinv Hreq. revert y Hinv.
  induction es as [|e es IH]; intros y Hinv Hprog [Hp Hes]; [done|].
  rewrite run_cons.
  assert (playbackCommandPending (st (step e y)) = true) as Hp'
    by (by destruct es, Hes).
  destruct (step_toggle_progress e y n p b req sent0 Hinv Hreq Hprog Hp)
    as [Hprog'|(_&H)].
  - apply IH; [by apply requests_inv_step|done..].
  - destruct H as (i&now&r&stage&o&_&_&_&Hst&_).
    rewrite Hst, togglePlayPause_settle_pending in Hp'. done.
Qed.

Lemma step_resume_settles i now r y stage k o :
  tasks y !! i = Some (TFetch stage k) → settles stage r (st y) = Some o →
  step (Resume i now r) y =
  {| st := (settle k now o (st y)).1;
     tasks := delete i (tasks y) ++ (settle k now o (st y)).2 |}.
Proof.
  intros Ht Hs. unfold step. rewrite Ht.
  destruct stage as [req|]; destruct r as [tok|http|]; simpl in *; try done.
  - destruct (spotifyFetch_token_cases req tok (st y)) as [[o' Ho]|Ho];
      rewrite Ho in *; simplify_eq/=. by destruct (settle k now o (st y)).
  - simplify_eq. by destruct (settle k now _ (st y)).
Qed.

Lemma in_flight_lookup k y i t :
  in_flight k y → tasks y !! i = Some t → is_toggle_task t = true →
  ∃ stage, t = TFetch stage k.
Proof.
  intros [stage Hk] Ht Htt.
  destruct (filter_delete_only _ _ _ _ _ Ht Htt Hk) as [-> _]. by exists stage.
Qed.

Lemma step_noop y : {| st := st y; tasks := tasks y ++ [] |} = y.
Proof. destruct y. simpl. by rewrite app_nil_r. Qed.

(** The first, accepted call of a pair, through the remote API. *)
Lemma toggle_accepted y t1 :
  mutex_inv y → playbackCommandPending (st y) = false →
  500 <= t1 - lastPlaybackCommandTime (st y) →
  spotifyPlayer (st y) && opt_truthy (sdkDeviceId (st y)) = false →
  let y1 := step (TogglePlayPause t1) y in
  in_flight (KToggle t1 (lastPaused (st y)) (has_ppBtn (st y))) y1 ∧
  st y1 = spotifyFetch_call (if lastPaused (st y) then play_req else pause_req)
            (togglePlayPause_optimistic (st y)).1.1.
Proof.
  intros Hm Hp Ht Hs. unfold mutex_inv in Hm. rewrite Hp in Hm.
  apply length_zero_iff_nil in Hm.
  rewrite step_handler by done. cbn [handler].
  rewrite togglePlayPause_remote by done. cbn [fst snd]. split; [|done].
  eexists. by rewrite toggles_in_flight_app, Hm.
Qed.

Lemma toggle_path_play_pause (b : bool) :
  is_toggle_path (if b then play_req else pause_req) = true.
Proof. by destruct b. Qed.

(** The accepted call waits for its token, and has sent nothing. *)
Lemma toggle_accepted_progress y t1 :
  mutex_inv y → playbackCommandPending (st y) = false →
  500 <= t1 - lastPlaybackCommandTime (st y) →
  spotifyPlayer (st y) && opt_truthy (sdkDeviceId (st y)) = false →
  toggle_progress (KToggle t1 (lastPaused (st y)) (has_ppBtn (st y)))
    (if lastPaused (st y) then play_req else pause_req)
    (toggle_requests (log (st y))) (step (TogglePlayPause t1) y).
Proof.
  intros Hm Hp Ht Hs. unfold mutex_inv in Hm. rewrite Hp in Hm.
  apply length_zero_iff_nil in Hm.
  rewrite step_handler by done. cbn [handler].
  rewrite togglePlayPause_remote by done. cbn [fst snd]. left. split.
  - by rewrite toggles_in_flight_app, Hm.
  - cbn [st]. apply keeps_requests_emit_on; [|by destruct (lastPaused (st y))].
    apply keeps_requests_log, log_togglePlayPause_optimistic.
Qed.

(** A waiting [spotifyFetch] settles at the token stage only when the
    session provider gives it no token. *)
Lemma settles_token_stage req r s o :
  settles (AwaitToken req) r s = Some o →
  ∃ tok, r = RToken tok ∧ token_usable tok = false.
Proof.
  destruct r as [tok|http|]; [|done..]. intros Hs. exists tok. split; [done|].
  destruct tok as [t|m]; [|done]. cbn in *. by destruct (opt_truthy t).
Qed.

(** C1. Two [togglePlayPause] calls, the second while the first is
    suspended.  The first sets [playbackCommandPending] before its [await]
    and is then the one suspended call, waiting for its token with nothing
    sent.  As long as the flag stays set, any further call changes nothing,
    and the suspended call has sent nothing, or the one play or pause
    request it sends in the turn in which the session provider answers with
    a token.  The flag is cleared only by the turn that settles the
    suspended call: from the HTTP stage, with exactly one request sent, or
    from the token stage, when the session provider had no token, with
    none sent.  The flag is set exactly while one call is suspended, so at
    most one is in flight at any time. *)
Theorem toggle_mutual_exclusion (y : Sys) (t1 : Z) :
  mutex_inv y → requests_inv y →
  playbackCommandPending (st y) = false →
  500 <= t1 - lastPlaybackCommandTime (st y) →
  spotifyPlayer (st y) && opt_truthy (sdkDeviceId (st y)) = false →
  let y1 := step (TogglePlayPause t1) y in
  let k := KToggle t1 (lastPaused (st y)) (has_ppBtn (st y)) in
  let req := if lastPaused (st y) then play_req else pause_req in
  let sent0 := toggle_requests (log (st y)) in
  playbackCommandPending (st y1) = true ∧
  toggles_in_flight y1 = [TFetch (AwaitToken req) k] ∧
  toggle_commands (log (st y1)) = S (toggle_commands (log (st y))) ∧
  toggle_requests (log (st y1)) = sent0 ∧
  (∀ es, pending_throughout es y1 →
     let y2 := run es y1 in
     toggle_progress k req sent0 y2 ∧
     toggle_commands (log (st y2)) = S (toggle_commands (log (st y))) ∧
     (∀ t2, step (TogglePlayPause t2) y2 = y2) ∧
     (∀ i now tok,
        tasks y2 !! i = Some (TFetch (AwaitToken req) k) →
        token_usable tok = true →
        let y3 := step (Resume i now (RToken tok)) y2 in
        log (st y3) = (log (st y2) ++ [Http req])%list ∧
        toggles_in_flight y3 = [TFetch AwaitHttp k] ∧
        toggle_requests (log (st y3)) = (sent0 ++ [Http req])%list ∧
        playbackCommandPending (st y3) = true) ∧
     (∀ e, playbackCommandPending (st (step e y2)) = false →
        ∃ i now r stage o,
          e = Resume i now r ∧ tasks y2 !! i = Some (TFetch stage k) ∧
          settles stage r (st y2) = Some o ∧
          toggles_in_flight (step e y2) = [] ∧
          toggle_requests (log (st (step e y2))) = sent_after stage req sent0 ∧
          (∀ req', stage = AwaitToken req' →
             ∃ tok, r = RToken tok ∧ token_usable tok = false))) ∧
  (∀ es, (length (toggles_in_flight (run es y1)) ≤ 1)%nat ∧
         mutex_inv (run es y1)).
Proof.
  intros Hm Hinv Hp Ht Hs y1 k req sent0.
  destruct (toggle_accepted y t1 Hm Hp Ht Hs) as [Hk Hst]. fold y1 in Hk, Hst.
  destruct (togglePlayPause_remote_state (st y)) as (Hp1&_&Hc1&_).
  rewrite <- Hst in Hp1, Hc1.
  pose proof (toggle_accepted_progress y t1 Hm Hp Ht Hs) as Hprog.
  fold y1 k req sent0 in Hprog.
  assert (is_toggle_path req = true) as Hreq by apply toggle_path_play_pause.
  assert (mutex_inv y1) as Hm1 by by apply mutex_inv_step.
  assert (requests_inv y1) as Hinv1 by by apply requests_inv_step.
  assert (toggles_in_flight y1 = [TFetch (AwaitToken req) k] ∧
          toggle_requests (log (st y1)) = sent0) as [Hk1 Hr1].
  { destruct Hprog as [?|[Hk' _]]; [done|]. exfalso.
    unfold y1 in Hk'. rewrite step_handler in Hk' by done.
    cbn [handler] in Hk'. rewrite togglePlayPause_remote in Hk' by done.
    cbn [fst snd] in Hk'. rewrite toggles_in_flight_app in Hk'.
    unfold mutex_inv in Hm. rewrite Hp in Hm.
    apply length_zero_iff_nil in Hm. by rewrite Hm in Hk'. }
  split_and!; try done.
  - intros es Hes y2.
    destruct (run_while_pending es y1 _ Hk Hes) as (Hk2&Hc2&[Hp2 _]).
    destruct (run_toggle_progress es y1 _ _ _ req sent0 Hinv1 Hreq Hprog Hes)
      as [Hprog2 Hinv2].
    fold y2 in Hk2, Hc2, Hp2, Hprog2, Hinv2. rewrite Hp1 in Hp2.
    assert (mutex_inv y2) as Hm2 by by apply mutex_inv_run.
    split_and!.
    + done.
    + unfold keeps_commands in Hc2. congruence.
    + intros t2. rewrite step_handler by done. cbn [handler].
      rewrite togglePlayPause_rejected by auto. apply step_noop.
    + intros i now tok Hi Htok y3.
      assert (y3 = {| st := emit (Http req) (st y2);
                      tasks := delete i (tasks y2) ++ [TFetch AwaitHttp k] |})
        as ->.
      { unfold y3, step. rewrite Hi. destruct tok as [t|m]; [|done].
        cbn in Htok. cbn [resume spotifyFetch_token]. by rewrite Htok. }
      destruct Hk2 as [stage Hk2].
      destruct (filter_delete_only _ _ _ _ _ Hi eq_refl Hk2) as [Heq Hd].
      injection Heq as <-.
      destruct Hprog2 as [[_ Hr2]|[Hk3 _]];
        [|unfold toggles_in_flight in *; rewrite Hk2 in Hk3; done].
      split_and!; try done.
      * unfold toggles_in_flight. cbn [tasks]. by rewrite filter_app, Hd.
      * cbn [st emit log set_log]. rewrite toggle_requests_snoc.
        cbn [is_toggle_request]. by rewrite Hreq, Hr2.
    + intros e Hclr.
      destruct (step_toggle_progress e y2 _ _ _ req sent0 Hinv2 Hreq Hprog2 Hp2)
        as [Hprog3|(Hnil&i&now&r&stage&o&->&Hi&Hset&_&Hsent)].
      * exfalso. pose proof (mutex_inv_step e y2 Hm2) as Hm3.
        unfold mutex_inv in Hm3. rewrite Hclr in Hm3.
        destruct Hprog3 as [[Hk3 _]|[Hk3 _]]; by rewrite Hk3 in Hm3.
      * exists i, now, r, stage, o. split_and!; try done.
        intros req' ->. by eapply settles_token_stage.
  - intros es. pose proof (mutex_inv_run es y1 Hm1) as Hm2. split; [|done].
    unfold mutex_inv in Hm2. rewrite Hm2. by case_match; lia.
Qed.

(** A second click 10 ms after the first, on a fresh page; the token
    arrives after it and the one play request goes out; the service
    answers 204 and the call settles with that one request sent. *)
Lemma toggle_mutual_exclusion_witness :
  let k := KToggle 1000 true true in
  let y1 := step (TogglePlayPause 1000) fresh in
  let y2 := run [TogglePlayPause 1010] y1 in
  let y3 := step (Resume 0 1011 some_token) y2 in
  let y4 := step (Resume 0 1100 (RHttp (Response 204 (JsonValue None))))
              (run [TogglePlayPause 1010; Resume 0 1011 some_token] y1) in
  (mutex_inv fresh ∧ requests_inv fresh ∧
   playbackCommandPending (st fresh) = false ∧
   500 <= 1000 - lastPlaybackCommandTime (st fresh) ∧
   spotifyPlayer (st fresh) && opt_truthy (sdkDeviceId (st fresh)) = false ∧
   pending_throughout [TogglePlayPause 1010] y1 ∧
   pending_throughout [TogglePlayPause 1010; Resume 0 1011 some_token] y1 ∧
   tasks y2 !! 0%nat = Some (TFetch (AwaitToken play_req) k) ∧
   token_usable (Token (Some "BQD-token")) = true ∧
   playbackCommandPending (st y4) = false) ∧
  step (TogglePlayPause 1010) y1 = y1 ∧
  toggle_requests (log (st y2)) = [] ∧
  toggle_requests (log (st y3)) = [Http play_req] ∧
  toggle_requests (log (st y4)) = [Http play_req].
Proof.
  intros k y1 y2 y3 y4.
  assert (500 <= 1000 - lastPlaybackCommandTime (st fresh)) as Ht by (simpl; lia).
  assert (requests_inv fresh) as Hinv by apply requests_inv_boot.
  assert (pending_throughout [TogglePlayPause 1010] y1) as Hes1 by by vm_compute.
  assert (pending_throughout [TogglePlayPause 1010; Resume 0 1011 some_token] y1)
    as Hes2 by by vm_compute.
  assert (playbackCommandPending (st y4) = false) as Hclr by by vm_compute.
  destruct (toggle_mutual_exclusion fresh 1000 eq_refl Hinv eq_refl Ht eq_refl)
    as (_&_&_&_&H&_).
  destruct (H [] (conj eq_refl I)) as (_&_&H0&_).
  destruct (H [TogglePlayPause 1010] Hes1) as (H1&_&_&H2&_).
  destruct (H2 0%nat 1011 (Token (Some "BQD-token")) eq_refl eq_refl)
    as (_&_&H3&_).
  destruct (H [TogglePlayPause 1010; Resume 0 1011 some_token] Hes2)
    as (_&_&_&_&H4).
  split; [by split_and!|].
  split; [exact (H0 1010)|].
  split; [by destruct H1 as [[_ ?]|[? _]]|].
  split; [exact H3|].
  destruct (H4 _ Hclr) as (i&now&r&stage&o&He&Hi&_&_&Hsent&_).
  injection He as <- <- <-.
  assert (stage = AwaitHttp) as -> by (vm_compute in Hi; congruence).
  exact Hsent.
Defined.

(** C1 as stated fails when the session provider has no token for the first
    call: the second click is a no-op, the first call settles and the flag
    is cleared, and no play or pause request has left the renderer. *)
Lemma toggle_mutual_exclusion_counterexample :
  let y1 := step (TogglePlayPause 1000) fresh in
  let y2 := step (TogglePlayPause 1010) y1 in
  let y3 := step (Resume 0 1011 (RToken (Token None))) y2 in
  (mutex_inv fresh ∧ requests_inv fresh ∧
   playbackCommandPending (st fresh) = false ∧
   500 <= 1000 - lastPlaybackCommandTime (st fresh) ∧
   spotifyPlayer (st fresh) && opt_truthy (sdkDeviceId (st fresh)) = false) ∧
  playbackCommandPending (st y1) = true ∧
  toggles_in_flight y1 = [TFetch (AwaitToken play_req) (KToggle 1000 true true)] ∧
  y2 = y1 ∧
  y3 = run double_click_no_token fresh ∧
  playbackCommandPending (st y3) = false ∧ tasks y3 = [] ∧
  toggle_commands (log (st y3)) = 1%nat ∧
  toggle_requests (log (st y3)) = [] ∧
  length (toggle_requests (log (st y3))) ≠ 1%nat.
Proof.
  intros y1 y2 y3.
  assert (requests_inv fresh) as Hinv by apply requests_inv_boot.
  split; [split; [reflexivity|split; [exact Hinv|]]|];
    vm_compute; split_and!; done.
Qed.

(** ** Settling a [togglePlayPause] call *)

Lemma setStatusError_shown msg s :
  isTransientError msg = false →
  setStatusError msg false s =
  set_dom (set_status {| status_text := msg; status_className := "status error" |}
                      (dom s)) s.
Proof.
  intros H. unfold setStatusError, setStatus. rewrite H. cbn [andb].
  by rewrite andb_false_r.
Qed.

Lemma setStatusError_logged msg s :
  isTransientError msg = true →
  setStatusError msg false s =
  emit (ConsoleWarn ("Transient error (logged only): " ++ msg)) s.
Proof. intros H. unfold setStatusError. by rewrite H. Qed.

(** The turn that resumes the suspended call with the reply it settles on
    runs the rest of [togglePlayPause] on the state of that moment. *)
Lemma toggle_settle_step y t1 es i now r t o :
  mutex_inv y → playbackCommandPending (st y) = false →
  500 <= t1 - lastPlaybackCommandTime (st y) →
  spotifyPlayer (st y) && opt_truthy (sdkDeviceId (st y)) = false →
  let y1 := step (TogglePlayPause t1) y in
  pending_throughout es y1 →
  let y2 := run es y1 in
  tasks y2 !! i = Some t → is_toggle_task t = true →
  task_settles t r (st y2) = Some o →
  st (step (Resume i now r) y2) =
    togglePlayPause_settle t1 (lastPaused (st y)) (has_ppBtn (st y)) o (st y2) ∧
  lastPlaybackCommandTime (st y2) = lastPlaybackCommandTime (st y) ∧
  has_ppBtn (st y2) = has_ppBtn (st y).
Proof.
  intros Hm Hp Ht Hs y1 Hes y2 Hi Htt Ho.
  destruct (toggle_accepted y t1 Hm Hp Ht Hs) as [Hk Hst]. fold y1 in Hk, Hst.
  destruct (togglePlayPause_remote_state (st y)) as (_&Hl1&_).
  rewrite <- Hst in Hl1.
  destruct (run_while_pending es y1 _ Hk Hes) as (Hk2&_&[_ Hl2]). fold y2 in Hk2, Hl2.
  destruct (in_flight_lookup _ _ _ _ Hk2 Hi Htt) as [stage ->]. simpl in Ho.
  rewrite (step_resume_settles _ _ _ _ _ _ _ Hi Ho). cbn [st settle fst].
  split_and!; [done|congruence|].
  unfold y2. rewrite run_keeps_btn. apply step_keeps_btn.
Qed.

Lemma paint_ppBtn_text s :
  textContent <$> playPauseBtn (dom (paint_ppBtn (has_ppBtn s) s)) =
  (λ _, affordance (lastPaused s)) <$> playPauseBtn (dom s).
Proof.
  unfold paint_ppBtn, has_ppBtn. destruct (playPauseBtn (dom s)) eqn:Hb.
  - rewrite bool_decide_eq_true_2 by eauto. simpl. rewrite ?Hb. done.
  - rewrite bool_decide_eq_false_2 by (by intros [? ?]). by rewrite Hb.
Qed.

(** The [catch] of [togglePlayPause], field by field. *)
Lemma togglePlayPause_settle_rejected now prev m s :
  let s' := togglePlayPause_settle now prev (has_ppBtn s) (Rejected m) s in
  lastPaused s' = prev ∧
  playbackCommandPending s' = false ∧
  lastPlaybackCommandTime s' = lastPlaybackCommandTime s ∧
  timers s' = timers s ∧ progressTimer s' = progressTimer s ∧
  textContent <$> playPauseBtn (dom s') =
    (λ _, affordance prev) <$> playPauseBtn (dom s) ∧
  (isTransientError (failure_text m) = false → shows_error (failure_text m) s') ∧
  (isTransientError (failure_text m) = true →
     status (dom s') = status (dom s) ∧
     log s' = (log s ++ [ConsoleWarn ("Transient error (logged only): "
                                      ++ failure_text m)])%list).
Proof.
  unfold togglePlayPause_settle. fold (failure_text m). cbv zeta.
  pose proof (paint_ppBtn_text (set_lastPaused prev s)) as Hb.
  change (has_ppBtn (set_lastPaused prev s)) with (has_ppBtn s) in Hb.
  set (s1 := paint_ppBtn (has_ppBtn s) (set_lastPaused prev s)) in *.
  assert (lastPaused s1 = prev ∧ lastPlaybackCommandTime s1 = lastPlaybackCommandTime s
          ∧ timers s1 = timers s ∧ progressTimer s1 = progressTimer s
          ∧ status (dom s1) = status (dom s) ∧ log s1 = log s) as (?&?&?&?&?&?).
  { unfold s1, paint_ppBtn. by destruct (has_ppBtn s). }
  destruct (isTransientError (failure_text m)) eqn:Htr.
  - rewrite setStatusError_logged by done. simpl.
    split_and!; try done. intros _. split; [done|]. by f_equal.
  - rewrite setStatusError_shown by done. simpl.
    split_and!; try done.
Qed.

(** C2, as the code has it. [togglePlayPause] called with [lastPaused]
    true, through the remote API, whose play call fails with message [m]:
    whatever happened while the call was suspended, once it settles
    [lastPaused] is true again, the guard is clear and the button, if the
    page has one, reads '▶' (which is what it read before the call whenever
    it then agreed with [lastPaused]).  The message is shown as an error
    status unless [isTransientError] matches it; then it is logged to the
    console only and the status line is left as it was. *)
Theorem toggle_rollback (y : Sys) (t1 : Z) (es : list Event)
    (i : nat) (now : Z) (r : Reply) (t : Task) (m : string) :
  mutex_inv y →
  playbackCommandPending (st y) = false →
  500 <= t1 - lastPlaybackCommandTime (st y) →
  spotifyPlayer (st y) && opt_truthy (sdkDeviceId (st y)) = false →
  lastPaused (st y) = true →
  let y1 := step (TogglePlayPause t1) y in
  pending_throughout es y1 →
  let y2 := run es y1 in
  tasks y2 !! i = Some t → is_toggle_task t = true →
  task_settles t r (st y2) = Some (Rejected m) →
  let y3 := step (Resume i now r) y2 in
  lastPaused (st y3) = true ∧
  playbackCommandPending (st y3) = false ∧
  textContent <$> playPauseBtn (dom (st y3)) =
    (λ _, glyph_play) <$> playPauseBtn (dom (st y)) ∧
  (∀ b, playPauseBtn (dom (st y)) = Some b → textContent b = affordance true →
        textContent <$> playPauseBtn (dom (st y3)) = Some (textContent b)) ∧
  (isTransientError (failure_text m) = false →
     shows_error (failure_text m) (st y3)) ∧
  (isTransientError (failure_text m) = true →
     status (dom (st y3)) = status (dom (st y2)) ∧
     log (st y3) = (log (st y2) ++ [ConsoleWarn ("Transient error (logged only): "
                                                 ++ failure_text m)])%list).
Proof.
  intros Hm Hp Ht Hs Hl y1 Hes y2 Hi Htt Ho y3.
  destruct (toggle_settle_step y t1 es i now r t _ Hm Hp Ht Hs Hes Hi Htt Ho)
    as (Hst&_&Hb).
  fold y1 y2 y3 in Hst, Hb. rewrite Hl, <- Hb in Hst.
  destruct (togglePlayPause_settle_rejected t1 true m (st y2))
    as (?&?&_&_&_&Hbtn&?&?).
  rewrite <- Hst in *.
  assert (textContent <$> playPauseBtn (dom (st y3)) =
          (λ _, glyph_play) <$> playPauseBtn (dom (st y))) as Hbtn'.
  { rewrite Hbtn. unfold has_ppBtn in Hb.
    destruct (playPauseBtn (dom (st y2))), (playPauseBtn (dom (st y)));
      try done; by cbv in Hb. }
  split_and!; try done.
  intros b Hsome Htext. rewrite Hbtn', Hsome. simpl. by rewrite Htext.
Qed.

Lemma refused_play_pending : pending_throughout [Resume 0 1001 some_token]
                               (step (TogglePlayPause 1000) fresh).
Proof. by vm_compute. Qed.

(** A play command refused with "Premium required": the error is shown. *)
Lemma toggle_rollback_witness :
  let r := RHttp (Response 403 (JsonValue (Some
             (error_body "Player command failed: Premium required")))) in
  let y3 := run [TogglePlayPause 1000; Resume 0 1001 some_token; Resume 0 1200 r]
                fresh in
  lastPaused (st fresh) = true ∧
  lastPaused (st y3) = true ∧
  shows_error "Player command failed: Premium required" (st y3).
Proof.
  intros r y3.
  assert (500 <= 1000 - lastPlaybackCommandTime (st fresh)) as Ht by (simpl; lia).
  destruct (toggle_rollback fresh 1000 [Resume 0 1001 some_token] 0 1200 r
              (TFetch AwaitHttp (KToggle 1000 true true))
              "Player command failed: Premium required"
              eq_refl eq_refl Ht eq_refl eq_refl refused_play_pending
              eq_refl eq_refl eq_refl) as (H1&_&_&_&H2&_).
  split; [reflexivity|]. split; [exact H1|]. exact (H2 eq_refl).
Defined.

(** C2 as stated fails on both of its additions to the rollback.  A play
    command refused with "Restriction violated" leaves [lastPaused] restored
    but shows nothing to the user; and when the button did not agree with
    [lastPaused] before the call, the rollback does not put back what the
    button read before. *)
Lemma toggle_rollback_counterexample :
  (let y3 := run refused_play fresh in
   lastPaused (st fresh) = true ∧
   task_settles (TFetch AwaitHttp (KToggle 1000 true true))
     (RHttp (Response 403 (JsonValue (Some
        (error_body "Player command failed: Restriction violated")))))
     (st fresh)
     = Some (Rejected "Player command failed: Restriction violated") ∧
   lastPaused (st y3) = true ∧
   status (dom (st y3)) = status (dom (st fresh)) ∧
   ¬ shows_error "Player command failed: Restriction violated" (st y3)) ∧
  (let y := run stale_button fresh in
   let y3 := run stale_button_failure y in
   lastPaused (st y) = true ∧
   lastPaused (st y3) = true ∧
   textContent <$> playPauseBtn (dom (st y)) = Some glyph_pause ∧
   textContent <$> playPauseBtn (dom (st y3)) = Some glyph_play).
Proof. split; vm_compute; split_and!; try done. Qed.

(** A call that passes both guards flips [lastPaused], on either path. *)
Lemma togglePlayPause_accepted_flips now s :
  playbackCommandPending s = false → 500 <= now - lastPlaybackCommandTime s →
  lastPaused (togglePlayPause now s).1 = negb (lastPaused s).
Proof.
  intros Hp Ht.
  destruct (togglePlayPause_optimistic_frame s) as (_&_&_&_&_&_&Hl&_).
  destruct (spotifyPlayer s && opt_truthy (sdkDeviceId s)) eqn:Hs.
  - by rewrite togglePlayPause_sdk.
  - by rewrite togglePlayPause_remote.
Qed.

(** C5. On the remote path the throttle timestamp moves only when the call
    succeeds, and then to the time of the call: it does not move while the
    call is suspended, and a failure leaves it where it was before the call,
    so that a retry at any later time passes both guards again. *)
Theorem toggle_timestamp_on_success_only (y : Sys) (t1 : Z) (es : list Event)
    (i : nat) (now : Z) (r : Reply) (t : Task) (o : Outcome) :
  mutex_inv y →
  playbackCommandPending (st y) = false →
  500 <= t1 - lastPlaybackCommandTime (st y) →
  spotifyPlayer (st y) && opt_truthy (sdkDeviceId (st y)) = false →
  let y1 := step (TogglePlayPause t1) y in
  pending_throughout es y1 →
  let y2 := run es y1 in
  tasks y2 !! i = Some t → is_toggle_task t = true →
  task_settles t r (st y2) = Some o →
  let y3 := step (Resume i now r) y2 in
  lastPlaybackCommandTime (st y2) = lastPlaybackCommandTime (st y) ∧
  playbackCommandPending (st y3) = false ∧
  match o with
  | Fulfilled _ => lastPlaybackCommandTime (st y3) = t1
  | Rejected _ =>
    lastPlaybackCommandTime (st y3) = lastPlaybackCommandTime (st y) ∧
    ∀ t2, t1 <= t2 →
          lastPaused (togglePlayPause t2 (st y3)).1 = negb (lastPaused (st y3))
  end.
Proof.
  intros Hm Hp Ht Hs y1 Hes y2 Hi Htt Ho y3.
  destruct (toggle_settle_step y t1 es i now r t _ Hm Hp Ht Hs Hes Hi Htt Ho)
    as (Hst&Hl2&Hb).
  fold y1 y2 y3 in Hst, Hl2, Hb. rewrite <- Hb in Hst.
  split; [done|]. split; [rewrite Hst; apply togglePlayPause_settle_pending|].
  destruct o as [d|m].
  - by rewrite Hst.
  - destruct (togglePlayPause_settle_rejected t1 (lastPaused (st y)) m (st y2))
      as (_&Hp3&Hl3&_).
    rewrite <- Hst in Hp3, Hl3. split; [congruence|].
    intros t2 Ht2. apply togglePlayPause_accepted_flips; [done|].
    rewrite Hl3, Hl2. lia.
Qed.

(** A play command that fails with a server error, retried 50 ms after the
    failure: the retry is accepted. *)
Lemma toggle_timestamp_on_success_only_witness :
  let r := RHttp (Response 502 (JsonValue (Some (error_body "Bad gateway")))) in
  let y3 := run [TogglePlayPause 1000; Resume 0 1001 some_token; Resume 0 1200 r]
                fresh in
  lastPlaybackCommandTime (st y3) = lastPlaybackCommandTime (st fresh) ∧
  lastPaused (togglePlayPause 1250 (st y3)).1 = negb (lastPaused (st y3)).
Proof.
  intros r y3.
  assert (500 <= 1000 - lastPlaybackCommandTime (st fresh)) as Ht by (simpl; lia).
  destruct (toggle_timestamp_on_success_only fresh 1000 [Resume 0 1001 some_token]
              0 1200 r (TFetch AwaitHttp (KToggle 1000 true true))
              (Rejected "Bad gateway")
              eq_refl eq_refl Ht eq_refl refused_play_pending
              eq_refl eq_refl eq_refl) as (_&_&H1&H2).
  split; [exact H1|]. apply H2. lia.
Defined.

(** C9. With an in-app session ([spotifyPlayer] and [sdkDeviceId] set),
    a call that passes the guards runs to its end without suspending: it
    calls [togglePlay()] and nothing else leaves the renderer, records the
    time of the call, keeps the flipped [lastPaused] and the repainted
    button, and clears the guard.  However the promise of [togglePlay()]
    settles afterwards, nothing of that is undone. *)
Theorem toggle_sdk_commits (now : Z) (s : State) :
  playbackCommandPending s = false →
  500 <= now - lastPlaybackCommandTime s →
  spotifyPlayer s = true → opt_truthy (sdkDeviceId s) = true →
  let s' := (togglePlayPause now s).1 in
  (togglePlayPause now s).2 = [] ∧
  lastPlaybackCommandTime s' = now ∧
  playbackCommandPending s' = false ∧
  lastPaused s' = negb (lastPaused s) ∧
  textContent <$> playPauseBtn (dom s') =
    (λ _, affordance (negb (lastPaused s))) <$> playPauseBtn (dom s) ∧
  log s' = (log s ++ [SdkTogglePlay])%list ∧
  ∀ ok ts, step (SdkToggleSettled ok) {| st := s'; tasks := ts |}
           = {| st := s'; tasks := ts |}.
Proof.
  intros Hp Ht Hs1 Hs2 s'. unfold s'.
  rewrite togglePlayPause_sdk by (by rewrite ?Hs1, ?Hs2).
  cbn [fst snd].
  destruct (togglePlayPause_optimistic_frame s) as (_&_&_&_&_&_&Hl&_).
  split_and!; try done.
  - pose proof (paint_ppBtn_text (set_lastPaused (negb (lastPaused s))
                                    (set_playbackCommandPending true s))) as Hb.
    unfold togglePlayPause_optimistic. cbn [fst].
    change (bool_decide _) with (has_ppBtn s).
    change (has_ppBtn (set_lastPaused _ _)) with (has_ppBtn s) in Hb.
    set (s1 := paint_ppBtn _ _) in *.
    transitivity (textContent <$> playPauseBtn (dom s1)); [|exact Hb].
    destruct (lastPaused s1); [by destruct (progressTimer s1)|done].
  - unfold togglePlayPause_optimistic, paint_ppBtn, clearInterval. cbn [fst].
    destruct (bool_decide _); simpl; destruct (lastPaused s); simpl;
      try destruct (progressTimer s); done.
  - intros ok ts. unfold step. cbn [handler st tasks]. by rewrite app_nil_r.
Qed.

(** The page with an in-app session that has reported ready. *)
Lemma toggle_sdk_commits_witness :
  let s := st (run [SdkSetup; SdkReady "device-1"] fresh) in
  let s' := (togglePlayPause 1000 s).1 in
  (playbackCommandPending s = false ∧ 500 <= 1000 - lastPlaybackCommandTime s ∧
   spotifyPlayer s = true ∧ opt_truthy (sdkDeviceId s) = true) ∧
  lastPlaybackCommandTime s' = 1000 ∧ lastPaused s' = false.
Proof.
  intros s s'.
  assert (500 <= 1000 - lastPlaybackCommandTime s) as Ht by (vm_compute; discriminate).
  split; [split_and!; [reflexivity|exact Ht|reflexivity|reflexivity]|].
  destruct (toggle_sdk_commits 1000 s eq_refl Ht eq_refl eq_refl)
    as (_&H1&_&H2&_).
  split; [exact H1|exact H2].
Defined.

(** ** The optimistic update and the clock *)

(** What [togglePlayPause] has written when it reaches line 254. *)
Lemma togglePlayPause_optimistic_state s :
  let s1 := (togglePlayPause_optimistic s).1.1 in
  lastPaused s1 = negb (lastPaused s) ∧
  textContent <$> playPauseBtn (dom s1) =
    (λ _, affordance (negb (lastPaused s))) <$> playPauseBtn (dom s) ∧
  s1 = (if negb (lastPaused s)
        then clearInterval (progressTimer s)
        else λ x, x)
         (paint_ppBtn (has_ppBtn s)
            (set_lastPaused (negb (lastPaused s))
               (set_playbackCommandPending true s))).
Proof.
  cbv zeta. unfold togglePlayPause_optimistic. cbn [fst].
  change (bool_decide _) with (has_ppBtn s).
  set (s1 := paint_ppBtn (has_ppBtn s) _).
  assert (textContent <$> playPauseBtn (dom s1) =
          (λ _, affordance (negb (lastPaused s))) <$> playPauseBtn (dom s)) as Hb
    by apply (paint_ppBtn_text (set_lastPaused (negb (lastPaused s))
                                  (set_playbackCommandPending true s))).
  assert (lastPaused s1 = negb (lastPaused s) ∧ progressTimer s1 = progressTimer s)
    as [Hl Hpt] by (unfold s1, paint_ppBtn; by destruct (has_ppBtn s)).
  rewrite Hl, Hpt. revert Hb. destruct (negb (lastPaused s)); intros Hb; [|done].
  split_and!; [by destruct (progressTimer s)| |done].
  rewrite <- Hb. by destruct (progressTimer s).
Qed.

(** Up to the timers, the page and [lastPaused], the state a call returns
    is the one of line 254, on either path. *)
Lemma togglePlayPause_accepted_state now s :
  playbackCommandPending s = false →
  500 <= now - lastPlaybackCommandTime s →
  let s' := (togglePlayPause now s).1 in
  let s1 := (togglePlayPause_optimistic s).1.1 in
  lastPaused s' = lastPaused s1 ∧ dom s' = dom s1 ∧ timers s' = timers s1 ∧
  progressTimer s' = progressTimer s1.
Proof.
  intros Hp Ht. cbv zeta.
  destruct (spotifyPlayer s && opt_truthy (sdkDeviceId s)) eqn:Hs.
  - rewrite togglePlayPause_sdk by done. cbn [fst]. repeat split; reflexivity.
  - rewrite togglePlayPause_remote by done. cbn [fst]. repeat split; reflexivity.
Qed.

(** Toggling to paused stops the clock before the call suspends. *)
Lemma togglePlayPause_stops_clock now s :
  playbackCommandPending s = false →
  500 <= now - lastPlaybackCommandTime s →
  lastPaused s = false → clock_inv s →
  clock_stopped (togglePlayPause now s).1.
Proof.
  intros Hp Ht Hpl Hinv.
  destruct (togglePlayPause_accepted_state now s Hp Ht) as (_&_&Et&_).
  destruct (togglePlayPause_optimistic_state s) as (_&_&Hs1).
  set (s1 := (togglePlayPause_optimistic s).1.1) in *.
  rewrite Hpl in Hs1. cbn [negb] in Hs1.
  match type of Hs1 with _ = _ (paint_ppBtn ?b ?x) =>
    set (s0 := paint_ppBtn b x) in * end.
  assert (timers s0 = timers s ∧ progressTimer s0 = progressTimer s) as [Et0 Ep0]
    by (unfold s0, paint_ppBtn; by destruct (has_ppBtn s)).
  assert (clock_inv s0) as Hinv0 by (unfold clock_inv; by rewrite Et0, Ep0).
  pose proof (clock_stopped_clear s0 Hinv0) as Hst. rewrite Ep0, <- Hs1 in Hst.
  unfold clock_stopped. by rewrite Et.
Qed.

(** C7, as the code has it.  A call that passes the guards has, when it
    reaches its [await] (or, with an in-app session, its end), flipped
    [lastPaused] and repainted the button; if it toggles to paused it has
    stopped the clock; if it toggles to playing it has left the timers as
    they were, so a clock that was not running is not started. *)
Theorem toggle_optimistic_update (now : Z) (s : State) :
  playbackCommandPending s = false →
  500 <= now - lastPlaybackCommandTime s →
  let s' := (togglePlayPause now s).1 in
  (spotifyPlayer s && opt_truthy (sdkDeviceId s) = false →
   ∃ req, (togglePlayPause now s).2 =
          [TFetch (AwaitToken req) (KToggle now (lastPaused s) (has_ppBtn s))]) ∧
  lastPaused s' = negb (lastPaused s) ∧
  textContent <$> playPauseBtn (dom s') =
    (λ _, affordance (negb (lastPaused s))) <$> playPauseBtn (dom s) ∧
  (lastPaused s = false → clock_inv s → clock_stopped s') ∧
  (lastPaused s = true →
   timers s' = timers s ∧ progressTimer s' = progressTimer s ∧
   (clock_stopped s → clock_stopped s')).
Proof.
  intros Hp Ht s'.
  destruct (togglePlayPause_optimistic_state s) as (Hl&Hb&Hs1).
  set (s1 := (togglePlayPause_optimistic s).1.1) in *.
  destruct (togglePlayPause_accepted_state now s Hp Ht) as (El&Ed&Et&Ep).
  fold s' s1 in El, Ed, Et, Ep.
  rewrite El, Ed.
  split_and!; try done.
  - intros Hs. rewrite togglePlayPause_remote by done. by eexists.
  - intros Hpl Hinv. by apply togglePlayPause_stops_clock.
  - intros Hpl. rewrite Hpl in Hs1. cbn [negb] in Hs1.
    assert (timers s1 = timers s ∧ progressTimer s1 = progressTimer s) as [Et1 Ep1].
    { rewrite Hs1. unfold paint_ppBtn. by destruct (has_ppBtn s). }
    split_and!; [congruence..|].
    unfold clock_stopped. by rewrite Et, Et1.
Qed.

(** Toggling to paused while the clock runs. *)
Lemma toggle_optimistic_update_witness :
  let s := st (run (playing_poll 5000 200000 1000) fresh) in
  let s' := (togglePlayPause 3000 s).1 in
  (playbackCommandPending s = false ∧ 500 <= 3000 - lastPlaybackCommandTime s ∧
   lastPaused s = false ∧ clock_inv s ∧ ¬ clock_stopped s) ∧
  lastPaused s' = true ∧ clock_stopped s'.
Proof.
  intros s s'.
  assert (500 <= 3000 - lastPlaybackCommandTime s) as Ht by (vm_compute; discriminate).
  assert (clock_inv s) as Hinv by apply run_clock_inv, boot_clock_inv.
  assert (¬ clock_stopped s) as Hrun by (unfold clock_stopped; compute_done).
  split; [split_and!; [reflexivity|exact Ht|reflexivity|exact Hinv|exact Hrun]|].
  destruct (toggle_optimistic_update 3000 s eq_refl Ht) as (_&H1&_&H2&_).
  split; [exact H1|exact (H2 eq_refl Hinv)].
Defined.

(** C7 as stated fails for the clock: toggling to playing on a fresh page,
    the call is suspended at its [await] with the button repainted, and no
    clock has been started. *)
Lemma toggle_optimistic_update_counterexample :
  let s := st fresh in
  let s' := (togglePlayPause 1000 s).1 in
  playbackCommandPending s = false ∧ 500 <= 1000 - lastPlaybackCommandTime s ∧
  lastPaused s = true ∧
  (togglePlayPause 1000 s).2 = [TFetch (AwaitToken play_req) (KToggle 1000 true true)] ∧
  lastPaused s' = false ∧
  textContent <$> playPauseBtn (dom s') = Some glyph_pause ∧
  clock_stopped s'.
Proof.
  cbv zeta. split_and!; done.
Qed.

Lemma settle_quiet k now o s :
  k ≠ KPoll → quiet s (settle k now o s).1.
Proof.
  intros Hk. destruct k as [|tid| |n p b]; [done|..]; cbn [settle fst].
  - destruct o as [d|m]; cbn [getPlaybackDeviceId_settle].
    + apply playTrack_device_frame.
    + match goal with |- context [playTrack_device tid None ?x] =>
        destruct (playTrack_device_frame tid None x) as (_&_&_&?&_) end.
      eapply quiet_trans; [|done]. by apply benign_emit.
  - apply playTrack_settle_frame.
  - apply togglePlayPause_settle_frame.
Qed.

(** The only turn that starts the clock is the one in which a poll settles
    on a snapshot with a track that is playing. *)
Lemma step_clock_start e z :
  clock_stopped (st z) →
  clock_stopped (st (step e z)) ∨
  ∃ j now r stage state track,
    e = Resume j now r ∧ tasks z !! j = Some (TFetch stage KPoll) ∧
    settles stage r (st z) = Some (Fulfilled state) ∧
    state ≫= item = Some track ∧ from_option is_playing false state = true.
Proof.
  intros Hs.
  assert ((∀ i now r, e ≠ Resume i now r) → clock_stopped (st (step e z))) as Hh.
  { intros He. rewrite step_handler by done. cbn [st].
    destruct (restarts_polling e) eqn:Hr.
    - destruct e; try done; cbn [handler fst].
      + by apply clock_stopped_startPolling, clock_inv_stopped.
      + by apply clock_stopped_stopPolling, clock_inv_stopped.
    - eapply clock_stopped_quiet; [by apply handler_quiet|done]. }
  destruct e as [now|now tid|now tid| | | |i now| |dev| |state|ok|i now r];
    try (left; by apply Hh).
  clear Hh.
  destruct (step_resume i now r z) as [->|(t&s'&new&Ht&Hr&->)]; [by left|].
  cbn [st].
  apply resume_cases in Hr as [(req&k&->&->&->)|[(k&o&(stage&->&Ho)&Hst)|(tid&dev&->&Hst)]].
  - left. eapply clock_stopped_quiet; [|done]. by apply benign_emit.
  - assert (s' = (settle k now o (st z)).1) as -> by by rewrite <- Hst.
    assert (k = KPoll ∨ k ≠ KPoll) as [->|Hk] by (destruct k; auto);
      [|left; eapply clock_stopped_quiet; [by apply settle_quiet|done]].
    cbn [settle fst].
    destruct o as [state|m];
      [|left; eapply clock_stopped_quiet; [by apply pollPlaybackState_settle_quiet|done]].
    destruct (state ≫= item) as [track|] eqn:Hi;
      [|left; eapply clock_stopped_quiet; [|done];
        apply pollPlaybackState_settle_quiet; intros ? ? [= <-]; congruence].
    destruct (from_option is_playing false state) eqn:Hpl.
    + right. by exists i, now, r, stage, state, track.
    + left. eapply clock_stopped_quiet; [|done].
      apply pollPlaybackState_settle_quiet. intros ? ? [= <-]. congruence.
  - left. assert (s' = (playTrack_device tid dev (st z)).1) as -> by by rewrite <- Hst.
    eapply clock_stopped_quiet; [apply playTrack_device_frame|done].
Qed.

(** C10. [togglePlayPause] called while playing ([lastPaused] false),
    through the remote API, whose pause call fails: the call stops the clock
    before its [await]; the rollback restores [lastPaused] and repaints the
    button from it, so the button reads the pause glyph, which is the text
    it had before the call whenever it then agreed with [lastPaused]; the
    rollback touches no timer, so a clock that is stopped when the call
    settles stays stopped; and from a stopped clock the only turn that
    starts it again is a poll that settles on a playing snapshot. *)
Theorem toggle_pause_failure_clock (y : Sys) (t1 : Z) (es : list Event)
    (i : nat) (now : Z) (r : Reply) (t : Task) (m : string) :
  mutex_inv y → clock_inv (st y) →
  playbackCommandPending (st y) = false →
  500 <= t1 - lastPlaybackCommandTime (st y) →
  spotifyPlayer (st y) && opt_truthy (sdkDeviceId (st y)) = false →
  lastPaused (st y) = false →
  let y1 := step (TogglePlayPause t1) y in
  pending_throughout es y1 →
  let y2 := run es y1 in
  tasks y2 !! i = Some t → is_toggle_task t = true →
  task_settles t r (st y2) = Some (Rejected m) →
  let y3 := step (Resume i now r) y2 in
  clock_stopped (st y1) ∧
  lastPaused (st y3) = false ∧
  textContent <$> playPauseBtn (dom (st y3)) =
    (λ _, glyph_pause) <$> playPauseBtn (dom (st y)) ∧
  ((∀ b, playPauseBtn (dom (st y)) = Some b → textContent b = glyph_pause) →
   textContent <$> playPauseBtn (dom (st y3)) =
     textContent <$> playPauseBtn (dom (st y))) ∧
  timers (st y3) = timers (st y2) ∧
  progressTimer (st y3) = progressTimer (st y2) ∧
  (clock_stopped (st y2) → clock_stopped (st y3)) ∧
  (∀ z e, clock_stopped (st z) → ¬ clock_stopped (st (step e z)) →
     ∃ j now' r' stage state track,
       e = Resume j now' r' ∧ tasks z !! j = Some (TFetch stage KPoll) ∧
       settles stage r' (st z) = Some (Fulfilled state) ∧
       state ≫= item = Some track ∧ from_option is_playing false state = true).
Proof.
  intros Hm Hinv Hp Ht Hs Hl y1 Hes y2 Hi Htt Ho y3.
  destruct (toggle_settle_step y t1 es i now r t _ Hm Hp Ht Hs Hes Hi Htt Ho)
    as (Hst&_&Hb).
  fold y1 y2 y3 in Hst, Hb. rewrite Hl, <- Hb in Hst.
  destruct (togglePlayPause_settle_rejected t1 false m (st y2))
    as (?&_&_&Et&Ep&Hbtn&_).
  rewrite <- Hst in *.
  assert (textContent <$> playPauseBtn (dom (st y3)) =
          (λ _, glyph_pause) <$> playPauseBtn (dom (st y))) as Htext.
  { rewrite Hbtn. unfold has_ppBtn in Hb.
    destruct (playPauseBtn (dom (st y2))), (playPauseBtn (dom (st y)));
      try done; by cbv in Hb. }
  split_and!; try done.
  - unfold y1. rewrite step_handler by done. cbn [handler st].
    by apply togglePlayPause_stops_clock.
  - intros Hagree. rewrite Htext.
    destruct (playPauseBtn (dom (st y))) as [b|]; [|done].
    cbn. by rewrite (Hagree b eq_refl).
  - unfold clock_stopped. by rewrite Et.
  - intros z e Hz Hnz. by destruct (step_clock_start e z Hz).
Qed.

Lemma pause_in_flight :
  pending_throughout [Resume 0 3001 some_token]
    (step (TogglePlayPause 3000) (run (playing_poll 5000 200000 1000) fresh)).
Proof. by vm_compute. Qed.

(** A pause that the service answers with a server error, while a track is
    playing and the clock runs. *)
Lemma toggle_pause_failure_clock_witness :
  let y := run (playing_poll 5000 200000 1000) fresh in
  let r := RHttp (Response 502 (JsonValue (Some (error_body "Bad gateway")))) in
  let y3 := step (Resume 0 3200 r)
              (run [Resume 0 3001 some_token] (step (TogglePlayPause 3000) y)) in
  (lastPaused (st y) = false ∧ ¬ clock_stopped (st y)) ∧
  lastPaused (st y3) = false ∧
  textContent <$> playPauseBtn (dom (st y3)) = Some glyph_pause ∧
  clock_stopped (st y3).
Proof.
  intros y r y3.
  assert (500 <= 3000 - lastPlaybackCommandTime (st y)) as Ht by (vm_compute; discriminate).
  assert (clock_inv (st y)) as Hinv by apply run_clock_inv, boot_clock_inv.
  assert (mutex_inv y) as Hm by apply mutex_inv_run, mutex_inv_boot.
  assert (¬ clock_stopped (st y)) as Hrun by (unfold clock_stopped; compute_done).
  destruct (toggle_pause_failure_clock y 3000 [Resume 0 3001 some_token] 0 3200 r
              (TFetch AwaitHttp (KToggle 3000 false true)) "Bad gateway"
              Hm Hinv eq_refl Ht eq_refl eq_refl pause_in_flight
              eq_refl eq_refl eq_refl) as (_&H1&H2&_&_&_&H3&_).
  split; [split; [reflexivity|exact Hrun]|].
  split; [exact H1|]. split; [exact H2|]. apply H3.
  unfold clock_stopped. compute_done.
Defined.

(** C10 as stated fails on the button text.  After a poll has painted a
    paused track and the in-app player has reported, without a repaint, that
    the track plays, the button reads the play glyph while [lastPaused] is
    false; a pause command that fails from there restores [lastPaused], and
    leaves the button on the pause glyph, which it did not read before. *)
Lemma toggle_pause_failure_clock_counterexample :
  let y := run stale_pause_button fresh in
  let y1 := step (TogglePlayPause 5000) y in
  let y2 := run [Resume 0 5001 some_token] y1 in
  let r := RHttp (Response 502 (JsonValue (Some (error_body "Bad gateway")))) in
  let y3 := step (Resume 0 5200 r) y2 in
  (mutex_inv y ∧ clock_inv (st y) ∧
   playbackCommandPending (st y) = false ∧
   500 <= 5000 - lastPlaybackCommandTime (st y) ∧
   spotifyPlayer (st y) && opt_truthy (sdkDeviceId (st y)) = false ∧
   lastPaused (st y) = false ∧
   pending_throughout [Resume 0 5001 some_token] y1 ∧
   tasks y2 !! 0%nat = Some (TFetch AwaitHttp (KToggle 5000 false true)) ∧
   task_settles (TFetch AwaitHttp (KToggle 5000 false true)) r (st y2)
     = Some (Rejected "Bad gateway")) ∧
  y3 = run failed_pause y ∧
  textContent <$> playPauseBtn (dom (st y)) = Some glyph_play ∧
  lastPaused (st y3) = false ∧
  textContent <$> playPauseBtn (dom (st y3)) = Some glyph_pause ∧
  textContent <$> playPauseBtn (dom (st y3)) ≠
    textContent <$> playPauseBtn (dom (st y)).
Proof.
  intros y y1 y2 r y3.
  assert (mutex_inv y) as Hm by apply mutex_inv_run, mutex_inv_boot.
  assert (clock_inv (st y)) as Hinv by apply run_clock_inv, boot_clock_inv.
  split; [split; [exact Hm|split; [exact Hinv|]]|];
    vm_compute; split_and!; done.
Qed.

(** ** The interpolation clock *)

Lemma step_progressTick i now y :
  timers (st y) !! i = Some ProgressInterval →
  step (TimerFires i now) y = {| st := progressTick now (st y); tasks := tasks y |}.
Proof.
  intros Hi. rewrite step_handler by done. cbn [handler]. unfold timerFires.
  rewrite Hi. cbn [fst snd]. by rewrite app_nil_r.
Qed.

(** C3. In any state the renderer can reach, a tick of the live clock
    computes [pos = pollSyncPos + (now - pollSyncAt)].  If [pos] is at most
    [pollDuration] it paints [pos] and changes nothing else; on a tick with
    [pos] beyond [pollDuration] it paints nothing and removes its own timer,
    after which no clock is left and a late tick of that timer does nothing.
    So whatever a tick paints is at most the duration. *)
Theorem interpolation_bound (d : Dom) (lib : list LibTrack) (es : list Event)
    (i : nat) (now : Z) :
  let y := run es (boot d lib) in
  timers (st y) !! i = Some ProgressInterval →
  let s := st y in
  let y' := step (TimerFires i now) y in
  let pos := pollSyncPos s + (now - pollSyncAt s) in
  tasks y' = tasks y ∧
  (pos <= pollDuration s →
     st y' = updateProgressEl pos (pollDuration s) s ∧
     timers (st y') !! i = Some ProgressInterval ∧
     (is_Some (progress (dom s)) →
      progress (dom (st y')) = Some (ProgressAt pos (pollDuration s)))) ∧
  (pollDuration s < pos →
     dom (st y') = dom s ∧ clock_stopped (st y') ∧
     ∀ now', step (TimerFires i now') y' = y') ∧
  (∀ p dur, progress (dom (st y')) = Some (ProgressAt p dur) →
            progress (dom (st y')) ≠ progress (dom s) → p <= dur).
Proof.
  intros y Hi s y' pos.
  assert (clock_inv s) as Hinv by apply run_clock_inv, boot_clock_inv.
  unfold y'. rewrite (step_progressTick i now y Hi). cbn [st tasks].
  fold s. unfold progressTick. fold pos.
  destruct (Z.leb_spec pos (pollDuration s)) as [Hle|Hgt].
  - split_and!; [done| |intros; lia|].
    + intros _. unfold updateProgressEl.
      destruct (progress (dom s)) eqn:Hpr; simpl; rewrite ?Hpr; split_and!;
        try done; by intros [? ?].
    + intros p dur. unfold updateProgressEl.
      destruct (progress (dom s)) eqn:Hpr; simpl; rewrite ?Hpr; [|done].
      intros [= <- <-] _. done.
  - split_and!; [done|intros; lia| |].
    + intros _. pose proof (clock_stopped_clear s Hinv) as Hst.
      rewrite (Hinv i Hi) in *. split_and!; [done..|].
      intros now'. rewrite step_handler by done. cbn [handler st].
      unfold timerFires. simpl. rewrite lookup_delete_eq. simpl.
      by rewrite app_nil_r.
    + intros p dur Hp Hne. exfalso. apply Hne.
      by destruct (progressTimer s).
Qed.

(** The scenario of the specification: a snapshot at position 5000 of
    200000, sampled at time 1000; two seconds later the clock paints 7000. *)
Lemma interpolation_bound_witness :
  let y := run (playing_poll 5000 200000 1000) fresh in
  timers (st y) !! 1%nat = Some ProgressInterval ∧
  progress (dom (st (step (TimerFires 1 3000) y)))
    = Some (ProgressAt 7000 200000) ∧
  7000 <= 200000.
Proof.
  intros y.
  assert (timers (st y) !! 1%nat = Some ProgressInterval) as Hi by by vm_compute.
  destruct (interpolation_bound (page_logged_in []) [] (playing_poll 5000 200000 1000)
              1 3000 Hi) as (_&H1&_&_).
  assert (pollSyncPos (st y) + (3000 - pollSyncAt (st y)) <= pollDuration (st y))
    as Hle by (vm_compute; discriminate).
  destruct (H1 Hle) as (_&_&H2).
  split; [exact Hi|]. split; [|lia].
  apply H2. by eexists.
Defined.

(** ** The throttle of [playTrack] *)

Lemma playTrack_rejected now trackId s :
  playTrackPending s = true ∨ now - lastPlayTrackTime s < 500 →
  playTrack now trackId s = (s, []).
Proof.
  intros [H|H]; unfold playTrack; [by rewrite H|].
  destruct (playTrackPending s); [done|].
  by rewrite (proj2 (Z.ltb_lt _ _) H).
Qed.

Lemma playTrack_accepted now trackId s :
  playTrackPending s = false → 500 <= now - lastPlayTrackTime s →
  playTrackPending (playTrack now trackId s).1 = true ∧
  lastPlayTrackTime (playTrack now trackId s).1 = now ∧
  length (playTrack now trackId s).2 = 1%nat.
Proof.
  intros Hp Ht. unfold playTrack. rewrite Hp, (proj2 (Z.ltb_ge _ _) Ht).
  by case_match.
Qed.

Lemma playTrack_time now trackId s :
  lastPlayTrackTime (playTrack now trackId s).1 = lastPlayTrackTime s ∨
  (playTrackPending s = false ∧ 500 <= now - lastPlayTrackTime s ∧
   lastPlayTrackTime (playTrack now trackId s).1 = now).
Proof.
  destruct (playTrackPending s) eqn:Hp;
    [left; by rewrite playTrack_rejected by auto|].
  destruct (decide (now - lastPlayTrackTime s < 500)) as [Ht|Ht];
    [left; by rewrite playTrack_rejected by auto|].
  right. split; [done|]. split; [lia|]. apply playTrack_accepted; [done|lia].
Qed.

Lemma togglePlayPause_keeps_playTrack now s :
  keeps_playTrack s (togglePlayPause now s).1.
Proof.
  destruct (togglePlayPause_optimistic_frame s) as (_&[? ?]&_).
  destruct (togglePlayPause_cases now s) as [->|(_&_&[[_ ->]|[_ ->]])];
    by split.
Qed.

Lemma handler_playTrack_time e s :
  lastPlayTrackTime (handler e s).1 = lastPlayTrackTime s ∨
  ∃ now trackId, (e = PlayTrack now trackId ∨ e = ClickCard now trackId) ∧
    playTrackPending s = false ∧ 500 <= now - lastPlayTrackTime s ∧
    lastPlayTrackTime (handler e s).1 = now.
Proof.
  destruct e as [now|now tid|now tid| | | |i now| |dev| |state|ok|i now r];
    cbn [handler].
  - left. apply togglePlayPause_keeps_playTrack.
  - destruct (playTrack_time now tid s) as [?|?]; [by left|right].
    exists now, tid. by split; [left|].
  - case_match; [left; apply togglePlayPause_keeps_playTrack|].
    destruct (playTrack_time now tid s) as [?|?]; [by left|right].
    exists now, tid. by split; [right|].
  - by left.
  - left. apply startPolling_frame.
  - left. apply stopPolling_frame.
  - left. apply timerFires_frame.
  - by left.
  - left. cbn [fst].
    match goal with |- context [setStatus ?a ?b ?x] =>
      by destruct (benign_setStatus a b x) as (_&_&[_ ?]&_) end.
  - by left.
  - left. apply benign_sdkStateChanged.
  - by left.
  - by left.
Qed.

Lemma settle_playTrack_time k now o s :
  lastPlayTrackTime (settle k now o s).1 = lastPlayTrackTime s.
Proof.
  destruct k as [|tid| |n p b]; cbn [settle fst].
  - apply pollPlaybackState_settle_frame.
  - destruct o as [d|m]; cbn [getPlaybackDeviceId_settle].
    + apply playTrack_device_frame.
    + match goal with |- context [playTrack_device tid None ?x] =>
        by destruct (playTrack_device_frame tid None x) as (_&_&_&_&->) end.
  - apply playTrack_settle_frame.
  - apply togglePlayPause_settle_frame.
Qed.

(** [lastPlayTrackTime] moves only when a [playTrack] call passes both
    guards, and then to the time of that call. *)
Lemma step_playTrack_time e y :
  lastPlayTrackTime (st (step e y)) = lastPlayTrackTime (st y) ∨
  ∃ now trackId, (e = PlayTrack now trackId ∨ e = ClickCard now trackId) ∧
    playTrackPending (st y) = false ∧ 500 <= now - lastPlayTrackTime (st y) ∧
    lastPlayTrackTime (st (step e y)) = now.
Proof.
  destruct e as [now|now tid|now tid| | | |i now| |dev| |state|ok|i now r];
    try (rewrite step_handler by done; apply handler_playTrack_time).
  left. destruct (step_resume i now r y) as [->|(t&s'&new&Ht&Hr&->)]; [done|].
  cbn [st].
  apply resume_cases in Hr as [(req&k&->&->&->)|[(k&o&_&Hst)|(tid&dev&->&Hst)]].
  - done.
  - pose proof (settle_playTrack_time k now o (st y)) as H. by rewrite <- Hst in H.
  - destruct (playTrack_device_frame tid dev (st y)) as (_&_&_&_&H).
    by rewrite <- Hst in H.
Qed.

(** C4, as the code has it.  [playTrack] is a no-op while another
    [playTrack] call is pending, or when less than 500 ms have passed since
    the time recorded in [lastPlayTrackTime]; otherwise it is accepted and
    records its own time of call.  That record is written by nothing else,
    so it is the time at which the latest accepted call began, not the time
    at which it completed.  With a call accepted at [t0] and no longer
    pending, a call at [t0 + 400] is a no-op and one at [t0 + 600] is
    accepted. *)
Theorem playTrack_throttle (now : Z) (trackId : string) (s : State) :
  (playTrackPending s = true ∨ now - lastPlayTrackTime s < 500 →
   playTrack now trackId s = (s, [])) ∧
  (playTrackPending s = false → 500 <= now - lastPlayTrackTime s →
   playTrackPending (playTrack now trackId s).1 = true ∧
   lastPlayTrackTime (playTrack now trackId s).1 = now ∧
   length (playTrack now trackId s).2 = 1%nat) ∧
  (∀ e y, lastPlayTrackTime (st (step e y)) ≠ lastPlayTrackTime (st y) →
     ∃ t x, (e = PlayTrack t x ∨ e = ClickCard t x) ∧
            playTrackPending (st y) = false ∧
            500 <= t - lastPlayTrackTime (st y) ∧
            lastPlayTrackTime (st (step e y)) = t) ∧
  (∀ t0, playTrackPending s = false → lastPlayTrackTime s = t0 →
     playTrack (t0 + 400) "Y" s = (s, []) ∧
     playTrackPending (playTrack (t0 + 600) "Y" s).1 = true ∧
     lastPlayTrackTime (playTrack (t0 + 600) "Y" s).1 = t0 + 600).
Proof.
  split_and!.
  - apply playTrack_rejected.
  - apply playTrack_accepted.
  - intros e y Hne. by destruct (step_playTrack_time e y).
  - intros t0 Hp Ht. split_and!.
    + apply playTrack_rejected. right. lia.
    + apply playTrack_accepted; [done|lia].
    + apply playTrack_accepted; [done|lia].
Qed.

(** [playTrack("X")] accepted at 1000 and answered at 1030; then "Y" at
    1400 and at 1600. *)
Lemma playTrack_throttle_witness :
  let s := st (run prompt_playTrack fresh) in
  (playTrackPending s = false ∧ lastPlayTrackTime s = 1000) ∧
  playTrack (1000 + 400) "Y" s = (s, []) ∧
  playTrackPending (playTrack (1000 + 600) "Y" s).1 = true.
Proof.
  intros s.
  assert (playTrackPending s = false) as Hp by reflexivity.
  assert (lastPlayTrackTime s = 1000) as Ht by reflexivity.
  destruct (playTrack_throttle 0 "Y" s) as (_&_&_&H).
  destruct (H 1000 Hp Ht) as (H1&H2&_).
  split; [split; [exact Hp|exact Ht]|]. split; [exact H1|exact H2].
Defined.

(** C4 as stated measures the 500 ms from the completion of the previous
    call.  Here "X" is accepted at 1000 and completes at 1450; "Y" at 1600
    comes 150 ms after that completion and is accepted all the same. *)
Lemma playTrack_throttle_counterexample :
  let y := run slow_playTrack fresh in
  let y' := step (PlayTrack 1600 "Y") y in
  playTrackPending (st y) = false ∧
  tasks y = [] ∧
  1600 - 1450 < 500 ∧
  playTrackPending (st y') = true ∧
  lastPlayTrackTime (st y') = 1600 ∧
  tasks y' = [TPlayTrackDevice "Y" (Some "device-1")] ∧
  y' ≠ y.
Proof. vm_compute. split_and!; done. Qed.

(** ** The device resolver *)

Lemma pickDevice_spec l :
  pickDevice l = match find is_active l with
                 | Some d => device_id d
                 | None => match l with
                           | d :: _ => device_id d
                           | [] => None
                           end
                 end.
Proof. unfold pickDevice. destruct (find is_active l); [done|]. by destruct l. Qed.

Lemma spotifyFetch_outcome_dom req tok http s :
  dom (spotifyFetch_outcome req tok http s).1 = dom s.
Proof.
  unfold spotifyFetch_outcome.
  by destruct (spotifyFetch_token_cases req tok s) as [[o ->]| ->].
Qed.

(** C6. [getPlaybackDeviceId] returns the in-app session's device id when
    there is one, without asking the service.  Otherwise it asks for the
    device list and returns the id of the first device flagged active, or of
    the first device when none is flagged, or [null] when the list is empty.
    A failed lookup returns [null] as well, leaving only a console message,
    and [playTrack] then reports the same "no device" status as for an empty
    list.  For [a (inactive), b (active)] the result is [b]. *)
Theorem device_resolver :
  (∀ s tok http d, sdkDeviceId s = Some d → d ≠ "" →
     getPlaybackDeviceId tok http s = (s, Some d)) ∧
  (∀ s tok http data,
     opt_truthy (sdkDeviceId s) = false →
     (spotifyFetch_outcome devices_req tok http
        (spotifyFetch_call devices_req s)).2 = Fulfilled data →
     let l := getDevices_result data in
     (getPlaybackDeviceId tok http s).2 =
       match find is_active l with
       | Some d => device_id d
       | None => match l with d :: _ => device_id d | [] => None end
       end ∧
     (l = [] → (getPlaybackDeviceId tok http s).2 = None)) ∧
  (∀ s tok http m,
     opt_truthy (sdkDeviceId s) = false →
     (spotifyFetch_outcome devices_req tok http
        (spotifyFetch_call devices_req s)).2 = Rejected m →
     (getPlaybackDeviceId tok http s).2 = None ∧
     dom (getPlaybackDeviceId tok http s).1 = dom s) ∧
  (∀ trackId now m s,
     let failed := (settle (KPlayTrackDevices trackId) now (Rejected m) s).1 in
     let empty := (settle (KPlayTrackDevices trackId) now
                     (Fulfilled (Some (devices_body []))) s).1 in
     shows_error no_device_text failed ∧ shows_error no_device_text empty ∧
     playTrackPending failed = false ∧ playTrackPending empty = false ∧
     (settle (KPlayTrackDevices trackId) now (Rejected m) s).2 = []) ∧
  pickDevice [ {| device_id := Some "a"; is_active := false |};
               {| device_id := Some "b"; is_active := true |} ] = Some "b" ∧
  pickDevice [] = None.
Proof.
  split_and!; try done.
  - intros s tok http d Hd Hne. unfold getPlaybackDeviceId. rewrite Hd.
    by destruct d.
  - intros s tok http data Hs Ho l. unfold getPlaybackDeviceId. rewrite Hs.
    destruct (spotifyFetch_outcome _ _ _ _) as [s1 o]. simpl in Ho. subst o.
    cbn [getPlaybackDeviceId_settle snd]. fold l. rewrite pickDevice_spec.
    split; [done|]. by intros ->.
  - intros s tok http m Hs Ho. unfold getPlaybackDeviceId. rewrite Hs.
    pose proof (spotifyFetch_outcome_dom devices_req tok http
                  (spotifyFetch_call devices_req s)) as Hd.
    destruct (spotifyFetch_outcome _ _ _ _) as [s1 o]. simpl in Ho, Hd. subst o.
    by cbn [getPlaybackDeviceId_settle fst snd].
Qed.

Lemma device_resolver_witness :
  let s := st fresh in
  let http := Response 200 (JsonValue (Some (devices_body
                [ {| device_id := Some "a"; is_active := false |};
                  {| device_id := Some "b"; is_active := true |} ]))) in
  opt_truthy (sdkDeviceId s) = false ∧
  (getPlaybackDeviceId (Token (Some "BQD-token")) http s).2 = Some "b".
Proof.
  intros s http. split; [reflexivity|].
  destruct device_resolver as (_&H&_).
  destruct (H s (Token (Some "BQD-token")) http _ eq_refl eq_refl) as [H1 _].
  exact H1.
Defined.

(** ** A poll that finds nothing loaded *)

(** C8. When a poll's request is answered successfully with nothing loaded
    (no body, or a body without an item), the turn that resumes the poll
    cancels the timer held in [progressTimer] and changes nothing else: the
    page, the sync baseline, [lastTrackId], [lastPaused] and the log are as
    before, and no clock is left running. *)
Theorem idle_poll_nondestructive (y : Sys) (i : nat) (now : Z)
    (http : HttpReply) (state : option Body) :
  tasks y !! i = Some (TFetch AwaitHttp KPoll) →
  spotifyFetch_http http = Fulfilled state →
  state ≫= item = None →
  let s := st y in
  let y' := step (Resume i now (RHttp http)) y in
  st y' = clearInterval (progressTimer s) s ∧
  tasks y' = delete i (tasks y) ∧
  dom (st y') = dom s ∧
  (pollSyncPos (st y'), pollSyncAt (st y'), pollDuration (st y'))
    = (pollSyncPos s, pollSyncAt s, pollDuration s) ∧
  lastTrackId (st y') = lastTrackId s ∧
  lastPaused (st y') = lastPaused s ∧
  progressTimer (st y') = progressTimer s ∧
  log (st y') = log s ∧
  (∀ j, progressTimer s ≠ Some j → timers (st y') !! j = timers s !! j) ∧
  (clock_inv s → clock_stopped (st y')).
Proof.
  intros Ht Hh Hi s y'.
  assert (settles AwaitHttp (RHttp http) s = Some (Fulfilled state)) as Ho
    by (simpl; by rewrite Hh).
  unfold y'. rewrite (step_resume_settles _ _ _ _ _ _ _ Ht Ho).
  cbn [st tasks settle fst snd]. unfold pollPlaybackState_settle. rewrite Hi.
  fold s. rewrite app_nil_r.
  clearbody s. clear Ho.
  split_and!; try done;
    try (by destruct (progressTimer s) eqn:E; simpl; rewrite ?E).
  - intros j Hj. destruct (progressTimer s) as [k|]; [|done]. simpl.
    apply lookup_delete_ne. congruence.
  - apply clock_stopped_clear.
Qed.

(** A 204 answer while a track is shown and the clock runs. *)
Lemma idle_poll_nondestructive_witness :
  let y := run [PollPlaybackState; Resume 0 3001 some_token]
             (run (playing_poll 5000 200000 1000) fresh) in
  let http := Response 204 (JsonThrows "Unexpected end of JSON input") in
  let y' := step (Resume 0 3100 (RHttp http)) y in
  (tasks y !! 0%nat = Some (TFetch AwaitHttp KPoll) ∧ ¬ clock_stopped (st y)) ∧
  nowPlaying (dom (st y')) =
    Some (NowPlayingTrack "Sing, Sing, Sing" "Benny Goodman") ∧
  clock_stopped (st y').
Proof.
  intros y http y'.
  assert (tasks y !! 0%nat = Some (TFetch AwaitHttp KPoll)) as Ht by reflexivity.
  assert (clock_inv (st y)) as Hinv by (do 2 apply run_clock_inv; apply boot_clock_inv).
  assert (¬ clock_stopped (st y)) as Hrun by (unfold clock_stopped; compute_done).
  destruct (idle_poll_nondestructive y 0 3100 http None Ht eq_refl eq_refl)
    as (_&_&Hd&_&_&_&_&_&_&Hc).
  split; [split; [exact Ht|exact Hrun]|].
  split; [|exact (Hc Hinv)].
  unfold y'. rewrite Hd. reflexivity.
Defined.
(** * Further properties of the renderer *)

(** ** Formatting *)

Lemma padStart_two_digits (n : Z) :
  0 <= n < 60 → padStart 2 "0" (pretty n) = two_digits n.
Proof.
  intros Hn. assert (∃ k : nat, (k < 60)%nat ∧ n = Z.of_nat k) as (k&Hk&->).
  { exists (Z.to_nat n). split; lia. }
  clear Hn. do 60 (destruct k as [|k]; [by vm_compute|]). lia.
Qed.

(** A negative remainder is printed with its sign and takes two characters
    or more, so nothing is padded. *)
Lemma padStart_negative (n : Z) :
  -60 < n < 0 → padStart 2 "0" (pretty n) = pretty n.
Proof.
  intros Hn. assert (∃ k : nat, (k < 59)%nat ∧ n = - Z.of_nat (S k)) as (k&Hk&->).
  { exists (Z.to_nat (- n - 1)). split; lia. }
  clear Hn. do 59 (destruct k as [|k]; [by vm_compute|]). lia.
Qed.

Lemma pretty_N_go_app (x : N) (s t : string) :
  pretty_N_go x (s ++ t) = pretty_N_go x s ++ t.
Proof.
  revert s. induction (N.lt_wf_0 x) as [x _ IH]; intros s.
  destruct (decide (x = 0%N)) as [->|Hx]; [by rewrite !pretty_N_go_0|].
  rewrite (pretty_N_go_step x (s ++ t)), (pretty_N_go_step x s) by lia.
  assert (x `div` 10 < x)%N as Hlt by (apply N.div_lt; lia).
  exact (IH _ Hlt (String (pretty_N_char (x `mod` 10)) s)).
Qed.

(** A negative number is printed as a dash followed by a digit. *)
Lemma pretty_negative_no_dash (m : Z) (rest : string) :
  m < 0 → pretty m ++ ":" ++ rest ≠ "--:--".
Proof.
  intros Hm. destruct m as [|p|p]; [lia..|].
  change (pretty (Z.neg p)) with ("-" +:+ pretty (N.pos p)).
  unfold pretty, pretty_N. rewrite decide_False by done.
  intros H. simpl in H. injection H as H.
  change (pretty_N_go (N.pos p) "" ++ (":" ++ rest) = "-:--") in H.
  rewrite <- pretty_N_go_app in H.
  by apply (pretty_N_go_ne_dash (N.pos p) (":" ++ rest) ":--").
Qed.

(** X1. [fmtMs] on the positions it formats exactly.  A position of less
    than one second, from 0 on, is shown as "--:--", not as "0:00"; from one
    second on it is the minutes, a colon and the seconds within the minute as
    exactly two digits.  A negative position, which the clock hands over
    when the wall clock has stepped back, is not shown as "--:--": the minute
    count is negative and rounded down, and the seconds keep the sign of the
    position, as in "-1:-1" for one millisecond before the start. *)
Theorem fmtMs_format (ms : Z) :
  safe_integer ms →
  (0 <= ms < 1000 → fmtMs ms = "--:--") ∧
  (1000 <= ms →
   fmtMs ms = pretty (ms / 60000) ++ ":" ++ two_digits ((ms / 1000) mod 60) ∧
   String.length (two_digits ((ms / 1000) mod 60)) = 2%nat) ∧
  (ms < 0 →
   fmtMs ms = pretty (ms / 60000) ++ ":" ++ seconds_field (Z.rem (ms / 1000) 60) ∧
   ms / 60000 < 0 ∧ -60 < Z.rem (ms / 1000) 60 <= 0 ∧
   fmtMs ms ≠ "--:--").
Proof.
  intros _. unfold fmtMs, fmtDuration. split_and!.
  - intros Hms. by rewrite Z.div_small.
  - intros Hms.
    assert (1 <= ms / 1000) as Hs by (apply Z.div_le_lower_bound; lia).
    destruct (Z.eqb_spec (ms / 1000) 0) as [?|_]; [lia|].
    assert (0 <= (ms / 1000) mod 60 < 60) as Hr by (apply Z.mod_pos_bound; lia).
    rewrite Z.rem_mod_nonneg by lia.
    rewrite padStart_two_digits by done.
    rewrite Z.div_div by lia. change (1000 * 60) with 60000.
    split; [done|].
    rewrite <- padStart_two_digits by done.
    assert (∃ k : nat, (k < 60)%nat ∧ (ms / 1000) mod 60 = Z.of_nat k) as (k&Hk&->).
    { exists (Z.to_nat ((ms / 1000) mod 60)). split; lia. }
    do 60 (destruct k as [|k]; [by vm_compute|]). lia.
  - intros Hms.
    assert (ms / 1000 < 0) as Hs by (apply Z.div_lt_upper_bound; lia).
    destruct (Z.eqb_spec (ms / 1000) 0) as [?|_]; [lia|].
    assert (-60 < Z.rem (ms / 1000) 60 <= 0) as Hr
      by (apply (Z.rem_bound_pos_neg (ms / 1000) 60); lia).
    assert (ms / 60000 < 0) as Hm by (apply Z.div_lt_upper_bound; lia).
    rewrite Z.div_div by lia. change (1000 * 60) with 60000.
    assert (padStart 2 "0" (pretty (Z.rem (ms / 1000) 60))
            = seconds_field (Z.rem (ms / 1000) 60)) as ->.
    { unfold seconds_field.
      destruct (Z.ltb_spec (Z.rem (ms / 1000) 60) 0).
      - apply padStart_negative. lia.
      - apply padStart_two_digits. lia. }
    split_and!; [done|done|lia|lia|]. by apply pretty_negative_no_dash.
Qed.

(** Just under a second, three minutes and seven seconds, and one
    millisecond before the start. *)
Lemma fmtMs_format_witness :
  (safe_integer 999 ∧ 0 <= 999 < 1000) ∧ (safe_integer 187000 ∧ 1000 <= 187000) ∧
  (safe_integer (-1) ∧ -1 < 0) ∧
  fmtMs 999 = "--:--" ∧ fmtMs 187000 = "3:07" ∧ fmtMs (-1) = "-1:-1".
Proof.
  assert (safe_integer 999) as S1 by (unfold safe_integer, MAX_SAFE_INTEGER; lia).
  assert (safe_integer 187000) as S2 by (unfold safe_integer, MAX_SAFE_INTEGER; lia).
  assert (safe_integer (-1)) as S3 by (unfold safe_integer, MAX_SAFE_INTEGER; lia).
  destruct (fmtMs_format 999 S1) as (H1&_&_).
  destruct (fmtMs_format 187000 S2) as (_&H2&_).
  destruct (fmtMs_format (-1) S3) as (_&_&H3).
  assert (0 <= 999 < 1000) as Ha by lia.
  assert (1000 <= 187000) as Hb by lia.
  assert (-1 < 0) as Hc by lia.
  split; [exact (conj S1 Ha)|]. split; [exact (conj S2 Hb)|].
  split; [exact (conj S3 Hc)|]. split; [exact (H1 Ha)|].
  destruct (H2 Hb) as [-> _]. destruct (H3 Hc) as [-> _]. split; reflexivity.
Defined.

(** X2. The remaining time never counts below zero: with no duration
    nothing is shown, at or past the end of the track the field reads
    "---:--", and before the end it is the formatted distance to the end. *)
Theorem fmtMsRemaining_clamps (posMs durMs : Z) :
  (durMs = 0 → fmtMsRemaining posMs durMs = "") ∧
  (durMs ≠ 0 → durMs <= posMs → fmtMsRemaining posMs durMs = "---:--") ∧
  (durMs ≠ 0 → posMs < durMs →
   fmtMsRemaining posMs durMs = "-" ++ fmtMs (durMs - posMs)).
Proof.
  unfold fmtMsRemaining. split_and!.
  - by intros ->.
  - intros Hd Hp. destruct (Z.eqb_spec durMs 0) as [?|_]; [done|].
    by rewrite Z.max_l by lia.
  - intros Hd Hp. destruct (Z.eqb_spec durMs 0) as [?|_]; [done|].
    by rewrite Z.max_r by lia.
Qed.

Lemma fmtMsRemaining_clamps_witness :
  (200000 ≠ 0 ∧ 200000 <= 200250) ∧ fmtMsRemaining 200250 200000 = "---:--".
Proof.
  assert (200000 ≠ 0) as Ha by lia. assert (200000 <= 200250) as Hb by lia.
  split; [split; [exact Ha|exact Hb]|].
  destruct (fmtMsRemaining_clamps 200250 200000) as (_&H&_). exact (H Ha Hb).
Defined.

(** ** Escaping *)

Lemma string_forall_app P s1 s2 :
  string_forall P (s1 ++ s2) = string_forall P s1 && string_forall P s2.
Proof. induction s1 as [|c s1 IH]; simpl; [done|]. by rewrite IH, andb_assoc. Qed.

(** X3. The text [esc] returns contains no ['<'], ['>'] or double quote,
    whatever the input; and a text without the four special characters is
    returned as it is. *)
Theorem esc_safe (str : string) :
  string_forall (λ c, negb (Ascii.eqb c "<" || Ascii.eqb c ">"
                            || Ascii.eqb c (ascii_of_nat 34))) (esc str) = true ∧
  (string_forall (λ c, negb (is_html_special c)) str = true → esc str = str).
Proof.
  split.
  - induction str as [|c str IH]; [done|]. simpl.
    rewrite string_forall_app, IH, andb_true_r. unfold esc_char.
    destruct (Ascii.eqb c "&") eqn:E1; [done|].
    destruct (Ascii.eqb c "<") eqn:E2; [done|].
    destruct (Ascii.eqb c ">") eqn:E3; [done|].
    destruct (Ascii.eqb c (ascii_of_nat 34)) eqn:E4; [done|].
    simpl. by rewrite E2, E3, E4.
  - induction str as [|c str IH]; [done|]. simpl. intros [Hc Hs]%andb_true_iff.
    rewrite IH by done. unfold esc_char, is_html_special in *.
    destruct (Ascii.eqb c "&"); [done|].
    destruct (Ascii.eqb c "<"); [done|].
    destruct (Ascii.eqb c ">"); [done|].
    by destruct (Ascii.eqb c (ascii_of_nat 34)).
Qed.

Lemma esc_safe_witness :
  string_forall (λ c, negb (is_html_special c)) "Take the A Train" = true ∧
  esc "Take the A Train" = "Take the A Train".
Proof.
  split; [reflexivity|]. destruct (esc_safe "Take the A Train") as [_ H].
  exact (H eq_refl).
Defined.

(** ** The status line *)

Lemma truthy_nonempty s : truthy s = true ↔ s ≠ "".
Proof. by destruct s. Qed.

Lemma setStatus_unscheduled msg type s :
  type = "error" ∨ msg = "" →
  setStatus msg type s =
  set_dom (set_status {| status_text := msg; status_className := "status " ++ type |}
                      (dom s)) s.
Proof.
  unfold setStatus. intros [-> | ->]; [by rewrite andb_false_r|done].
Qed.

Lemma setStatus_scheduled msg type s :
  type ≠ "error" → msg ≠ "" →
  setStatus msg type s =
  (startTimer (StatusTimeout msg)
     (set_dom (set_status {| status_text := msg;
                             status_className := "status " ++ type |}
                          (dom s)) s)).2.
Proof.
  intros Ht Hm. apply String.eqb_neq in Ht. apply truthy_nonempty in Hm.
  unfold setStatus. by rewrite Ht, Hm.
Qed.

(** The timer of a status message, when it fires. *)
Lemma timerFires_status i now msg s :
  timers s !! i = Some (StatusTimeout msg) →
  let s' := (timerFires i now s).1 in
  (timerFires i now s).2 = [] ∧
  timers s' = delete i (timers s) ∧
  (status_text (status (dom s)) = msg → status_text (status (dom s')) = "") ∧
  (status_text (status (dom s)) ≠ msg → dom s' = dom s).
Proof.
  intros Hi. cbv zeta. unfold timerFires. rewrite Hi. cbn [dom set_timers].
  destruct (String.eqb_spec (status_text (status (dom s))) msg) as [He|He];
    by split_and!.
Qed.




(** X5. A message that was overwritten is not wiped by its own timer: after
    [setStatus(a, ta)] and then [setStatus(b, tb)] with a different text,
    the timer of [a] fires without touching the page, and is gone; the
    timer of the message on display clears the text. *)
Theorem status_timer_spares_newer (a ta b tb : string) (now : Z) (s : State) :
  a ≠ "" → ta ≠ "error" → a ≠ b →
  let i := nextTimer s in
  let s2 := setStatus b tb (setStatus a ta s) in
  let s3 := (timerFires i now s2).1 in
  dom s3 = dom s2 ∧
  status_text (status (dom s3)) = b ∧
  timers s3 !! i = None ∧
  (tb ≠ "error" → b ≠ "" →
   status_text (status (dom (timerFires (S i) now s3).1)) = "").
Proof.
  intros Ha Hta Hab i s2 s3.
  assert (timers (setStatus a ta s) = <[i := StatusTimeout a]> (timers s) ∧
          nextTimer (setStatus a ta s) = S i) as [Ht1 Hn1]
    by by rewrite setStatus_scheduled.
  assert (status (dom s2) = {| status_text := b; status_className := "status " ++ tb |})
    as Hd2 by (unfold s2, setStatus; by case_match).
  assert (tb ≠ "error" → b ≠ "" →
          timers s2 = <[S i := StatusTimeout b]> (timers (setStatus a ta s))) as H2
    by (intros; unfold s2; rewrite (setStatus_scheduled b) by done; cbn;
        by rewrite Hn1).
  assert (timers s2 !! i = Some (StatusTimeout a)) as Hi.
  { destruct (decide (tb = "error" ∨ b = "")) as [Hc|Hc].
    - unfold s2. rewrite (setStatus_unscheduled b) by done. cbn.
      rewrite Ht1. apply lookup_insert_eq.
    - rewrite H2 by tauto. rewrite lookup_insert_ne by lia.
      rewrite Ht1. apply lookup_insert_eq. }
  destruct (timerFires_status i now a s2 Hi) as (_&Ht3&_&Hkeep).
  fold s3 in Ht3, Hkeep.
  assert (status_text (status (dom s2)) = b) as Hb by by rewrite Hd2.
  assert (dom s3 = dom s2) as Hd3 by (apply Hkeep; congruence).
  split_and!; [done|congruence|by rewrite Ht3, lookup_delete_eq|].
  intros Htb Hbne. pose proof (H2 Htb Hbne) as Ht2.
  assert (timers s3 !! S i = Some (StatusTimeout b)) as Hj.
  { rewrite Ht3, lookup_delete_ne by lia. rewrite Ht2. apply lookup_insert_eq. }
  destruct (timerFires_status (S i) now b s3 Hj) as (_&_&Hclr&_).
  apply Hclr. congruence.
Qed.

Lemma status_timer_spares_newer_witness :
  let s2 := setStatus "Credentials saved." "ok"
              (setStatus "Logging in…" "info" (st fresh)) in
  ("Logging in…" ≠ "" ∧ "info" ≠ "error" ∧ "Logging in…" ≠ "Credentials saved.") ∧
  status_text (status (dom (timerFires 1 5000 s2).1)) = "Credentials saved.".
Proof.
  intros s2.
  assert ("Logging in…" ≠ "") as Ha by done.
  assert ("info" ≠ "error") as Hb by done.
  assert ("Logging in…" ≠ "Credentials saved.") as Hc by done.
  split; [split_and!; [exact Ha|exact Hb|exact Hc]|].
  destruct (status_timer_spares_newer "Logging in…" "info" "Credentials saved." "ok"
              5000 (st fresh) Ha Hb Hc) as (_&H&_).
  exact H.
Defined.

(** X6. [setStatusError] shows a message as an error, with no timer to
    clear it, when [forceShow] is set or the message is not transient; a
    transient message that is not forced leaves the page and the timers as
    they are and is written to the console once. *)
Theorem setStatusError_gate (msg : string) (forceShow : bool) (s : State) :
  let s' := setStatusError msg forceShow s in
  (forceShow = true ∨ isTransientError msg = false →
   shows_error msg s' ∧ timers s' = timers s ∧ log s' = log s) ∧
  (forceShow = false → isTransientError msg = true →
   dom s' = dom s ∧ timers s' = timers s ∧
   log s' = (log s ++ [ConsoleWarn ("Transient error (logged only): " ++ msg)])%list).
Proof.
  cbv zeta. unfold setStatusError. split.
  - intros Hc.
    assert (isTransientError msg && negb forceShow = false) as ->
      by (destruct Hc as [->| ->]; [apply andb_false_r|done]).
    rewrite (setStatus_unscheduled msg "error") by (by left). by split_and!.
  - intros -> ->. done.
Qed.

Lemma setStatusError_gate_witness :
  isTransientError "Unexpected token < in JSON at position 0" = true ∧
  dom (setStatusError "Unexpected token < in JSON at position 0" false (st fresh))
    = dom (st fresh) ∧
  shows_error "Unexpected token < in JSON at position 0"
    (setStatusError "Unexpected token < in JSON at position 0" true (st fresh)).
Proof.
  destruct (setStatusError_gate "Unexpected token < in JSON at position 0" false
              (st fresh)) as [_ H1].
  destruct (setStatusError_gate "Unexpected token < in JSON at position 0" true
              (st fresh)) as [H2 _].
  split; [reflexivity|]. split; [apply (H1 eq_refl eq_refl)|].
  apply H2. by left.
Defined.

(** ** [spotifyFetch] *)

Lemma requests_snoc l e :
  requests (l ++ [e]) = (requests l ++ if is_request e then [e] else [])%list.
Proof.
  unfold requests. rewrite filter_app, filter_cons.
  by destruct (is_request e).
Qed.

Lemma requests_emit e s :
  is_request e = false → requests (log (emit e s)) = requests (log s).
Proof. intros He. simpl. by rewrite requests_snoc, He, app_nil_r. Qed.

Lemma requests_setStatusError msg force s :
  requests (log (setStatusError msg force s)) = requests (log s).
Proof.
  unfold setStatusError. case_match; [by apply requests_emit|].
  by rewrite log_setStatus.
Qed.

(** A continuation that is handed a failure sends nothing. *)
Lemma settle_rejected_requests k now m s :
  requests (log (settle k now (Rejected m) s).1) = requests (log s) ∧
  (settle k now (Rejected m) s).2 = [].
Proof.
  destruct k as [|tid| |n p b]; cbn [settle fst snd].
  - split; [|done]. unfold pollPlaybackState_settle.
    case_match; [by apply requests_emit|done].
  - cbn [getPlaybackDeviceId_settle]. unfold playTrack_device.
    cbn [opt_truthy negb fst snd]. split; [|done].
    change (log (set_playTrackPending false ?x)) with (log x).
    by rewrite log_setStatus, requests_emit.
  - split; [|done]. unfold playTrack_settle.
    change (log (set_playTrackPending false ?x)) with (log x).
    apply requests_setStatusError.
  - split; [|done]. unfold togglePlayPause_settle.
    change (log (set_playbackCommandPending false ?x)) with (log x).
    rewrite requests_setStatusError. unfold paint_ppBtn. by destruct b.
Qed.

(** X7. Without a token nothing is sent.  When the session provider
    answers a waiting [spotifyFetch] with no token (or an empty one), the
    call fails with "Not authenticated": no HTTP request is made for it, its
    caller sends nothing in response and suspends nothing new. *)
Theorem no_token_no_request (y : Sys) (i : nat) (now : Z) (req : Request)
    (k : Kont) (tok : TokenReply) :
  tasks y !! i = Some (TFetch (AwaitToken req) k) →
  no_token tok = true →
  let y' := step (Resume i now (RToken tok)) y in
  settles (AwaitToken req) (RToken tok) (st y) = Some (Rejected "Not authenticated") ∧
  st y' = (settle k now (Rejected "Not authenticated") (st y)).1 ∧
  requests (log (st y')) = requests (log (st y)) ∧
  tasks y' = delete i (tasks y).
Proof.
  intros Ht Hn y'.
  assert (settles (AwaitToken req) (RToken tok) (st y)
          = Some (Rejected "Not authenticated")) as Ho.
  { destruct tok as [t|m]; [|done]. simpl in *.
    by destruct (opt_truthy t). }
  unfold y'. rewrite (step_resume_settles _ _ _ _ _ _ _ Ht Ho). cbn [st tasks].
  destruct (settle_rejected_requests k now "Not authenticated" (st y)) as [Hr ->].
  by rewrite app_nil_r.
Qed.

Lemma no_token_no_request_witness :
  let y := step (TogglePlayPause 1000) fresh in
  let y' := step (Resume 0 1001 (RToken (Token None))) y in
  tasks y !! 0%nat = Some (TFetch (AwaitToken play_req) (KToggle 1000 true true)) ∧
  requests (log (st y')) = [Call play_req] ∧ tasks y' = [] ∧
  lastPaused (st y') = true.
Proof.
  intros y y'.
  destruct (no_token_no_request y 0 1001 play_req (KToggle 1000 true true)
              (Token None) eq_refl eq_refl) as (_&H1&H2&H3).
  split; [reflexivity|]. split; [exact H2|]. split; [exact H3|].
  unfold y'. rewrite H1. reflexivity.
Defined.

(** X8. How [spotifyFetch] reads a response.  Status 204 or 202 gives
    [null] without looking at the body; otherwise a body that does not parse
    fails the call with the parser's message; a parsed body is returned only
    for a 2xx status, and for any other status the call fails with the
    body's error message or, lacking one, "Spotify error" and the status.
    So whatever is returned came with a 2xx status. *)
Theorem spotifyFetch_http_cases (status : Z) (json : JsonResult) :
  (status = 204 ∨ status = 202 →
   spotifyFetch_http (Response status json) = Fulfilled None) ∧
  (status ≠ 204 → status ≠ 202 → ∀ m, json = JsonThrows m →
   spotifyFetch_http (Response status json) = Rejected m) ∧
  (status ≠ 204 → status ≠ 202 → 200 <= status <= 299 → ∀ d, json = JsonValue d →
   spotifyFetch_http (Response status json) = Fulfilled d) ∧
  (¬ 200 <= status <= 299 → ∀ b, json = JsonValue (Some b) →
   spotifyFetch_http (Response status json) =
     Rejected (match error_message b with
               | Some m => if truthy m then m else "Spotify error " ++ pretty status
               | None => "Spotify error " ++ pretty status
               end)) ∧
  (∀ d, spotifyFetch_http (Response status json) = Fulfilled d →
        200 <= status <= 299).
Proof.
  unfold spotifyFetch_http, res_ok. split_and!.
  - by intros [-> | ->].
  - intros H1 H2 m ->.
    destruct (Z.eqb_spec status 204), (Z.eqb_spec status 202); done.
  - intros H1 H2 H3 d ->.
    destruct (Z.eqb_spec status 204), (Z.eqb_spec status 202); try done.
    destruct (Z.leb_spec 200 status), (Z.leb_spec status 299); try lia. done.
  - intros H3 b ->.
    destruct (Z.eqb_spec status 204), (Z.eqb_spec status 202); try lia.
    destruct (Z.leb_spec 200 status), (Z.leb_spec status 299); try lia;
      simpl; by destruct (error_message b).
  - intros d.
    destruct (Z.eqb_spec status 204), (Z.eqb_spec status 202); try lia.
    destruct json as [m|d']; [done|].
    destruct (Z.leb_spec 200 status), (Z.leb_spec status 299); try lia;
      simpl; by destruct d'.
Qed.

Lemma spotifyFetch_http_cases_witness :
  ¬ 200 <= 404 <= 299 ∧
  spotifyFetch_http (Response 404 (JsonValue (Some (error_body ""))))
    = Rejected "Spotify error 404".
Proof.
  assert (¬ 200 <= 404 <= 299) as H by lia. split; [exact H|].
  destruct (spotifyFetch_http_cases 404 (JsonValue (Some (error_body ""))))
    as (_&_&_&H1&_).
  exact (H1 H _ eq_refl).
Defined.

(** ** The poller *)

(** X9. A poll that fails is never shown to the user and stops nothing:
    the page, the timers and the stored playback state are as before and
    nothing new is suspended.  A failure for want of a session
    ("Not authenticated") leaves no trace at all; any other is written to
    the console once. *)
Theorem poll_failure_silent (y : Sys) (i : nat) (now : Z) (r : Reply)
    (stage : FetchStage) (m : string) :
  tasks y !! i = Some (TFetch stage KPoll) →
  settles stage r (st y) = Some (Rejected m) →
  let y' := step (Resume i now r) y in
  tasks y' = delete i (tasks y) ∧
  dom (st y') = dom (st y) ∧
  timers (st y') = timers (st y) ∧
  (pollSyncPos (st y'), pollSyncAt (st y'), pollDuration (st y'),
   lastTrackId (st y'), lastPaused (st y'))
    = (pollSyncPos (st y), pollSyncAt (st y), pollDuration (st y),
       lastTrackId (st y), lastPaused (st y)) ∧
  (includes "Not authenticated" m = true → st y' = st y) ∧
  (includes "Not authenticated" m = false →
   log (st y') = (log (st y) ++ [ConsoleWarn ("Poll error: " ++ m)])%list).
Proof.
  intros Ht Ho y'. unfold y'.
  rewrite (step_resume_settles _ _ _ _ _ _ _ Ht Ho).
  cbn [st tasks settle fst snd]. unfold pollPlaybackState_settle.
  rewrite app_nil_r.
  destruct (includes "Not authenticated" m); by split_and!.
Qed.

Lemma poll_failure_silent_witness :
  let y := step PollPlaybackState fresh in
  let y' := step (Resume 0 10 (RToken (Token None))) y in
  tasks y !! 0%nat = Some (TFetch (AwaitToken player_req) KPoll) ∧
  st y' = st y ∧ tasks y' = [].
Proof.
  intros y y'.
  destruct (poll_failure_silent y 0 10 (RToken (Token None)) (AwaitToken player_req)
              "Not authenticated" eq_refl eq_refl) as (H1&_&_&_&H2&_).
  split; [reflexivity|]. split; [exact (H2 eq_refl)|exact H1].
Defined.

(** The state of [pollPlaybackState] at line 174, field by field. *)
Lemma poll_snapshot_fields track isPlaying posMs durMs now s :
  let s1 := updateBarNowPlaying track isPlaying posMs durMs
              (lookup_bpm (djTracks s) (item_id track))
              (set_dom (set_cards (highlight_card (item_id track) isPlaying
                                     <$> cards (dom s)) (dom s))
                 (set_lastPaused (negb isPlaying)
                    (set_lastTrackId (item_id track)
                       (set_pollDuration durMs
                          (set_pollSyncAt now (set_pollSyncPos posMs s)))))) in
  pollSyncPos s1 = posMs ∧ pollSyncAt s1 = now ∧ pollDuration s1 = durMs ∧
  lastTrackId s1 = item_id track ∧ lastPaused s1 = negb isPlaying ∧
  timers s1 = timers s ∧ progressTimer s1 = progressTimer s ∧
  nextTimer s1 = nextTimer s ∧
  cards (dom s1) = highlight_card (item_id track) isPlaying <$> cards (dom s) ∧
  (is_Some (progress (dom s1)) ↔ is_Some (progress (dom s))) ∧
  (is_Some (nowPlaying (dom s)) → is_Some (progress (dom s)) →
   progress (dom s1) = Some (ProgressAt posMs durMs)).
Proof.
  cbv zeta. unfold updateBarNowPlaying, updateProgressEl. cbn [dom set_dom nowPlaying set_cards].
  destruct (nowPlaying (dom s)) as [np|] eqn:Hn; cbn.
  - rewrite ?Hn. destruct (progress (dom s)) as [pr|] eqn:Hp; cbn; rewrite ?Hp;
      split_and!; try done; try (by intros _ [? ?]); by split; eauto.
  - rewrite ?Hn. split_and!; try done; by intros [? ?].
Qed.



(** X11. In every state the renderer can reach at most one interpolation
    timer is live, and it is the one whose id [progressTimer] holds. *)
Theorem single_clock (d : Dom) (lib : list LibTrack) (es : list Event) (i j : nat) :
  let s := st (run es (boot d lib)) in
  timers s !! i = Some ProgressInterval →
  timers s !! j = Some ProgressInterval →
  i = j ∧ progressTimer s = Some i.
Proof.
  intros s Hi Hj.
  assert (clock_inv s) as Hinv by apply run_clock_inv, boot_clock_inv.
  pose proof (Hinv i Hi). pose proof (Hinv j Hj). split; congruence.
Qed.

(** A second poll while the clock of the first is running. *)
Lemma single_clock_witness :
  let s := st (run (playing_poll 5000 200000 1000 ++ playing_poll 7500 200000 3500)
                 fresh) in
  timers s !! 2%nat = Some ProgressInterval ∧
  timers s !! 1%nat = None ∧ progressTimer s = Some 2%nat.
Proof.
  intros s.
  assert (timers s !! 2%nat = Some ProgressInterval) as H by by vm_compute.
  destruct (single_clock (page_logged_in []) []
              (playing_poll 5000 200000 1000 ++ playing_poll 7500 200000 3500)
              2 2 H H) as [_ H2].
  split; [exact H|]. split; [by vm_compute|exact H2].
Defined.

(** ** [playTrack] *)

Lemma playTrack_device_cases trackId deviceId s :
  (opt_truthy deviceId = false ∧
   playTrack_device trackId deviceId s =
     (set_playTrackPending false (setStatus no_device_text "error" s), [])) ∨
  (∃ d, deviceId = Some d ∧ d ≠ "" ∧
   playTrack_device trackId deviceId s =
     (spotifyFetch_call (playTrack_req d trackId) (startTimer PollTimeout s).2,
      [TFetch (AwaitToken (playTrack_req d trackId)) KPlayTrackCommand])).
Proof.
  unfold playTrack_device. destruct (opt_truthy deviceId) eqn:Hd.
  - right. destruct deviceId as [d|]; [|done]. exists d.
    split; [done|]. split; [by destruct d|done].
  - by left.
Qed.

(** What [playTrack_device] does to the guard and to the suspended calls. *)
Lemma playTrack_device_guard trackId deviceId s :
  let r := playTrack_device trackId deviceId s in
  (playTrackPending r.1 = false ∧ r.2 = []) ∨
  (playTrackPending r.1 = playTrackPending s ∧
   ∃ req, r.2 = [TFetch (AwaitToken req) KPlayTrackCommand]).
Proof.
  cbv zeta.
  destruct (playTrack_device_cases trackId deviceId s) as [[_ ->]|(d&_&_&->)].
  - by left.
  - right. split; [done|]. by eexists.
Qed.

Lemma handler_playTrack_cases e s :
  (∃ now trackId, handler e s = playTrack now trackId s) ∨
  (playTrackPending (handler e s).1 = playTrackPending s ∧
   playTrack_free (handler e s).2).
Proof.
  assert (∀ now, playTrackPending (togglePlayPause now s).1 = playTrackPending s ∧
                 playTrack_free (togglePlayPause now s).2) as Htg.
  { intros now. split; [apply togglePlayPause_keeps_playTrack|].
    by destruct (togglePlayPause_cases now s) as [->|(_&_&[[_ ->]|[_ ->]])]. }
  destruct e as [now|now tid|now tid| | | |i now| |dev| |state|ok|i now r];
    cbn [handler].
  - right. apply Htg.
  - left. by exists now, tid.
  - case_match; [right; apply Htg|left; by exists now, tid].
  - right. by split.
  - right. split; [apply startPolling_frame|done].
  - right. split; [apply stopPolling_frame|done].
  - right. split; [apply timerFires_frame|].
    unfold timerFires. by repeat case_match.
  - right. by split.
  - right. split; [|done]. cbn [fst].
    match goal with |- context [setStatus ?a ?b ?x] =>
      by destruct (benign_setStatus a b x) as (_&_&[? _]&_) end.
  - right. by split.
  - right. split; [apply benign_sdkStateChanged|done].
  - right. by split.
  - right. by split.
Qed.

Lemma playTrack_cases now trackId s :
  playTrack now trackId s = (s, []) ∨
  (playTrackPending s = false ∧ playTrackPending (playTrack now trackId s).1 = true ∧
   ∃ t, (playTrack now trackId s).2 = [t] ∧ is_playTrack_task t = true).
Proof.
  destruct (playTrackPending s) eqn:Hp;
    [left; by rewrite playTrack_rejected by auto|].
  destruct (decide (now - lastPlayTrackTime s < 500)) as [Ht|Ht];
    [left; by rewrite playTrack_rejected by auto|].
  right. split; [done|].
  unfold playTrack. rewrite Hp, (proj2 (Z.ltb_ge _ _)) by lia.
  case_match; (split; [done|]); by eexists.
Qed.

(** Resuming a task that is not a [playTrack] call. *)
Lemma resume_not_playTrack t now r s s' new :
  resume t now r s = Some (s', new) → is_playTrack_task t = false →
  playTrackPending s' = playTrackPending s ∧ playTrack_free new.
Proof.
  intros Hr Htt.
  apply resume_cases in Hr as [(req&k&->&->&->)|[(k&o&(stage&->&_)&Hs)|(tid&dev&->&Hs)]].
  - by destruct k.
  - destruct k as [|tid| |n p b]; try done; cbn [settle] in Hs; simplify_eq.
    + split; [apply pollPlaybackState_settle_frame|done].
    + split; [apply togglePlayPause_settle_frame|done].
  - done.
Qed.

(** Resuming a [playTrack] call: it stays the one suspended call, or it is
    over and the guard is clear. *)
Lemma resume_playTrack t now r s s' new :
  resume t now r s = Some (s', new) → is_playTrack_task t = true →
  (playTrackPending s' = false ∧ new = []) ∨
  (playTrackPending s' = playTrackPending s ∧
   ∃ t', new = [t'] ∧ is_playTrack_task t' = true).
Proof.
  intros Hr Htt.
  apply resume_cases in Hr as [(req&k&->&->&->)|[(k&o&(stage&->&_)&Hs)|(tid&dev&->&Hs)]].
  - right. split; [done|]. by eexists.
  - destruct k as [|tid| |n p b]; try done; cbn [settle] in Hs.
    + destruct (getPlaybackDeviceId_settle o s) as [s1 dev] eqn:Hg.
      assert (playTrackPending s1 = playTrackPending s) as Hp1
        by (destruct o; simpl in Hg; by simplify_eq).
      destruct (playTrack_device_guard tid dev s1) as [[? ?]|[? [req ?]]];
        rewrite <- Hs in *; cbn [fst snd] in *.
      * by left.
      * right. split; [congruence|]. by eexists.
    + simplify_eq. left. split; [apply playTrack_settle_frame|done].
  - destruct (playTrack_device_guard tid dev s) as [[? ?]|[? [req ?]]];
      rewrite <- Hs in *; cbn [fst snd] in *.
    + by left.
    + right. split; [done|]. by eexists.
Qed.

Lemma playTrack_inv_step e y : playTrack_inv y → playTrack_inv (step e y).
Proof.
  unfold playTrack_inv, playTracks_in_flight. intros Hinv.
  assert ((∀ i now r, e ≠ Resume i now r) →
    length (filter (λ t, is_playTrack_task t = true) (tasks (step e y)))
    = if playTrackPending (st (step e y)) then 1%nat else 0%nat) as Hh.
  { intros He. rewrite step_handler by done. cbn [st tasks]. rewrite filter_app.
    destruct (handler_playTrack_cases e (st y)) as [(now&tid&->)|[-> Hf]].
    - destruct (playTrack_cases now tid (st y)) as [->|(Hp&->&t&->&Htt)].
      + by rewrite app_nil_r.
      + rewrite Hp in Hinv. apply length_zero_iff_nil in Hinv.
        rewrite Hinv, filter_cons, Htt. done.
    - unfold playTrack_free in Hf. by rewrite Hf, app_nil_r. }
  destruct e as [now|now tid|now tid| | | |i now| |dev| |state|ok|i now r];
    try (by apply Hh).
  clear Hh.
  destruct (step_resume i now r y) as [->|(t&s'&new&Ht&Hr&->)]; [done|].
  cbn [st tasks]. rewrite filter_app, length_app.
  destruct (is_playTrack_task t) eqn:Htt.
  - assert (playTrackPending (st y) = true ∧
            filter (λ t, is_playTrack_task t = true) (delete i (tasks y)) = [])
      as [Hp Hd].
    { rewrite (filter_split_at _ _ _ _ Ht), decide_True in Hinv by done.
      rewrite filter_delete_split.
      rewrite !length_app in Hinv. simpl in Hinv.
      destruct (playTrackPending (st y)); [|lia]. split; [done|].
      destruct (filter _ (take i (tasks y))), (filter _ (drop (S i) (tasks y)));
        simpl in *; try done; lia. }
    rewrite Hd.
    destruct (resume_playTrack _ _ _ _ _ _ Hr Htt) as [[-> ->]|[-> (t'&->&Ht')]].
    + done.
    + rewrite Hp, filter_cons, Ht'. done.
  - rewrite (filter_delete_other _ _ _ _ Ht) by (by rewrite Htt).
    destruct (resume_not_playTrack _ _ _ _ _ _ Hr Htt) as [-> Hf].
    unfold playTrack_free in Hf. rewrite Hf. simpl. lia.
Qed.

Lemma playTrack_inv_run es y : playTrack_inv y → playTrack_inv (run es y).
Proof.
  revert y. induction es as [|e es IH]; intros y Hm; [done|].
  rewrite run_cons. by apply IH, playTrack_inv_step.
Qed.

(** X12. [playTrack] calls exclude one another.  In every state the
    renderer can reach [playTrackPending] is set exactly while one
    [playTrack] call is suspended, so at most one is in flight; and while it
    is set, a further [playTrack] call, at whatever time and for whatever
    track, changes nothing. *)
Theorem playTrack_mutual_exclusion (d : Dom) (lib : list LibTrack)
    (es : list Event) :
  let y := run es (boot d lib) in
  playTrack_inv y ∧
  (length (playTracks_in_flight y) ≤ 1)%nat ∧
  (playTrackPending (st y) = true →
   ∀ now trackId, step (PlayTrack now trackId) y = y) ∧
  (playTrackPending (st y) = false → playTracks_in_flight y = []).
Proof.
  intros y.
  assert (playTrack_inv y) as Hinv by by apply playTrack_inv_run.
  split; [done|]. unfold playTrack_inv in Hinv. split_and!.
  - rewrite Hinv. case_match; lia.
  - intros Hp now tid. rewrite step_handler by done. cbn [handler].
    rewrite playTrack_rejected by auto. apply step_noop.
  - intros Hp. rewrite Hp in Hinv. by apply length_zero_iff_nil.
Qed.

(** A second card is clicked 40 ms after the first, while the device
    lookup of the first is under way. *)
Lemma playTrack_mutual_exclusion_witness :
  let y := run [PlayTrack 1000 "X"] fresh in
  playTrackPending (st y) = true ∧
  step (PlayTrack 1040 "Y") y = y ∧
  length (playTracks_in_flight y) = 1%nat.
Proof.
  intros y.
  destruct (playTrack_mutual_exclusion (page_logged_in []) [] [PlayTrack 1000 "X"])
    as (H0&_&H&_).
  split; [reflexivity|]. split; [exact (H eq_refl 1040 "Y")|exact H0].
Defined.



(** The [catch] and [finally] of [playTrack], field by field. *)
Lemma playTrack_settle_fields o s :
  let s' := playTrack_settle o s in
  playTrackPending s' = false ∧
  lastPaused s' = lastPaused s ∧ lastTrackId s' = lastTrackId s ∧
  timers s' = timers s ∧ progressTimer s' = progressTimer s ∧
  playPauseBtn (dom s') = playPauseBtn (dom s) ∧
  cards (dom s') = cards (dom s) ∧
  nowPlaying (dom s') = nowPlaying (dom s).
Proof.
  cbv zeta. unfold playTrack_settle. destruct o as [d|m]; [done|].
  destruct (isTransientError (or_else m "Playback failed")) eqn:Htr.
  - by rewrite setStatusError_logged.
  - by rewrite setStatusError_shown.
Qed.

(** X14. [playTrack] has nothing to undo.  However its play command
    settles the guard is cleared, and neither the paused belief, the track
    id, the clock, the button nor the cards are touched; a failure is shown
    as an error unless [isTransientError] matches its message, in which case
    the status line stays as it was. *)
Theorem playTrack_no_rollback (y : Sys) (i : nat) (now : Z) (r : Reply)
    (stage : FetchStage) (o : Outcome) :
  tasks y !! i = Some (TFetch stage KPlayTrackCommand) →
  settles stage r (st y) = Some o →
  let y' := step (Resume i now r) y in
  tasks y' = delete i (tasks y) ∧
  playTrackPending (st y') = false ∧
  lastPaused (st y') = lastPaused (st y) ∧
  lastTrackId (st y') = lastTrackId (st y) ∧
  timers (st y') = timers (st y) ∧
  playPauseBtn (dom (st y')) = playPauseBtn (dom (st y)) ∧
  cards (dom (st y')) = cards (dom (st y)) ∧
  match o with
  | Fulfilled _ => dom (st y') = dom (st y) ∧ log (st y') = log (st y)
  | Rejected m =>
    (isTransientError (failure_text m) = false → shows_error (failure_text m) (st y')) ∧
    (isTransientError (failure_text m) = true → status (dom (st y')) = status (dom (st y)))
  end.
Proof.
  intros Ht Ho y'. unfold y'.
  rewrite (step_resume_settles _ _ _ _ _ _ _ Ht Ho).
  cbn [st tasks settle fst snd]. rewrite app_nil_r.
  destruct (playTrack_settle_fields o (st y)) as (?&?&?&?&_&?&?&_).
  split_and!; try done.
  destruct o as [d|m]; [done|]. unfold playTrack_settle. fold (failure_text m).
  split; intros Htr.
  - by rewrite setStatusError_shown.
  - by rewrite setStatusError_logged.
Qed.

Lemma playTrack_no_rollback_witness :
  let y := run [SdkSetup; SdkReady "device-1"; PlayTrack 1000 "X";
                Resume 0 1000 RNext; Resume 0 1001 some_token] fresh in
  let r := RHttp (Response 404 (JsonValue (Some (error_body "Device not found")))) in
  let y' := step (Resume 0 1100 r) y in
  tasks y !! 0%nat = Some (TFetch AwaitHttp KPlayTrackCommand) ∧
  playTrackPending (st y') = false ∧ lastPaused (st y') = true ∧
  shows_error "Device not found" (st y').
Proof.
  intros y r y'.
  destruct (playTrack_no_rollback y 0 1100 r AwaitHttp (Rejected "Device not found")
              eq_refl eq_refl) as (_&H1&H2&_&_&_&_&H3&_).
  split; [reflexivity|]. split; [exact H1|].
  split; [transitivity (lastPaused (st y)); [exact H2|reflexivity]|].
  exact (H3 eq_refl).
Defined.

(** ** Card highlights *)

Lemma glyphs_differ : glyph_pause ≠ glyph_play.
Proof. done. Qed.

(** X15. After a poll that finds a track, the cards are the same cards in
    the same order; a card is marked as playing exactly if it is the card of
    the reported track, and its button, if it has one, shows the pause glyph
    exactly if moreover the track is playing.  By a local file (a track
    without id) no card is marked. *)
Theorem poll_highlights_cards (y : Sys) (i : nat) (now : Z) (http : HttpReply)
    (state : option Body) (track : Item) :
  tasks y !! i = Some (TFetch AwaitHttp KPoll) →
  spotifyFetch_http http = Fulfilled state →
  state ≫= item = Some track →
  let isPlaying := from_option is_playing false state in
  let y' := step (Resume i now (RHttp http)) y in
  dataset_id <$> cards (dom (st y')) = dataset_id <$> cards (dom (st y)) ∧
  (∀ c, c ∈ cards (dom (st y')) →
     (playing c = true ↔ item_id track = Some (dataset_id c)) ∧
     (∀ b, play_btn c = Some b →
        (b = glyph_pause ↔ isPlaying = true ∧ item_id track = Some (dataset_id c)) ∧
        (b = glyph_pause ∨ b = glyph_play))) ∧
  (item_id track = None → ∀ c, c ∈ cards (dom (st y')) → playing c = false).
Proof.
  intros Ht Hh Hi isPlaying y'.
  assert (settles AwaitHttp (RHttp http) (st y) = Some (Fulfilled state)) as Ho
    by (simpl; by rewrite Hh).
  assert (st y' = pollPlaybackState_settle now (Fulfilled state) (st y)) as Hst
    by (unfold y'; by rewrite (step_resume_settles _ _ _ _ _ _ _ Ht Ho)).
  clearbody y'. unfold pollPlaybackState_settle in Hst. rewrite Hi in Hst.
  cbv zeta in Hst. fold isPlaying in Hst.
  destruct (poll_snapshot_fields track isPlaying (num_or_0 (state ≫= progress_ms))
              (num_or_0 (duration_ms track)) now (st y))
    as (_&_&_&_&_&_&_&_&Hc&_).
  set (s1 := updateBarNowPlaying _ _ _ _ _ _) in *.
  assert (cards (dom (st y')) = highlight_card (item_id track) isPlaying
                                  <$> cards (dom (st y))) as Hcards.
  { rewrite Hst, <- Hc. destruct isPlaying; cbn; by destruct (progressTimer s1). }
  rewrite Hcards.
  assert (∀ x, same_id x (item_id track) = true ↔ item_id track = Some x) as Hsame.
  { intros x. unfold same_id. destruct (item_id track) as [t|]; [|done].
    rewrite String.eqb_eq. split; [by intros ->|by intros [= ->]]. }
  split_and!.
  - rewrite <- list_fmap_compose. by apply list_fmap_ext.
  - intros c [c0 [-> Hc0]]%list_elem_of_fmap. cbn [playing dataset_id play_btn highlight_card].
    split; [apply Hsame|].
    intros b Hb. destruct (play_btn c0); [|done]. cbn in Hb. simplify_eq.
    rewrite <- Hsame.
    destruct isPlaying, (same_id (dataset_id c0) (item_id track)); cbn;
      split; try (by auto); split; try done; by intros [? ?].
  - intros Hnone c [c0 [-> Hc0]]%list_elem_of_fmap. cbn. by rewrite Hnone.
Qed.

Lemma poll_highlights_cards_witness :
  let cs := [ {| dataset_id := "abc"; playing := false; play_btn := Some glyph_play |};
              {| dataset_id := "xyz"; playing := true; play_btn := Some glyph_pause |} ] in
  let y := run [PollPlaybackState; Resume 0 10 some_token] (boot (page_logged_in cs) []) in
  let http := Response 200 (JsonValue (Some (snapshot "abc" true 5000 200000))) in
  let y' := step (Resume 0 20 (RHttp http)) y in
  tasks y !! 0%nat = Some (TFetch AwaitHttp KPoll) ∧
  dataset_id <$> cards (dom (st y')) = ["abc"; "xyz"] ∧
  playing <$> cards (dom (st y')) = [true; false].
Proof.
  intros cs y http y'.
  destruct (poll_highlights_cards y 0 20 http _ _ eq_refl eq_refl eq_refl) as (H&_&_).
  split; [reflexivity|].
  split; [transitivity (dataset_id <$> cards (dom (st y))); [exact H|reflexivity]|].
  by vm_compute.
Defined.

(** ** The session token *)

Lemma token_fresh_spec now c :
  token_fresh now c = true ↔
  ∃ t e, accessToken c = Some t ∧ t ≠ "" ∧ tokenExpiry c = Some e ∧ e ≠ 0 ∧
         180000 < e - now.
Proof.
  unfold token_fresh. rewrite !andb_true_iff. split.
  - intros [[Ht He] Hlt]. destruct (accessToken c) as [t|]; [|done].
    destruct (tokenExpiry c) as [e|]; [|done]. simpl in *.
    exists t, e. split_and!; try done; [by destruct t| |lia].
    by destruct (Z.eqb_spec e 0).
  - intros (t&e&->&Ht&->&He&Hlt). simpl. split_and!; [by destruct t| |lia].
    by destruct (Z.eqb_spec e 0).
Qed.

(** X16. [getValidToken] serves the cached token, without asking for a
    refresh, only when that token has more than three minutes left.
    Otherwise it asks: a refresh that brings no token leaves the cache as it
    was and yields [null]; one that brings a token stores it with its expiry
    and returns it, and as long as that expiry is more than three minutes
    away, later calls return the same token without asking again. *)
Theorem getValidToken_cache (now : Z) (result : RefreshResult) (c : TokenCache) :
  let c' := (getValidToken now result c).1.1 in
  let t := (getValidToken now result c).1.2 in
  let asked := (getValidToken now result c).2 in
  (asked = false →
   c' = c ∧ ∃ tok e, t = Some tok ∧ tok ≠ "" ∧ accessToken c = Some tok ∧
                     tokenExpiry c = Some e ∧ 180000 < e - now) ∧
  (asked = true → opt_truthy (result_accessToken result) = false →
   c' = c ∧ t = None) ∧
  (asked = true → opt_truthy (result_accessToken result) = true →
   t = result_accessToken result ∧ accessToken c' = t ∧
   tokenExpiry c' = result_tokenExpiry result ∧
   ∀ e now' result', result_tokenExpiry result = Some e → e ≠ 0 →
     180000 < e - now' →
     getValidToken now' result' c' = (c', t, false)).
Proof.
  cbv zeta. unfold getValidToken, getValidToken_refreshed.
  destruct (token_fresh now c) eqn:Hf; cbn [fst snd].
  - apply token_fresh_spec in Hf as (tok&e&Ht&Hne&He&_&Hlt).
    split_and!; try done. intros _. split; [done|]. by exists tok, e.
  - destruct (opt_truthy (result_accessToken result)) eqn:Hr; cbn [fst snd];
      split_and!; try done.
    intros _ _. split_and!; try done.
    intros e now' result' He Hne Hlt.
    destruct (result_accessToken result) as [tok|] eqn:Htok; [|done].
    assert (token_fresh now' {| accessToken := Some tok;
                                tokenExpiry := result_tokenExpiry result |} = true)
      as ->; [|done].
    apply token_fresh_spec. exists tok, e. split_and!; try done. by destruct tok.
Qed.

(** A token that expires in two minutes is refreshed; the new one, good
    for an hour, is then served from the cache. *)
Lemma getValidToken_cache_witness :
  let c := {| accessToken := Some "old"; tokenExpiry := Some 1120000 |} in
  let result := {| result_accessToken := Some "new";
                   result_tokenExpiry := Some 4600000 |} in
  (getValidToken 1000000 result c).2 = true ∧
  (getValidToken 1000000 result c).1.2 = Some "new" ∧
  getValidToken 1000500 {| result_accessToken := None; result_tokenExpiry := None |}
    (getValidToken 1000000 result c).1.1
  = ((getValidToken 1000000 result c).1.1, Some "new", false).
Proof.
  intros c result.
  destruct (getValidToken_cache 1000000 result c) as (_&_&H).
  destruct (H eq_refl eq_refl) as (H1&_&_&H2).
  split; [reflexivity|]. split; [exact H1|].
  assert (4600000 ≠ 0) as Hne by lia.
  assert (180000 < 4600000 - 1000500) as Hlt by lia.
  exact (H2 4600000 1000500 _ eq_refl Hne Hlt).
Defined.

(** ** Restarting the poller *)

(** X17. [startPolling] polls at once and leaves exactly the interval it
    has just created in [pollInterval]; it first cancels the interval and
    the clock that the variables held, so that starting the poller again
    leaves the earlier interval cancelled; and [stopPolling] cancels the
    interval and resets both variables. *)
Theorem startPolling_restart (s : State) :
  let s1 := (startPolling s).1 in
  let i1 := nextTimer s in
  let s2 := (startPolling s1).1 in
  (startPolling s).2 = [TFetch (AwaitToken player_req) KPoll] ∧
  log s1 = (log s ++ [Call player_req])%list ∧
  pollInterval s1 = Some i1 ∧ timers s1 !! i1 = Some PollInterval ∧
  progressTimer s1 = None ∧
  (∀ j, pollInterval s = Some j ∨ progressTimer s = Some j → j ≠ i1 →
        timers s1 !! j = None) ∧
  timers s2 !! i1 = None ∧
  pollInterval s2 = Some (S i1) ∧ timers s2 !! S i1 = Some PollInterval ∧
  timers (stopPolling s1) !! i1 = None ∧
  pollInterval (stopPolling s1) = None ∧ progressTimer (stopPolling s1) = None.
Proof.
  cbv zeta.
  assert (∀ x, nextTimer (stopPolling x) = nextTimer x ∧ log (stopPolling x) = log x
               ∧ pollInterval (stopPolling x) = None
               ∧ progressTimer (stopPolling x) = None
               ∧ ∀ j, pollInterval x = Some j ∨ progressTimer x = Some j →
                      timers (stopPolling x) !! j = None) as Hstop.
  { intros x. unfold stopPolling, clearInterval.
    destruct (pollInterval x) as [a|] eqn:Ha; cbn; rewrite ?Ha;
      destruct (progressTimer x) as [b|] eqn:Hb; cbn; rewrite ?Hb;
      split_and!; try done; intros j [[= ->]|[= ->]];
      rewrite ?lookup_delete; by repeat case_decide. }
  rewrite !startPolling_eq. cbn [fst snd].
  destruct (Hstop s) as (Hn&Hl&Hp&Hpt&Hgone).
  set (x := stopPolling s) in *. clearbody x.
  set (s1 := set_pollInterval _ _).
  assert (nextTimer s1 = S (nextTimer s) ∧ pollInterval s1 = Some (nextTimer s)
          ∧ progressTimer s1 = None
          ∧ timers s1 = <[nextTimer s := PollInterval]> (timers x)
          ∧ log s1 = (log s ++ [Call player_req])%list) as (En&Ep&Ept&Etm&El).
  { unfold s1. cbn. rewrite Hn, Hl, Hpt. done. }
  clearbody s1.
  destruct (Hstop s1) as (Hn1&_&Hp1&Hpt1&Hgone1).
  set (x1 := stopPolling s1) in *. clearbody x1.
  split_and!; try done.
  - rewrite Etm. apply lookup_insert_eq.
  - intros j Hj Hne. rewrite Etm, lookup_insert_ne by done. by apply Hgone.
  - cbn. rewrite Hn1, En, lookup_insert_ne by lia. apply Hgone1. by left.
  - cbn. by rewrite Hn1, En.
  - cbn. rewrite Hn1, En. apply lookup_insert_eq.
  - apply Hgone1. by left.
Qed.

Lemma startPolling_restart_witness :
  let s1 := (startPolling (st fresh)).1 in
  pollInterval s1 = Some 1%nat ∧
  timers (startPolling s1).1 !! 1%nat = None ∧
  pollInterval (startPolling s1).1 = Some 2%nat.
Proof.
  intros s1.
  destruct (startPolling_restart (st fresh)) as (_&_&H1&_&_&_&H2&H3&_).
  split; [exact H1|]. split; [exact H2|exact H3].
Defined.

(** ** The throttle of [togglePlayPause] *)

Lemma togglePlayPause_settle_time now prev ppBtn o s :
  lastPlaybackCommandTime (togglePlayPause_settle now prev ppBtn o s) =
  match o with
  | Fulfilled _ => now
  | Rejected _ => lastPlaybackCommandTime s
  end.
Proof.
  unfold togglePlayPause_settle. destruct o as [d|m]; [done|].
  match goal with |- context [setStatusError ?a ?b (paint_ppBtn ?c ?x)] =>
    destruct (benign_trans _ _ _ (benign_paint_ppBtn c x)
                (benign_setStatusError a b _)) as (_&[_ H]&_) end.
  exact H.
Qed.

Lemma handler_toggle_time e s :
  (∃ now, handler e s = togglePlayPause now s ∧
          (e = TogglePlayPause now ∨ ∃ tid, e = ClickCard now tid)) ∨
  lastPlaybackCommandTime (handler e s).1 = lastPlaybackCommandTime s.
Proof.
  destruct e as [now|now tid|now tid| | | |i now| |dev| |state|ok|i now r];
    cbn [handler].
  - left. exists now. by split; [|left].
  - right. by destruct (playTrack_frame now tid s) as (_&[_ ?]&_).
  - case_match; [left; exists now; split; [done|right; by exists tid]|].
    right. by destruct (playTrack_frame now tid s) as (_&[_ ?]&_).
  - by right.
  - right. by destruct (startPolling_frame s) as (_&[_ ?]&_).
  - right. by destruct (stopPolling_frame s) as (_&[_ ?]&_).
  - right. by destruct (timerFires_frame i now s) as [(_&[_ ?]&_) _].
  - by right.
  - right. cbn [fst].
    match goal with |- context [setStatus ?a ?b ?x] =>
      by destruct (benign_setStatus a b x) as (_&[_ ?]&_) end.
  - by right.
  - right. by destruct (benign_sdkStateChanged state s) as (_&[_ ?]&_).
  - by right.
  - by right.
Qed.

(** X18. A [togglePlayPause] call less than 500 ms after the time in
    [lastPlaybackCommandTime] changes nothing, and that time is written in
    two places only: by a call that goes through the in-app session, and by
    the turn in which a remote play or pause command succeeds; in both it
    becomes the time at which that call was made. *)
Theorem toggle_throttle (e : Event) (y : Sys) :
  (∀ now, now - lastPlaybackCommandTime (st y) < 500 →
          step (TogglePlayPause now) y = y) ∧
  (lastPlaybackCommandTime (st (step e y)) ≠ lastPlaybackCommandTime (st y) →
   (∃ now, (e = TogglePlayPause now ∨ ∃ trackId, e = ClickCard now trackId) ∧
           playbackCommandPending (st y) = false ∧
           500 <= now - lastPlaybackCommandTime (st y) ∧
           spotifyPlayer (st y) && opt_truthy (sdkDeviceId (st y)) = true ∧
           lastPlaybackCommandTime (st (step e y)) = now) ∨
   (∃ i now r stage t1 p b d,
      e = Resume i now r ∧
      tasks y !! i = Some (TFetch stage (KToggle t1 p b)) ∧
      settles stage r (st y) = Some (Fulfilled d) ∧
      lastPlaybackCommandTime (st (step e y)) = t1)).
Proof.
  split.
  { intros now Hlt. rewrite step_handler by done. cbn [handler].
    rewrite togglePlayPause_rejected by auto. apply step_noop. }
  intros Hne.
  assert (∀ now, lastPlaybackCommandTime (togglePlayPause now (st y)).1
                 ≠ lastPlaybackCommandTime (st y) →
    playbackCommandPending (st y) = false ∧
    500 <= now - lastPlaybackCommandTime (st y) ∧
    spotifyPlayer (st y) && opt_truthy (sdkDeviceId (st y)) = true ∧
    lastPlaybackCommandTime (togglePlayPause now (st y)).1 = now) as Htg.
  { intros now Hn.
    destruct (togglePlayPause_cases now (st y)) as [Hr|(Hp&Ht&[[Hs Heq]|[Hs Heq]])].
    - by rewrite Hr in Hn.
    - by rewrite Heq.
    - rewrite Heq in Hn. cbn [fst] in Hn.
      by destruct (togglePlayPause_remote_state (st y)) as (_&?&_). }
  pose proof (handler_toggle_time e (st y)) as Hh.
  assert ((∀ i now r, e ≠ Resume i now r) →
    ∃ now, (e = TogglePlayPause now ∨ ∃ trackId, e = ClickCard now trackId) ∧
           playbackCommandPending (st y) = false ∧
           500 <= now - lastPlaybackCommandTime (st y) ∧
           spotifyPlayer (st y) && opt_truthy (sdkDeviceId (st y)) = true ∧
           lastPlaybackCommandTime (st (step e y)) = now) as Hnr.
  { intros He. rewrite step_handler in Hne |- * by done. cbn [st] in *.
    destruct Hh as [(now'&Heq&Hev)|Heq]; [|done].
    rewrite Heq in Hne |- *. destruct (Htg now' Hne) as (?&?&?&?).
    exists now'. by split_and!. }
  destruct e as [now|now tid|now tid| | | |i now| |dev| |state|ok|i now r];
    try (left; by apply Hnr).
  clear Hnr Hh.
  right.
  destruct (step_resume i now r y) as [Hs|(t&s'&new&Ht&Hr&Hs)];
    rewrite Hs in Hne |- *; [done|]. cbn [st] in *.
  apply resume_cases in Hr as [(req&k&->&->&->)|[(k&o&(stage&->&Ho)&Hst)|(tid&dev&->&Hst)]].
  - done.
  - assert (s' = (settle k now o (st y)).1) as -> by by rewrite <- Hst.
    pose proof (settle_frame k now o (st y)) as Hsf.
    destruct k as [|tid| |n p b]; try (by destruct Hsf as (_&[_ ?]&_)).
    rewrite Hsf in Hne |- *. cbn [fst] in *.
    rewrite togglePlayPause_settle_time in Hne |- *.
    destruct o as [d|m]; [|done].
    by exists i, now, r, stage, n, p, b, d.
  - assert (s' = (playTrack_device tid dev (st y)).1) as -> by by rewrite <- Hst.
    by destruct (playTrack_device_frame tid dev (st y)) as (_&[_ ?]&_).
Qed.

(** On a page with an in-app session, a second click 300 ms after the
    first. *)
Lemma toggle_throttle_witness :
  let y := run [SdkSetup; SdkReady "device-1"; TogglePlayPause 1000] fresh in
  lastPlaybackCommandTime (st y) = 1000 ∧
  1300 - lastPlaybackCommandTime (st y) < 500 ∧
  step (TogglePlayPause 1300) y = y.
Proof.
  intros y.
  assert (1300 - lastPlaybackCommandTime (st y) < 500) as Hlt by (vm_compute; done).
  destruct (toggle_throttle SdkSetup y) as [H _].
  split; [reflexivity|]. split; [exact Hlt|exact (H 1300 Hlt)].
Defined.

(** ** The poller's interval *)

Lemma poller_quiet_refl s : poller_quiet s s.
Proof. by split. Qed.

Lemma poller_quiet_trans s1 s2 s3 :
  poller_quiet s1 s2 → poller_quiet s2 s3 → poller_quiet s1 s3.
Proof. intros [? ?] [? ?]. split; [congruence | eauto]. Qed.

Lemma poller_quiet_fields s s' :
  pollInterval s' = pollInterval s → timers s' = timers s → poller_quiet s s'.
Proof. intros Hp Ht. split; [done|]. intros i. by rewrite Ht. Qed.

Lemma poller_quiet_clearInterval t s : poller_quiet s (clearInterval t s).
Proof.
  destruct t as [i|]; [|apply poller_quiet_refl]. split; [done|].
  simpl. intros j Hj. by apply lookup_delete_Some in Hj as [_ ?].
Qed.

Lemma poller_quiet_startTimer k s :
  k ≠ PollInterval → poller_quiet s (startTimer k s).2.
Proof.
  intros Hk. split; [done|]. simpl. intros j Hj.
  apply lookup_insert_Some in Hj as [[_ ?]|[_ ?]]; [congruence|done].
Qed.

Lemma poller_quiet_setStatus msg type s : poller_quiet s (setStatus msg type s).
Proof.
  unfold setStatus. case_match; [|by apply poller_quiet_fields].
  eapply poller_quiet_trans; [|by apply poller_quiet_startTimer].
  by apply poller_quiet_fields.
Qed.

Lemma poller_quiet_setStatusError msg force s :
  poller_quiet s (setStatusError msg force s).
Proof.
  unfold setStatusError. case_match;
    [by apply poller_quiet_fields|apply poller_quiet_setStatus].
Qed.

Lemma poller_quiet_paint_ppBtn b s : poller_quiet s (paint_ppBtn b s).
Proof. unfold paint_ppBtn. destruct b; by apply poller_quiet_fields. Qed.

Lemma poller_quiet_updateProgressEl p d s :
  poller_quiet s (updateProgressEl p d s).
Proof. unfold updateProgressEl. case_match; by apply poller_quiet_fields. Qed.

Lemma poller_quiet_progressTick now s : poller_quiet s (progressTick now s).
Proof.
  unfold progressTick. case_match;
    [apply poller_quiet_updateProgressEl|apply poller_quiet_clearInterval].
Qed.

Lemma poller_quiet_pollPlaybackState_settle now o s :
  poller_quiet s (pollPlaybackState_settle now o s).
Proof.
  unfold pollPlaybackState_settle.
  destruct o as [state|m]; [|case_match; by apply poller_quiet_fields].
  destruct (state ≫= item) as [track|]; [|apply poller_quiet_clearInterval].
  cbv zeta.
  destruct (poll_snapshot_fields track (from_option is_playing false state)
              (num_or_0 (state ≫= progress_ms)) (num_or_0 (duration_ms track))
              now s) as (_&_&_&_&_&Ht&_).
  set (s1 := updateBarNowPlaying _ _ _ _ _ _) in *.
  assert (poller_quiet s s1) as H1.
  { apply poller_quiet_fields; [|done].
    unfold s1, updateBarNowPlaying, updateProgressEl. cbn.
    by repeat case_match. }
  eapply poller_quiet_trans; [exact H1|].
  pose proof (poller_quiet_clearInterval (progressTimer s1) s1) as H2.
  destruct (from_option is_playing false state); [|done].
  eapply poller_quiet_trans; [exact H2|].
  eapply poller_quiet_trans; [by apply (poller_quiet_startTimer ProgressInterval)|].
  by apply poller_quiet_fields.
Qed.

Lemma poller_quiet_playTrack_device trackId deviceId s :
  poller_quiet s (playTrack_device trackId deviceId s).1.
Proof.
  destruct (playTrack_device_cases trackId deviceId s) as [[_ ->]|(d&_&_&->)];
    cbn [fst].
  - eapply poller_quiet_trans; [apply poller_quiet_setStatus|].
    by apply poller_quiet_fields.
  - eapply poller_quiet_trans; [by apply (poller_quiet_startTimer PollTimeout)|].
    by apply poller_quiet_fields.
Qed.

Lemma poller_quiet_playTrack now trackId s :
  poller_quiet s (playTrack now trackId s).1.
Proof. unfold playTrack. repeat case_match; by apply poller_quiet_fields. Qed.

Lemma poller_quiet_playTrack_settle o s : poller_quiet s (playTrack_settle o s).
Proof.
  unfold playTrack_settle. destruct o as [d|m]; [by apply poller_quiet_fields|].
  eapply poller_quiet_trans; [apply poller_quiet_setStatusError|].
  by apply poller_quiet_fields.
Qed.

Lemma poller_quiet_togglePlayPause_settle now prev ppBtn o s :
  poller_quiet s (togglePlayPause_settle now prev ppBtn o s).
Proof.
  unfold togglePlayPause_settle. destruct o as [d|m]; [by apply poller_quiet_fields|].
  eapply poller_quiet_trans; [|by apply poller_quiet_fields].
  eapply poller_quiet_trans; [|apply poller_quiet_setStatusError].
  eapply poller_quiet_trans; [|apply poller_quiet_paint_ppBtn].
  by apply poller_quiet_fields.
Qed.

Lemma poller_quiet_togglePlayPause now s :
  poller_quiet s (togglePlayPause now s).1.
Proof.
  assert (poller_quiet s (togglePlayPause_optimistic s).1.1) as Ho.
  { destruct (togglePlayPause_optimistic_state s) as (_&_&->).
    assert (∀ b, poller_quiet s (paint_ppBtn (has_ppBtn s)
                   (set_lastPaused b (set_playbackCommandPending true s)))) as Hp.
    { intros b. eapply poller_quiet_trans; [|apply poller_quiet_paint_ppBtn].
      by apply poller_quiet_fields. }
    destruct (negb (lastPaused s)); [|apply Hp].
    eapply poller_quiet_trans; [apply Hp|apply poller_quiet_clearInterval]. }
  destruct (togglePlayPause_cases now s) as [->|(_&_&[[_ ->]|[_ ->]])]; cbn [fst].
  - apply poller_quiet_refl.
  - eapply poller_quiet_trans; [exact Ho|]. by apply poller_quiet_fields.
  - eapply poller_quiet_trans; [exact Ho|]. by apply poller_quiet_fields.
Qed.

Lemma poller_quiet_timerFires i now s : poller_quiet s (timerFires i now s).1.
Proof.
  unfold timerFires. destruct (timers s !! i) as [[| | |msg]|]; cbn [fst].
  - apply poller_quiet_progressTick.
  - by apply poller_quiet_fields.
  - eapply poller_quiet_trans; [apply (poller_quiet_clearInterval (Some i))|].
    by apply poller_quiet_fields.
  - eapply poller_quiet_trans; [apply (poller_quiet_clearInterval (Some i))|].
    case_match; by apply poller_quiet_fields.
  - apply poller_quiet_refl.
Qed.

Lemma poller_inv_quiet s s' : poller_quiet s s' → poller_inv s → poller_inv s'.
Proof. intros [Ht Hq] Hinv i Hi. rewrite Ht. by apply Hinv, Hq. Qed.

Lemma poller_inv_stopPolling s : poller_inv s → poller_inv (stopPolling s).
Proof.
  intros Hinv i Hi. exfalso. unfold stopPolling, clearInterval in Hi.
  destruct (pollInterval s) as [a|] eqn:Ha; cbn in Hi; rewrite ?Ha in Hi;
    destruct (progressTimer s) as [b|]; cbn in Hi;
    rewrite ?lookup_delete_Some in Hi; destruct_and?;
    match goal with H : timers s !! i = Some PollInterval |- _ =>
      apply Hinv in H end; congruence.
Qed.

Lemma poller_inv_startPolling s : poller_inv s → poller_inv (startPolling s).1.
Proof.
  intros Hinv. rewrite startPolling_eq. cbn [fst].
  pose proof (poller_inv_stopPolling s Hinv) as Hs.
  set (x := stopPolling s) in *. 
  assert (pollInterval x = None) as Hn
    by (unfold x, stopPolling; by repeat case_match).
  clearbody x. intros i Hi. cbn in Hi |- *.
  apply lookup_insert_Some in Hi as [[-> _]|[_ Hi]]; [done|].
  apply Hs in Hi. congruence.
Qed.

Lemma handler_poller_inv e s : poller_inv s → poller_inv (handler e s).1.
Proof.
  intros Hinv.
  destruct e as [now|now tid|now tid| | | |i now| |dev| |state|ok|i now r];
    cbn [handler].
  - by eapply poller_inv_quiet, Hinv; apply poller_quiet_togglePlayPause.
  - by eapply poller_inv_quiet, Hinv; apply poller_quiet_playTrack.
  - case_match.
    + by eapply poller_inv_quiet, Hinv; apply poller_quiet_togglePlayPause.
    + by eapply poller_inv_quiet, Hinv; apply poller_quiet_playTrack.
  - done.
  - by apply poller_inv_startPolling.
  - by apply poller_inv_stopPolling.
  - eapply poller_inv_quiet, Hinv. apply poller_quiet_timerFires.
  - done.
  - eapply poller_inv_quiet, Hinv. cbn [fst].
    eapply poller_quiet_trans; [|apply poller_quiet_setStatus].
    by apply poller_quiet_fields.
  - done.
  - eapply poller_inv_quiet, Hinv. destruct state; by apply poller_quiet_fields.
  - done.
  - done.
Qed.

Lemma settle_poller_quiet k now o s : poller_quiet s (settle k now o s).1.
Proof.
  destruct k as [|tid| |n p b]; cbn [settle fst].
  - apply poller_quiet_pollPlaybackState_settle.
  - destruct o as [d|m]; cbn [getPlaybackDeviceId_settle].
    + apply poller_quiet_playTrack_device.
    + eapply poller_quiet_trans; [|apply poller_quiet_playTrack_device].
      by apply poller_quiet_fields.
  - apply poller_quiet_playTrack_settle.
  - apply poller_quiet_togglePlayPause_settle.
Qed.

Lemma step_poller_inv e y : poller_inv (st y) → poller_inv (st (step e y)).
Proof.
  intros Hinv.
  destruct e as [now|now tid|now tid| | | |i now| |dev| |state|ok|i now r];
    try (rewrite step_handler by done; by apply handler_poller_inv).
  destruct (step_resume i now r y) as [->|(t&s'&new&Ht&Hr&->)]; [done|].
  apply resume_cases in Hr as [(req&k&->&->&->)|[(k&o&_&Hs)|(tid&dev&->&Hs)]];
    cbn [st].
  - done.
  - pose proof (settle_poller_quiet k now o (st y)) as H. rewrite <- Hs in H.
    by eapply poller_inv_quiet.
  - pose proof (poller_quiet_playTrack_device tid dev (st y)) as H.
    rewrite <- Hs in H. by eapply poller_inv_quiet.
Qed.

Lemma run_poller_inv es y : poller_inv (st y) → poller_inv (st (run es y)).
Proof.
  revert y. induction es as [|e es IH]; intros y Hinv; [done|].
  rewrite run_cons. by apply IH, step_poller_inv.
Qed.

(** X19. In every state the renderer can reach at most one poller interval
    is live, and it is the one whose id [pollInterval] holds: however often
    polling is started, polls do not pile up; and after [stopPolling]
    neither a poller nor a clock is left. *)
Theorem single_poller (d : Dom) (lib : list LibTrack) (es : list Event) :
  let s := st (run es (boot d lib)) in
  (∀ i j, timers s !! i = Some PollInterval → timers s !! j = Some PollInterval →
          i = j ∧ pollInterval s = Some i) ∧
  (∀ i, timers (stopPolling s) !! i ≠ Some PollInterval ∧
        timers (stopPolling s) !! i ≠ Some ProgressInterval).
Proof.
  intros s.
  assert (poller_inv s) as Hinv.
  { apply run_poller_inv. intros i Hi. simpl in Hi. by rewrite lookup_empty in Hi. }
  assert (clock_inv s) as Hc by apply run_clock_inv, boot_clock_inv.
  split.
  - intros i j Hi Hj. pose proof (Hinv i Hi). pose proof (Hinv j Hj).
    split; congruence.
  - intros i. split; intros Hi.
    + pose proof (poller_inv_stopPolling s Hinv i Hi) as H.
      revert H. unfold stopPolling. by repeat case_match.
    + by destruct (clock_stopped_stopPolling s Hc i ProgressInterval Hi).
Qed.

(** Polling started three times over. *)
Lemma single_poller_witness :
  let s := st (run [StartPolling; StartPolling; StartPolling] fresh) in
  timers s !! 3%nat = Some PollInterval ∧
  pollInterval s = Some 3%nat ∧
  timers s !! 1%nat = None ∧ timers s !! 2%nat = None.
Proof.
  intros s.
  assert (timers s !! 3%nat = Some PollInterval) as H by by vm_compute.
  destruct (single_poller (page_logged_in []) [] [StartPolling; StartPolling; StartPolling])
    as [H1 _].
  destruct (H1 3%nat 3%nat H H) as [_ H2].
  split; [exact H|]. split; [exact H2|]. split; by vm_compute.
Defined.

(** ** The in-app session and the device lookup *)

(** X20. Once the in-app player has reported ready with a device id, an
    accepted [playTrack] asks the service for no device list: it goes on with
    that id.  After the player has reported not ready, an accepted
    [playTrack] starts with the device lookup. *)
Theorem playTrack_prefers_sdk_device (now : Z) (trackId device : string)
    (s : State) :
  playTrackPending s = false → 500 <= now - lastPlayTrackTime s →
  (device ≠ "" →
   let s1 := (handler (SdkReady device) s).1 in
   (playTrack now trackId s1).2 = [TPlayTrackDevice trackId (Some device)] ∧
   log (playTrack now trackId s1).1 = log s ∧
   ∀ s2, (playTrack_device trackId (Some device) s2).2 =
         [TFetch (AwaitToken (playTrack_req device trackId)) KPlayTrackCommand]) ∧
  (let s1 := (handler SdkNotReady s).1 in
   (playTrack now trackId s1).2 =
     [TFetch (AwaitToken devices_req) (KPlayTrackDevices trackId)] ∧
   log (playTrack now trackId s1).1 = (log s ++ [Call devices_req])%list).
Proof.
  intros Hp Ht. split.
  - intros Hd. cbv zeta. cbn [handler fst].
    set (s1 := setStatus _ _ _).
    assert (playTrackPending s1 = false ∧ lastPlayTrackTime s1 = lastPlayTrackTime s
            ∧ sdkDeviceId s1 = Some device ∧ log s1 = log s) as (Hp1&Ht1&Hs1&Hl1).
    { unfold s1. rewrite log_setStatus.
      match goal with |- context [setStatus ?a ?b ?x] =>
        destruct (benign_setStatus a b x) as (_&_&[? ?]&_) end.
      split_and!; try done; try congruence; unfold setStatus; by case_match. }
    clearbody s1. unfold playTrack.
    rewrite Hp1, Ht1, (proj2 (Z.ltb_ge _ _) Ht). cbn [sdkDeviceId set_lastPlayTrackTime
      set_playTrackPending]. rewrite Hs1.
    assert (opt_truthy (Some device) = true) as -> by by destruct device.
    split_and!; try done.
    intros s2.
    destruct (playTrack_device_cases trackId (Some device) s2)
      as [[Hx _]|(d'&[= <-]&_&->)]; [by destruct device|done].
  - cbv zeta. cbn [handler fst]. unfold playTrack.
    cbn [playTrackPending lastPlayTrackTime set_sdkDeviceId].
    rewrite Hp, (proj2 (Z.ltb_ge _ _) Ht). done.
Qed.

Lemma playTrack_prefers_sdk_device_witness :
  let s1 := (handler (SdkReady "device-1") (st fresh)).1 in
  (playTrackPending (st fresh) = false ∧ 500 <= 1000 - lastPlayTrackTime (st fresh)) ∧
  (playTrack 1000 "X" s1).2 = [TPlayTrackDevice "X" (Some "device-1")] ∧
  (playTrack 1000 "X" (handler SdkNotReady s1).1).2 =
    [TFetch (AwaitToken devices_req) (KPlayTrackDevices "X")].
Proof.
  intros s1.
  assert (500 <= 1000 - lastPlayTrackTime (st fresh)) as Ht by (simpl; lia).
  assert (500 <= 1000 - lastPlayTrackTime s1) as Ht1 by (vm_compute; discriminate).
  destruct (playTrack_prefers_sdk_device 1000 "X" "device-1" (st fresh) eq_refl Ht)
    as [H1 _].
  destruct (playTrack_prefers_sdk_device 1000 "X" "device-1" s1 eq_refl Ht1)
    as [_ [H2 _]].
  assert ("device-1" ≠ "") as Hne by done.
  destruct (H1 Hne) as [H1' _].
  split; [split; [reflexivity|exact Ht]|]. split; [exact H1'|exact H2].
Defined.
